(** * NFLSTATSAPP ingestion core: a shallow embedding and its properties

    The development follows the Python sources of the ingestion pipeline:

    - [src/ingestion/balldontlie_client.py]: [RateLimiter], [_request],
      [paginate] (module [Client]);
    - [src/ingestion/balldontlie_ingestor.py]: [_chunked], [_valid_rows],
      the mappers, [ingest_core], [ingest_stats_and_advanced],
      [should_ingest_prop], [ingest_player_props_filtered],
      [ingest_standings], the deduplication of [ingest_rosters]
      (module [Ingestor]);
    - [src/ingestion/ingest_betting_and_extras.py]: [VENDOR_PRIORITY],
      [PROP_MAP], [_dedupe], [is_valid_prop], [map_player_prop],
      [_get_best_props], the props loop of [ingest_extras]
      (module [Extras]).

    Python values are modelled by the type [Value]; exceptions by [Exc];
    code with effects runs in the state-and-exception monad [M] over the
    mutable [State] of one process, against an environment [Env] that fixes
    what the outside world answers. *)

From Stdlib Require Import List String Ascii ZArith QArith Bool Lia Lqa.
From Stdlib Require Import DecimalString DecimalZ.
Import ListNotations.

Local Open Scope string_scope.
Local Open Scope Z_scope.

(* ================================================================== *)
(** * Python values *)
(* ================================================================== *)

Module Py.

Scheme All for list.
Scheme All for prod.

(** JSON-shaped Python values.  A [dict] is an association list read by its
    first matching key; numbers are integers (the provider sends decimal
    quantities such as a line value as text). *)
Inductive Value : Type :=
| VNone
| VBool (b : bool)
| VInt (z : Z)
| VStr (s : string)
| VList (xs : list Value)
| VDict (kv : list (string * Value)).

Definition Dict : Type := list (string * Value).

(** Exceptions, by class. *)
Inductive Exc : Type :=
| BallDontLieError (msg : string)
| ValueError (msg : string)
| AttributeError (msg : string)
| TypeError (msg : string)
| TransportError (name : string)
| JSONDecodeError
| StoreError (msg : string).

(** The outcome of running a piece of code: a value, a raised exception, or
    [Diverge] when a [while True] loop was cut by the step budget of the
    model (no handler catches it). *)
Inductive Result (A : Type) : Type :=
| Ok (a : A)
| Raise (e : Exc)
| Diverge.

Arguments Ok {A} a.
Arguments Raise {A} e.
Arguments Diverge {A}.

Definition rbind {A B} (r : Result A) (k : A -> Result B) : Result B :=
  match r with
  | Ok a => k a
  | Raise e => Raise e
  | Diverge => Diverge
  end.

(** Structural equality of values. *)
Fixpoint Value_eqb (a b : Value) {struct a} : bool :=
  match a, b with
  | VNone, VNone => true
  | VBool x, VBool y => Bool.eqb x y
  | VInt x, VInt y => Z.eqb x y
  | VStr x, VStr y => String.eqb x y
  | VList xs, VList ys =>
      (fix go (l : list Value) (r : list Value) {struct l} : bool :=
         match l, r with
         | [], [] => true
         | x :: l', y :: r' => Value_eqb x y && go l' r'
         | _, _ => false
         end) xs ys
  | VDict xs, VDict ys =>
      (fix go (l : list (string * Value)) (r : list (string * Value))
           {struct l} : bool :=
         match l, r with
         | [], [] => true
         | (k, x) :: l', (k', y) :: r' =>
             String.eqb k k' && Value_eqb x y && go l' r'
         | _, _ => false
         end) xs ys
  | _, _ => false
  end.

(** A Python [dict] with text keys, in insertion order: lookup of a key,
    and the assignment [t[k] = v], where an existing key keeps its place and
    a new key goes last. *)
Fixpoint assoc_find {V} (t : list (string * V)) (k : string) : option V :=
  match t with
  | [] => None
  | (k', v) :: t' => if String.eqb k k' then Some v else assoc_find t' k
  end.

Fixpoint assoc_set {V} (t : list (string * V)) (k : string) (v : V)
  : list (string * V) :=
  match t with
  | [] => [(k, v)]
  | (k', v') :: t' =>
      if String.eqb k k' then (k', v) :: t' else (k', v') :: assoc_set t' k v
  end.

Definition dict_find (d : Dict) (k : string) : option Value := assoc_find d k.

(** [d.get(k)]. *)
Definition get (d : Dict) (k : string) : Value :=
  match dict_find d k with
  | Some v => v
  | None => VNone
  end.

(** [d.get(k, default)]. *)
Definition get_default (d : Dict) (k : string) (default : Value) : Value :=
  match dict_find d k with
  | Some v => v
  | None => default
  end.

(** [d[k] = v]. *)
Definition dict_set (d : Dict) (k : string) (v : Value) : Dict :=
  assoc_set d k v.

(** [d.setdefault(k, v)], for its effect on [d]. *)
Definition setdefault (d : Dict) (k : string) (v : Value) : Dict :=
  match dict_find d k with
  | Some _ => d
  | None => dict_set d k v
  end.

(** [k in d]. *)
Definition dict_mem (d : Dict) (k : string) : bool :=
  match dict_find d k with
  | Some _ => true
  | None => false
  end.

(** [x.get(k, default)] on a value that need not be a dict. *)
Definition py_get (x : Value) (k : string) (default : Value) : Result Value :=
  match x with
  | VDict d => Ok (get_default d k default)
  | _ => Raise (AttributeError "object has no attribute 'get'")
  end.

(** The view of a record as a dict, for the functions annotated
    [dict[str, Any]]: their first [.get] raises on anything else. *)
Definition as_dict (x : Value) : Result Dict :=
  match x with
  | VDict d => Ok d
  | _ => Raise (AttributeError "object has no attribute 'get'")
  end.

(** [isinstance(x, dict)]. *)
Definition is_dict (x : Value) : bool :=
  match x with
  | VDict _ => true
  | _ => false
  end.

(** [x is None]. *)
Definition is_none (x : Value) : bool :=
  match x with
  | VNone => true
  | _ => false
  end.

(** Truth value of [x] in a condition. *)
Definition truthy (x : Value) : bool :=
  match x with
  | VNone => false
  | VBool b => b
  | VInt z => negb (z =? 0)
  | VStr s => negb (String.eqb s "")
  | VList xs => match xs with [] => false | _ => true end
  | VDict kv => match kv with [] => false | _ => true end
  end.

(** [a or b]. *)
Definition py_or (a b : Value) : Value := if truthy a then a else b.

(** [x == "text"] against a string constant. *)
Definition eq_str (x : Value) (s : string) : bool :=
  match x with
  | VStr t => String.eqb t s
  | _ => false
  end.

(** [str.lower] on the letters A-Z. *)
Definition lower_ascii (c : ascii) : ascii :=
  let n := nat_of_ascii c in
  if (Nat.leb 65 n && Nat.leb n 90)%bool then ascii_of_nat (n + 32) else c.

Fixpoint lower (s : string) : string :=
  match s with
  | EmptyString => EmptyString
  | String c s' => String (lower_ascii c) (lower s')
  end.

(** [x.lower()]. *)
Definition py_lower (x : Value) : Result string :=
  match x with
  | VStr s => Ok (lower s)
  | _ => Raise (AttributeError "object has no attribute 'lower'")
  end.

(** [str(n)] for an integer. *)
Definition str_int (z : Z) : string := NilZero.string_of_int (Z.to_int z).

Definition join_with (sep : string) (parts : list string) : string :=
  match parts with
  | [] => ""
  | p :: ps => fold_left (fun acc q => acc ++ sep ++ q) ps p
  end.

(** [repr(x)]; text inside a container is quoted without escapes. *)
Fixpoint py_repr (x : Value) : string :=
  match x with
  | VNone => "None"
  | VBool true => "True"
  | VBool false => "False"
  | VInt z => str_int z
  | VStr s => "'" ++ s ++ "'"
  | VList xs => "[" ++ join_with ", " (map py_repr xs) ++ "]"
  | VDict kv =>
      "{" ++ join_with ", "
               (map (fun p => "'" ++ fst p ++ "': " ++ py_repr (snd p)) kv)
          ++ "}"
  end.

(** [str(x)], as an f-string renders [{x}]. *)
Definition py_str (x : Value) : string :=
  match x with
  | VStr s => s
  | _ => py_repr x
  end.

(** [int(x)] on canonical decimal text, integers and booleans. *)
Definition py_int (x : Value) : Result Z :=
  match x with
  | VInt z => Ok z
  | VBool b => Ok (if b then 1 else 0)
  | VStr s =>
      match NilZero.int_of_string s with
      | Some d => Ok (Z.of_int d)
      | None => Raise (ValueError "invalid literal for int()")
      end
  | _ => Raise (TypeError "int() argument must be a string or a number")
  end.

(** The items a [for] loop draws from [x]. *)
Fixpoint chars (s : string) : list Value :=
  match s with
  | EmptyString => []
  | String c s' => VStr (String c EmptyString) :: chars s'
  end.

Definition py_iter (x : Value) : Result (list Value) :=
  match x with
  | VList xs => Ok xs
  | VDict kv => Ok (map (fun p => VStr (fst p)) kv)
  | VStr s => Ok (chars s)
  | _ => Raise (TypeError "object is not iterable")
  end.

(** [len(xs)] as a Python integer. *)
Definition len {A} (xs : list A) : Z := Z.of_nat (List.length xs).

(** The key under which a [dict] or a [set] files a value: [True] and [1]
    are one key, and so are [False] and [0]; a list or a dict cannot be
    hashed. *)
Definition hash_key (v : Value) : Result Value :=
  match v with
  | VBool b => Ok (VInt (if b then 1 else 0))
  | VList _ | VDict _ => Raise (TypeError "unhashable type")
  | _ => Ok v
  end.

(** The key of a tuple of values. *)
Fixpoint tuple_key (vs : list Value) : Result (list Value) :=
  match vs with
  | [] => Ok []
  | v :: vs' =>
      rbind (hash_key v) (fun k =>
      rbind (tuple_key vs') (fun ks => Ok (k :: ks)))
  end.

Fixpoint tuple_eqb (a b : list Value) : bool :=
  match a, b with
  | [], [] => true
  | x :: a', y :: b' => Value_eqb x y && tuple_eqb a' b'
  | _, _ => false
  end.

(** A [dict] keyed by tuples, in insertion order: lookup, and the
    assignment [t[k] = v]. *)
Fixpoint tdict_find {V} (t : list (list Value * V)) (k : list Value)
  : option V :=
  match t with
  | [] => None
  | (k', v) :: t' => if tuple_eqb k k' then Some v else tdict_find t' k
  end.

Fixpoint tdict_set {V} (t : list (list Value * V)) (k : list Value) (v : V)
  : list (list Value * V) :=
  match t with
  | [] => [(k, v)]
  | (k', v') :: t' =>
      if tuple_eqb k k' then (k', v) :: t' else (k', v') :: tdict_set t' k v
  end.

End Py.

(* ================================================================== *)
(** * The process: environment, state, effects, generators *)
(* ================================================================== *)

Module Runtime.
Import Py.

(** One call of [session.request]. *)
Record Request : Type := mkRequest {
  method : string;
  url : string;
  headers : list (string * string);
  params : Dict;
  timeout : Z
}.

(** The [Retry-After] header of a response, as [float()] reads it. *)
Inductive RetryAfter : Type :=
| RA_absent
| RA_seconds (q : Q)
| RA_malformed.

Record Response : Type := mkResponse {
  status_code : Z;
  retry_after : RetryAfter;
  body : option Value
}.

(** What [session.request] does: raise, or hand back a response. *)
Inductive Outcome : Type :=
| Fails (e : Exc)
| Responds (r : Response).

(** The world outside the process, fixed for a run: how much time passes
    at each clock event beyond what was asked for, what the [n]-th request
    meets, how [datetime.isoformat] renders an instant, whether the [n]-th
    store write fails, and the number of pages after which the model cuts a
    [while True] loop. *)
Record Env : Type := mkEnv {
  drift : nat -> Q;
  upstream : nat -> Request -> Outcome;
  isoformat : Q -> string;
  store_fault : nat -> option Exc;
  budget : nat
}.

(** [RateLimiter]: the dataclass fields other than the sleep callable. *)
Record RateLimiter : Type := mkRateLimiter {
  min_interval_seconds : Q;
  _last_ts : Q
}.

Inductive Sleeper : Type := ByLimiter | ByClient.

(** What the process did, in order. *)
Inductive Event : Type :=
| EvSleep (who : Sleeper) (seconds : Q)
| EvRequest (req : Request)
| EvUpsert (table : string) (rows : list Dict) (on_conflict : list string)
| EvWarning (fmt : string) (args : list Value) (e : Exc).

(** A table is the list of its rows; the store maps table names to
    tables. *)
Definition Table : Type := list Dict.
Definition Store : Type := list (string * Table).

Record State : Type := mkState {
  clock : Q;
  ticks : nat;
  calls : nat;
  writes : nat;
  rl : RateLimiter;
  trace : list Event;
  tables : Store
}.

Definition M (A : Type) : Type := State -> Result A * State.

Definition ret {A} (a : A) : M A := fun s => (Ok a, s).

Definition raise {A} (e : Exc) : M A := fun s => (Raise e, s).

Definition bind {A B} (c : M A) (k : A -> M B) : M B :=
  fun s =>
    match c s with
    | (Ok a, s') => k a s'
    | (Raise e, s') => (Raise e, s')
    | (Diverge, s') => (Diverge, s')
    end.

Definition lift {A} (r : Result A) : M A := fun s => (r, s).

(** [try: c  except <classes>: h]: [h e] is [None] for an exception the
    clause does not name. *)
Definition try_except {A} (c : M A) (h : Exc -> option (M A)) : M A :=
  fun s =>
    match c s with
    | (Raise e, s') =>
        match h e with
        | Some handler => handler s'
        | None => (Raise e, s')
        end
    | other => other
    end.

Definition emit (ev : Event) : M unit :=
  fun s =>
    (Ok tt, mkState (clock s) (ticks s) (calls s) (writes s) (rl s)
                    (trace s ++ [ev]) (tables s)).

(** Generators, as their consumer drives them: the next item, the end, an
    exception, or an effect to run before either. *)
Inductive Gen (A : Type) : Type :=
| GDone
| GRaise (e : Exc)
| GDiverge
| GYield (a : A) (rest : Gen A)
| GEffect (k : State -> Gen A * State).

Arguments GDone {A}.
Arguments GRaise {A} e.
Arguments GDiverge {A}.
Arguments GYield {A} a rest.
Arguments GEffect {A} k.

(** [iter(xs)] for a list, followed by what [tail] does. *)
Fixpoint gen_items {A} (xs : list A) (tail : Gen A) : Gen A :=
  match xs with
  | [] => tail
  | x :: xs' => GYield x (gen_items xs' tail)
  end.

Definition gen_of_list {A} (xs : list A) : Gen A := gen_items xs GDone.

(** A generator that first runs [c] and goes on as the generator it
    returns. *)
Definition gen_do {A} (c : M (Gen A)) : Gen A :=
  GEffect (fun s =>
    match c s with
    | (Ok g, s') => (g, s')
    | (Raise e, s') => (GRaise e, s')
    | (Diverge, s') => (GDiverge, s')
    end).

(** [(f(x) for x in g)]. *)
Fixpoint gen_map {A B} (f : A -> M B) (g : Gen A) : Gen B :=
  match g with
  | GDone => GDone
  | GRaise e => GRaise e
  | GDiverge => GDiverge
  | GYield a rest =>
      GEffect (fun s =>
        match f a s with
        | (Ok b, s') => (GYield b (gen_map f rest), s')
        | (Raise e, s') => (GRaise e, s')
        | (Diverge, s') => (GDiverge, s')
        end)
  | GEffect k =>
      GEffect (fun s => let (g', s') := k s in (gen_map f g', s'))
  end.

(** [list(g)]. *)
Fixpoint to_list {A} (g : Gen A) : M (list A) :=
  match g with
  | GDone => ret []
  | GRaise e => raise e
  | GDiverge => fun s => (Diverge, s)
  | GYield a rest => bind (to_list rest) (fun xs => ret (a :: xs))
  | GEffect k => fun s => let (g', s') := k s in to_list g' s'
  end.

(** A block of statements that updates a local variable of type [S]: it
    ends or raises, and either way the variable holds what the block last
    gave it. *)
Definition Block (S : Type) : Type := State -> (S * Result unit) * State.

(** [for x in g: acc = body(x, acc)], as a block over [acc]. *)
Fixpoint run_loop {A S} (g : Gen A) (body : A -> S -> M S) (acc : S)
  : Block S :=
  match g with
  | GDone => fun s => ((acc, Ok tt), s)
  | GRaise e => fun s => ((acc, Raise e), s)
  | GDiverge => fun s => ((acc, Diverge), s)
  | GYield a rest =>
      fun s =>
        match body a acc s with
        | (Ok acc', s') => run_loop rest body acc' s'
        | (Raise e, s') => ((acc, Raise e), s')
        | (Diverge, s') => ((acc, Diverge), s')
        end
  | GEffect k => fun s => let (g', s') := k s in run_loop g' body acc s'
  end.

(** The value a block leaves in its variable, when it ends. *)
Definition block_result {S} (b : Block S) : M S :=
  fun s =>
    match b s with
    | ((v, Ok _), s') => (Ok v, s')
    | ((_, Raise e), s') => (Raise e, s')
    | ((_, Diverge), s') => (Diverge, s')
    end.

(** [try: b  except <classes> as e: h(e)]. *)
Definition try_block {S} (b : Block S) (h : Exc -> option (M unit))
  : Block S :=
  fun s =>
    match b s with
    | ((v, Raise e), s') =>
        match h e with
        | Some handler => let (r, s'') := handler s' in ((v, r), s'')
        | None => ((v, Raise e), s')
        end
    | other => other
    end.

Definition for_each {A S} (g : Gen A) (body : A -> S -> M S) (acc : S)
  : M S :=
  block_result (run_loop g body acc).

(** [[f(x) for x in xs]]. *)
Fixpoint map_list {A B} (f : A -> M B) (xs : list A) : M (list B) :=
  match xs with
  | [] => ret []
  | x :: xs' =>
      bind (f x) (fun y => bind (map_list f xs') (fun ys => ret (y :: ys)))
  end.

(** [[x for x in xs if p(x)]] for a test that may raise. *)
Fixpoint filter_list {A} (p : A -> Result bool) (xs : list A)
  : Result (list A) :=
  match xs with
  | [] => Ok []
  | x :: xs' =>
      rbind (p x) (fun keep =>
      rbind (filter_list p xs') (fun ys =>
      Ok (if keep then x :: ys else ys)))
  end.

(** [logger.warning(fmt, *args, e)]. *)
Definition warning (fmt : string) (args : list Value) (e : Exc) : M unit :=
  emit (EvWarning fmt args e).

End Runtime.

Declare Scope py_scope.
Delimit Scope py_scope with py.
Notation "x <- c1 ;; c2" := (Runtime.bind c1 (fun x => c2))
  (at level 61, c1 at next level, right associativity) : py_scope.
Notation "c1 ;; c2" := (Runtime.bind c1 (fun _ => c2))
  (at level 61, right associativity) : py_scope.

(* ================================================================== *)
(** * balldontlie_client.py *)
(* ================================================================== *)

Module Client.
Import Py Runtime.
Local Open Scope py_scope.

Definition Qlt_bool (a b : Q) : bool := negb (Qle_bool b a).

Section WithEnv.
Variable E : Env.

(** [time.time()]: the clock moves on by what the environment lets pass. *)
Definition time_time : M Q :=
  fun s =>
    let t := (clock s + drift E (ticks s))%Q in
    (Ok t, mkState t (S (ticks s)) (calls s) (writes s) (rl s)
                   (trace s) (tables s)).

(** [_sleep(seconds)], that is [time.sleep]: refuses a negative length;
    otherwise the call lasts [seconds] and what the environment lets pass
    on top.  (Lengths of centuries, which [time.sleep] refuses as well, are
    left to the hypotheses of the properties.) *)
Definition _sleep (who : Sleeper) (seconds : Q) : M unit :=
  fun s =>
    if Qlt_bool seconds 0 then
      (Raise (ValueError "sleep length must be non-negative"), s)
    else
      (Ok tt, mkState (clock s + seconds + drift E (ticks s))%Q
                      (S (ticks s)) (calls s) (writes s) (rl s)
                      (trace s ++ [EvSleep who seconds]) (tables s)).

Definition set_last_ts (t : Q) : M unit :=
  fun s =>
    (Ok tt, mkState (clock s) (ticks s) (calls s) (writes s)
                    (mkRateLimiter (min_interval_seconds (rl s)) t)
                    (trace s) (tables s)).

Definition get_rl : M RateLimiter := fun s => (Ok (rl s), s).

(** [RateLimiter.wait]. *)
Definition wait : M unit :=
  now <- time_time ;;
  self <- get_rl ;;
  if Qle_bool (_last_ts self) 0 then
    set_last_ts now
  else
    let elapsed := (now - _last_ts self)%Q in
    let remaining := (min_interval_seconds self - elapsed)%Q in
    (if Qlt_bool 0 remaining then _sleep ByLimiter remaining else ret tt) ;;
    now' <- time_time ;;
    set_last_ts now'.

(** The fields of [BallDontLieNFLClient] set by [__init__]; the limiter
    [_rl] lives in the state. *)
Record BallDontLieNFLClient : Type := mkClient {
  _api_key : string;
  _base_url : string;
  _timeout : Z;
  _max_retries : Z;
  _per_page : Z
}.

Variable self : BallDontLieNFLClient.

Definition _headers : list (string * string) :=
  [("Authorization", _api_key self)].

(** [self._session.request(...)]: the call is counted and logged, and
    meets what the environment holds for it. *)
Definition session_request (req : Request) : M Outcome :=
  fun s =>
    (Ok (upstream E (calls s) req),
     mkState (clock s) (ticks s) (S (calls s)) (writes s) (rl s)
             (trace s ++ [EvRequest req]) (tables s)).

(** [resp.ok] of the requests library: false on 4xx and 5xx. *)
Definition ok (resp : Response) : bool :=
  negb ((400 <=? status_code resp) && (status_code resp <? 600)).

(** [resp.json()]. *)
Definition json (resp : Response) : M Value :=
  match body resp with
  | Some v => ret v
  | None => raise JSONDecodeError
  end.

Definition backoff : Q := 0.5.

(** [float(resp.headers.get("Retry-After", backoff))]. *)
Definition retry_delay (resp : Response) : M Q :=
  match retry_after resp with
  | RA_absent => ret backoff
  | RA_seconds q => ret q
  | RA_malformed => raise (ValueError "could not convert string to float")
  end.

(** What one turn of [for attempt in range(self._max_retries + 1)] in
    [_request] does with the outcome of its call; [continue] stands for the
    remaining turns of the loop. *)
Definition on_outcome (continue : M Value) (req : Request) (attempt : Z)
           (out : Outcome) : M Value :=
  match out with
  | Fails e =>
      if attempt >=? _max_retries self then raise e
      else (_sleep ByClient backoff ;; continue)
  | Responds resp =>
      if status_code resp =? 429 then
        d <- retry_delay resp ;;
        _sleep ByClient d ;;
        continue
      else if negb (ok resp) then
        raise (BallDontLieError
                 ("HTTP " ++ str_int (status_code resp) ++ " for "
                  ++ method req ++ " " ++ url req))
      else json resp
  end.

(** The loop of [_request] from attempt number [attempt] on, with [left]
    turns to go; after the last turn comes the statement that follows the
    loop. *)
Fixpoint attempts (req : Request) (attempt : Z) (left : nat) : M Value :=
  match left with
  | O =>
      raise (BallDontLieError
               ("Request failed: " ++ method req ++ " " ++ url req))
  | S left' =>
      wait ;;
      out <- session_request req ;;
      on_outcome (attempts req (attempt + 1) left') req attempt out
  end.

Definition mk_request (method path : string) (params : Dict) : Request :=
  mkRequest method (_base_url self ++ path) _headers params (_timeout self).

(** [_request]. *)
Definition _request (method path : string) (params : Dict) : M Value :=
  attempts (mk_request method path params) 0
           (Z.to_nat (_max_retries self + 1)).

(** What [paginate] does with a page once [_request] returned it: yield
    the rows of ["data"], then read the next cursor; [None] ends the loop. *)
Definition next_cursor_of (payload : Value) : Result (option Z) :=
  rbind (py_get payload "meta" VNone) (fun m =>
  let meta := py_or m (VDict []) in
  rbind (py_get meta "next_cursor" VNone) (fun next_cursor =>
  if negb (truthy next_cursor) then Ok None
  else rbind (py_int next_cursor) (fun c => Ok (Some c)))).

Definition page_params (params : Dict) (cursor : option Z) : Dict :=
  let p := setdefault params "per_page" (VInt (_per_page self)) in
  match cursor with
  | Some c => dict_set p "cursor" (VInt c)
  | None => p
  end.

(** [paginate]: [pages] bounds the number of turns of [while True]. *)
Fixpoint paginate_from (pages : nat) (path : string) (params : Dict)
         (cursor : option Z) : Gen Value :=
  match pages with
  | O => GDiverge
  | S pages' =>
      gen_do (
        payload <- _request "GET" path (page_params params cursor) ;;
        data <- lift (py_get payload "data" (VList [])) ;;
        rows <- lift (py_iter data) ;;
        ret (gen_items rows
               match next_cursor_of payload with
               | Ok None => GDone
               | Ok (Some c) => paginate_from pages' path params (Some c)
               | Raise e => GRaise e
               | Diverge => GDiverge
               end))
  end.

Definition paginate (path : string) (params : Dict) : Gen Value :=
  paginate_from (budget E) path params None.

(** ** Endpoints *)

Definition list_teams : M Value :=
  payload <- _request "GET" "/teams" [] ;;
  lift (py_get payload "data" (VList [])).

Definition iter_players : Gen Value := paginate "/players" [].

Definition iter_teams : Gen Value := paginate "/teams" [].

Definition iter_games (seasons : list Z) (weeks : option (list Z))
  : Gen Value :=
  let params := [("seasons[]", VList (map VInt seasons))] in
  let params :=
    match weeks with
    | Some (w :: ws) => dict_set params "weeks[]" (VList (map VInt (w :: ws)))
    | _ => params
    end in
  paginate "/games" params.

Definition iter_player_season_stats (season : Z) : Gen Value :=
  paginate "/season_stats" [("season", VInt season)].

Definition iter_player_game_stats (seasons : list Z) : Gen Value :=
  paginate "/stats" [("seasons[]", VList (map VInt seasons))].

Definition iter_player_props (game_id : Z) (vendors : option (list string))
  : Gen Value :=
  let params := [("game_id", VInt game_id)] in
  let params :=
    match vendors with
    | Some (v :: vs) =>
        dict_set params "vendors[]" (VList (map VStr (v :: vs)))
    | _ => params
    end in
  paginate "/odds/player_props" params.

Definition advanced_params (season : Z) (week : option Z) (postseason : bool)
  : Dict :=
  let params := [("season", VInt season)] in
  let params :=
    if postseason then dict_set params "postseason" (VStr "true") else params in
  match week with
  | Some w => dict_set params "week" (VInt w)
  | None => params
  end.

Definition iter_advanced_receiving (season : Z) (week : option Z)
           (postseason : bool) : Gen Value :=
  paginate "/advanced_stats/receiving" (advanced_params season week postseason).

Definition iter_advanced_rushing (season : Z) (week : option Z)
           (postseason : bool) : Gen Value :=
  paginate "/advanced_stats/rushing" (advanced_params season week postseason).

Definition iter_advanced_passing (season : Z) (week : option Z)
           (postseason : bool) : Gen Value :=
  paginate "/advanced_stats/passing" (advanced_params season week postseason).

Definition iter_standings (season : Z) : Gen Value :=
  paginate "/standings" [("season", VInt season)].

End WithEnv.

End Client.

(* ================================================================== *)
(** * The store *)
(* ================================================================== *)

Module Supabase.
Import Py Runtime.

(** The columns named by an [on_conflict] argument such as
    ["player_id,season,postseason"]. *)
Fixpoint split_commas (s : string) (cur : string) : list string :=
  match s with
  | EmptyString => [cur]
  | String c s' =>
      if Ascii.eqb c "," then cur :: split_commas s' ""
      else split_commas s' (cur ++ String c EmptyString)
  end.

Definition conflict_columns (on_conflict : string) : list string :=
  split_commas on_conflict "".

Definition key_of (cols : list string) (r : Dict) : list Value :=
  map (get r) cols.

Fixpoint key_eqb (a b : list Value) : bool :=
  match a, b with
  | [], [] => true
  | x :: a', y :: b' => Value_eqb x y && key_eqb a' b'
  | _, _ => false
  end.

Definition same_key (cols : list string) (r x : Dict) : bool :=
  key_eqb (key_of cols r) (key_of cols x).

(** Modelled from the spec: one row of an upsert call.  The class
    [SupabaseClient] (src/database/supabase_client.py) is not among the
    sources; section 4.6 gives the meaning of its [upsert]: insert the row,
    or, if a row with the same conflict key exists, overwrite that row with
    the new one, all fields at once. *)
Definition upsert_row (cols : list string) (t : Table) (r : Dict) : Table :=
  if existsb (same_key cols r) t
  then map (fun x => if same_key cols r x then r else x) t
  else (t ++ [r])%list.

Definition upsert_rows (cols : list string) (t : Table) (rows : list Dict)
  : Table :=
  fold_left (upsert_row cols) rows t.

Fixpoint table_of (st : Store) (name : string) : Table :=
  match st with
  | [] => []
  | (n, t) :: st' => if String.eqb name n then t else table_of st' name
  end.

Fixpoint store_set (st : Store) (name : string) (t : Table) : Store :=
  match st with
  | [] => [(name, t)]
  | (n, t') :: st' =>
      if String.eqb name n then (n, t) :: st' else (n, t') :: store_set st' name t
  end.

Section WithEnv.
Variable E : Env.

(** Modelled from the spec: [SupabaseClient.upsert(table, rows,
    on_conflict=...)].  One call writes one batch and returns the number of
    rows written; a failed write raises and leaves the table as it was
    (section 4.6, failure semantics). *)
Definition upsert (table : string) (rows : list Dict) (on_conflict : string)
  : M Z :=
  fun s =>
    let cols := conflict_columns on_conflict in
    let tr := (trace s ++ [EvUpsert table rows cols])%list in
    match store_fault E (writes s) with
    | Some e =>
        (Raise e, mkState (clock s) (ticks s) (calls s) (S (writes s)) (rl s)
                          tr (tables s))
    | None =>
        (Ok (len rows),
         mkState (clock s) (ticks s) (calls s) (S (writes s)) (rl s) tr
                 (store_set (tables s) table
                            (upsert_rows cols (table_of (tables s) table) rows)))
    end.

End WithEnv.

End Supabase.

(* ================================================================== *)
(** * balldontlie_ingestor.py *)
(* ================================================================== *)

Module Ingestor.
Import Py Runtime Client Supabase.
Local Open Scope py_scope.

Record CoreIngestSummary : Type := mkCoreIngestSummary {
  teams_upserted : Z;
  players_upserted : Z;
  games_upserted : Z
}.

Record StatsIngestSummary : Type := mkStatsIngestSummary {
  season_stats_upserted : Z;
  game_stats_upserted : Z;
  adv_receiving_upserted : Z;
  adv_rushing_upserted : Z;
  adv_passing_upserted : Z
}.

(** [_chunked], with the buffer [buf] filled so far. *)
Fixpoint _chunked_from {A} (items : Gen A) (size : Z) (buf : list A)
  : Gen (list A) :=
  match items with
  | GDone => match buf with [] => GDone | _ => GYield buf GDone end
  | GRaise e => GRaise e
  | GDiverge => GDiverge
  | GYield it rest =>
      let buf := (buf ++ [it])%list in
      if len buf >=? size then GYield buf (_chunked_from rest size [])
      else _chunked_from rest size buf
  | GEffect k =>
      GEffect (fun s => let (g, s') := k s in (_chunked_from g size buf, s'))
  end.

Definition _chunked {A} (items : Gen A) (size : Z) : Gen (list A) :=
  _chunked_from items size [].

(** [any(mapped.get(f) is None for f in required_fields)]. *)
Definition missing_required (required_fields : list string) (mapped : Dict)
  : bool :=
  existsb (fun f => is_none (get mapped f)) required_fields.

Definition too_many_invalid (required_fields : list string) : Exc :=
  ValueError ("Too many invalid rows missing "
              ++ py_repr (VList (map VStr required_fields))).

(** [_valid_rows], with the count [invalid] reached so far; [mapper] is
    already [mapper or (lambda x: x)]. *)
Fixpoint _valid_rows_from (rows : Gen Dict) (mapper : Dict -> Dict)
         (required_fields : list string) (abort_threshold : Z) (invalid : Z)
  : Gen Dict :=
  match rows with
  | GDone => GDone
  | GRaise e => GRaise e
  | GDiverge => GDiverge
  | GYield raw rest =>
      let mapped := mapper raw in
      if missing_required required_fields mapped then
        let invalid := invalid + 1 in
        if invalid >? abort_threshold then
          GRaise (too_many_invalid required_fields)
        else
          _valid_rows_from rest mapper required_fields abort_threshold invalid
      else
        GYield mapped
          (_valid_rows_from rest mapper required_fields abort_threshold invalid)
  | GEffect k =>
      GEffect (fun s =>
        let (g, s') := k s in
        (_valid_rows_from g mapper required_fields abort_threshold invalid, s'))
  end.

Definition _valid_rows (rows : Gen Dict) (mapper : option (Dict -> Dict))
           (required_fields : list string) (abort_threshold : Z) : Gen Dict :=
  let mapper := match mapper with Some f => f | None => fun x => x end in
  _valid_rows_from rows mapper required_fields abort_threshold 0.

(** The default of the keyword [abort_threshold]. *)
Definition default_abort_threshold : Z := 25.

Definition _ensure_defaults (mapped : Dict) (season week : Z)
           (postseason : bool) : Dict :=
  let mapped :=
    if is_none (get mapped "season") then dict_set mapped "season" (VInt season)
    else mapped in
  let mapped :=
    if is_none (get mapped "week") then dict_set mapped "week" (VInt week)
    else mapped in
  if is_none (get mapped "postseason")
  then dict_set mapped "postseason" (VBool postseason)
  else mapped.

(** [{"k": d.get("k"), ...}] for the listed keys. *)
Definition fields (d : Dict) (keys : list string) : Dict :=
  map (fun k => (k, get d k)) keys.

(** [x.get(k) if isinstance(x.get(k), dict) else None]. *)
Definition sub_dict (d : Dict) (k : string) : Value :=
  if is_dict (get d k) then get d k else VNone.

(** [v.get(k) if isinstance(v, dict) else None]. *)
Definition sub_get (v : Value) (k : string) : Value :=
  match v with
  | VDict t => get t k
  | _ => VNone
  end.

(** [should_ingest_prop]. *)
Definition should_ingest_prop (prop : Value) : Result bool :=
  rbind (py_get prop "market" (VDict [])) (fun market =>
  rbind (py_get market "type" (VStr "")) (fun market_type =>
  rbind (py_get prop "prop_type" (VStr "")) (fun prop_type =>
  if eq_str market_type "over_under" then Ok true
  else if eq_str market_type "milestone" && eq_str prop_type "anytime_td"
  then Ok true
  else Ok false))).

Section WithEnv.
Variable E : Env.
Variable bdl : BallDontLieNFLClient.

Definition _now_iso : M Value :=
  t <- time_time E ;;
  ret (VStr (isoformat E t)).

Definition map_team (t : Value) : M Dict :=
  t <- lift (as_dict t) ;;
  updated_at <- _now_iso ;;
  ret (fields t ["id"; "conference"; "division"; "location"; "name";
                 "full_name"; "abbreviation"]
       ++ [("updated_at", updated_at)])%list.

Definition map_player (p : Value) : M Dict :=
  p <- lift (as_dict p) ;;
  let team := sub_dict p "team" in
  let team_id := sub_get team "id" in
  updated_at <- _now_iso ;;
  ret (fields p ["id"; "first_name"; "last_name"; "position";
                 "position_abbreviation"; "height"; "weight";
                 "jersey_number"; "college"; "experience"; "age"]
       ++ [("team_id", team_id); ("updated_at", updated_at)])%list.

Definition map_game (g : Value) : M Dict :=
  g <- lift (as_dict g) ;;
  let home := sub_dict g "home_team" in
  let visitor := sub_dict g "visitor_team" in
  updated_at <- _now_iso ;;
  ret (fields g ["id"; "season"; "week"; "date"; "postseason"; "status";
                 "venue"; "summary"]
       ++ [("home_team_id", sub_get home "id");
           ("visitor_team_id", sub_get visitor "id")]
       ++ fields g ["home_team_score"; "home_team_q1"; "home_team_q2";
                    "home_team_q3"; "home_team_q4"; "home_team_ot";
                    "visitor_team_score"; "visitor_team_q1";
                    "visitor_team_q2"; "visitor_team_q3"; "visitor_team_q4";
                    "visitor_team_ot"]
       ++ [("updated_at", updated_at)])%list.

Definition map_player_season_stats (s : Value) : M Dict :=
  s <- lift (as_dict s) ;;
  let p := sub_dict s "player" in
  let pid := sub_get p "id" in
  updated_at <- _now_iso ;;
  ret ([("player_id", pid);
        ("season", get s "season");
        ("postseason", get_default s "postseason" (VBool false))]
       ++ fields s ["games_played"; "passing_completions"; "passing_attempts";
                    "passing_yards"; "passing_touchdowns";
                    "passing_interceptions"; "qbr"; "rushing_attempts";
                    "rushing_yards"; "rushing_touchdowns"; "receptions";
                    "receiving_yards"; "receiving_touchdowns";
                    "receiving_targets"]
       ++ [("updated_at", updated_at)])%list.

Definition map_player_game_stats (s : Value) : M Dict :=
  s <- lift (as_dict s) ;;
  let p := sub_dict s "player" in
  let pid := sub_get p "id" in
  let t := sub_dict s "team" in
  let tid := sub_get t "id" in
  let g := sub_dict s "game" in
  let gid := sub_get g "id" in
  updated_at <- _now_iso ;;
  ret ([("player_id", pid);
        ("game_id", gid);
        ("season", sub_get g "season");
        ("week", sub_get g "week");
        ("team_id", tid)]
       ++ fields s ["passing_completions"; "passing_attempts";
                    "passing_yards"; "passing_touchdowns";
                    "passing_interceptions"; "qbr"; "rushing_attempts";
                    "rushing_yards"; "rushing_touchdowns"; "receptions";
                    "receiving_yards"; "receiving_touchdowns";
                    "receiving_targets"]
       ++ [("updated_at", updated_at)])%list.

Definition map_adv_receiving (s : Value) : M Dict :=
  s <- lift (as_dict s) ;;
  let p := sub_dict s "player" in
  let pid := sub_get p "id" in
  updated_at <- _now_iso ;;
  ret ([("player_id", pid);
        ("season", get s "season");
        ("week", get s "week");
        ("postseason", get_default s "postseason" (VBool false))]
       ++ fields s ["receptions"; "targets"; "yards"; "avg_yac";
                    "avg_expected_yac"; "avg_yac_above_expectation";
                    "catch_percentage"; "avg_cushion"; "avg_separation";
                    "percent_share_of_intended_air_yards"]
       ++ [("updated_at", updated_at)])%list.

Definition map_adv_rushing (s : Value) : M Dict :=
  s <- lift (as_dict s) ;;
  let p := sub_dict s "player" in
  let pid := sub_get p "id" in
  updated_at <- _now_iso ;;
  ret ([("player_id", pid);
        ("season", get s "season");
        ("week", get s "week");
        ("postseason", get_default s "postseason" (VBool false))]
       ++ fields s ["rush_attempts"; "rush_yards"; "efficiency";
                    "avg_rush_yards"; "expected_rush_yards";
                    "rush_yards_over_expected";
                    "rush_yards_over_expected_per_att"; "rush_touchdowns";
                    "avg_time_to_los"; "rush_pct_over_expected";
                    "percent_attempts_gte_eight_defenders"]
       ++ [("updated_at", updated_at)])%list.

Definition map_adv_passing (s : Value) : M Dict :=
  s <- lift (as_dict s) ;;
  let p := sub_dict s "player" in
  let pid := sub_get p "id" in
  updated_at <- _now_iso ;;
  ret ([("player_id", pid);
        ("season", get s "season");
        ("week", get s "week");
        ("postseason", get_default s "postseason" (VBool false))]
       ++ fields s ["attempts"; "completions"; "pass_yards";
                    "pass_touchdowns"; "interceptions"; "passer_rating";
                    "completion_percentage_above_expectation";
                    "avg_time_to_throw"; "avg_intended_air_yards";
                    "avg_completed_air_yards"; "aggressiveness";
                    "expected_completion_percentage"; "avg_air_distance";
                    "avg_air_yards_differential"; "avg_air_yards_to_sticks"]
       ++ [("updated_at", updated_at)])%list.

(** [acc += supabase.upsert(table, chunk, on_conflict=...)]. *)
Definition add_upsert (table on_conflict : string) (chunk : list Dict)
           (acc : Z) : M Z :=
  n <- upsert E table chunk on_conflict ;;
  ret (acc + n).

(** [ingest_core]; the progress lines of [logger.info] are left out. *)
Definition ingest_core (seasons : list Z) (batch_size : Z)
           (game_weeks : option (list Z)) : M CoreIngestSummary :=
  teams_raw <- list_teams E bdl ;;
  teams_raw <- lift (py_iter teams_raw) ;;
  teams_rows <- map_list map_team teams_raw ;;
  teams_upserted <-
    match teams_rows with
    | [] => ret 0
    | _ => upsert E "nfl_teams" teams_rows "id"
    end ;;
  players_upserted <-
    for_each (_chunked (gen_map map_player (iter_players E bdl)) batch_size)
             (add_upsert "nfl_players" "id") 0 ;;
  games_upserted <-
    for_each (_chunked (gen_map map_game (iter_games E bdl seasons game_weeks))
                       batch_size)
             (add_upsert "nfl_games" "id") 0 ;;
  ret (mkCoreIngestSummary teams_upserted players_upserted games_upserted).

(** The statements of [ingest_stats_and_advanced] under [# Season stats]. *)
Definition season_stats_section (seasons : list Z) (batch_size : Z) : M Z :=
  for_each (gen_of_list seasons)
    (fun season season_stats_upserted =>
       for_each
         (_chunked (gen_map map_player_season_stats
                            (iter_player_season_stats E bdl season))
                   batch_size)
         (add_upsert "nfl_player_season_stats" "player_id,season,postseason")
         season_stats_upserted)
    0.

(** The statements under [# Per-game player stats]. *)
Definition game_stats_section (seasons : list Z) (batch_size : Z)
           (invalid_abort_threshold : Z) : M Z :=
  for_each
    (_chunked
       (_valid_rows (gen_map map_player_game_stats
                             (iter_player_game_stats E bdl seasons))
                    None ["player_id"; "game_id"] invalid_abort_threshold)
       batch_size)
    (add_upsert "nfl_player_game_stats" "player_id,game_id")
    0.

(** One [try: for chunk in _chunked(_valid_rows(...)): ... except
    BallDontLieError] block of the advanced statistics, which the source
    repeats for receiving, rushing and passing, in and out of the
    postseason. *)
Definition advanced_block (label table : string) (records : Gen Value)
           (mapper : Value -> M Dict) (season week : Z) (postseason : bool)
           (batch_size invalid_abort_threshold : Z) (acc : Z) : M Z :=
  block_result
    (try_block
       (run_loop
          (_chunked
             (_valid_rows (gen_map mapper records)
                (Some (fun m => _ensure_defaults m season week postseason))
                ["player_id"; "season"; "week"; "postseason"]
                invalid_abort_threshold)
             batch_size)
          (add_upsert table "player_id,season,week,postseason")
          acc)
       (fun e =>
          match e with
          | BallDontLieError _ =>
              Some (warning label [VInt season; VInt week] e)
          | _ => None
          end)).

(** The format string of the warning of a block. *)
Definition skipping (what : string) (postseason : bool) : string :=
  "Skipping advanced " ++ what
  ++ (if postseason then " postseason" else "")
  ++ " season=%s week=%s due to BDL error: %s".

Definition advanced_week (season week : Z) (postseason : bool)
           (batch_size invalid_abort_threshold : Z) (acc : Z * Z * Z)
  : M (Z * Z * Z) :=
  let '(rec, rush, pass) := acc in
  rec <- advanced_block (skipping "receiving" postseason)
           "nfl_advanced_receiving_stats"
           (iter_advanced_receiving E bdl season (Some week) postseason)
           map_adv_receiving season week postseason
           batch_size invalid_abort_threshold rec ;;
  rush <- advanced_block (skipping "rushing" postseason)
            "nfl_advanced_rushing_stats"
            (iter_advanced_rushing E bdl season (Some week) postseason)
            map_adv_rushing season week postseason
            batch_size invalid_abort_threshold rush ;;
  pass <- advanced_block (skipping "passing" postseason)
            "nfl_advanced_passing_stats"
            (iter_advanced_passing E bdl season (Some week) postseason)
            map_adv_passing season week postseason
            batch_size invalid_abort_threshold pass ;;
  ret (rec, rush, pass).

(** The statements under [# Advanced stats]. *)
Definition advanced_section (seasons : list Z) (batch_size : Z)
           (advanced_weeks : option (list Z))
           (advanced_include_postseason : bool)
           (invalid_abort_threshold : Z) : M (Z * Z * Z) :=
  let weeks := match advanced_weeks with Some ws => ws | None => [0] end in
  for_each (gen_of_list seasons)
    (fun season acc =>
       acc <- for_each (gen_of_list weeks)
                (fun week acc =>
                   advanced_week season week false
                                 batch_size invalid_abort_threshold acc)
                acc ;;
       if advanced_include_postseason then
         advanced_week season 0 true batch_size invalid_abort_threshold acc
       else ret acc)
    (0, 0, 0).

(** [ingest_stats_and_advanced]. *)
Definition ingest_stats_and_advanced (seasons : list Z) (batch_size : Z)
           (include_season_stats include_game_stats include_advanced : bool)
           (advanced_weeks : option (list Z))
           (advanced_include_postseason : bool)
           (invalid_abort_threshold : Z) : M StatsIngestSummary :=
  season_stats <-
    (if include_season_stats then season_stats_section seasons batch_size
     else ret 0) ;;
  game_stats <-
    (if include_game_stats
     then game_stats_section seasons batch_size invalid_abort_threshold
     else ret 0) ;;
  adv <-
    (if include_advanced
     then advanced_section seasons batch_size advanced_weeks
                           advanced_include_postseason invalid_abort_threshold
     else ret (0, 0, 0)) ;;
  let '(rec, rush, pass) := adv in
  ret (mkStatsIngestSummary season_stats game_stats rec rush pass).

(** [map_player_prop], as the module leaves it bound: the second of its
    two definitions in the file. *)
Definition map_player_prop (p : Value) : M Dict :=
  p <- lift (as_dict p) ;;
  market <- lift (py_get (VDict p) "market" (VDict [])) ;;
  market_type <- lift (py_get market "type" (VStr "")) ;;
  market <- lift (as_dict market) ;;
  updated_at <- _now_iso ;;
  ret (fields p ["id"; "game_id"; "player_id"; "vendor"; "prop_type"]
       ++ [("market_type", market_type);
           ("line_value", get p "line_value");
           ("over_odds",
            if eq_str market_type "over_under" then get market "over_odds"
            else VNone);
           ("under_odds",
            if eq_str market_type "over_under" then get market "under_odds"
            else VNone);
           ("milestone_odds",
            if eq_str market_type "milestone" then get market "odds"
            else VNone);
           ("updated_at", updated_at)])%list.

(** [valid = [r for r in chunk if r.get("player_id") and r.get("game_id")]]
    and the upsert of a non-empty [valid]. *)
Definition upsert_valid_props (chunk : list Dict) (props_upserted : Z) : M Z :=
  let valid :=
    filter (fun r => truthy (get r "player_id") && truthy (get r "game_id"))
           chunk in
  match valid with
  | [] => ret props_upserted
  | _ => add_upsert "nfl_player_props" "id" valid props_upserted
  end.

(** The body of [try] in [ingest_player_props_filtered], for one game.
    The counter [filtered_out] only feeds the closing log line and is left
    out. *)
Definition props_of_game (game_id : Z) (vendors : option (list string))
           (batch_size : Z) (props_upserted : Z) : Block Z :=
  fun s =>
    match (raw_props <- to_list (iter_player_props E bdl game_id vendors) ;;
           filtered <- lift (filter_list should_ingest_prop raw_props) ;;
           map_list map_player_prop filtered) s with
    | (Ok mapped, s1) =>
        run_loop (_chunked (gen_of_list mapped) batch_size)
                 upsert_valid_props props_upserted s1
    | (Raise e, s1) => ((props_upserted, Raise e), s1)
    | (Diverge, s1) => ((props_upserted, Diverge), s1)
    end.

(** [ingest_player_props_filtered]. *)
Definition ingest_player_props_filtered (game_ids : list Z)
           (vendors : option (list string)) (batch_size : Z) : M Z :=
  for_each (gen_of_list game_ids)
    (fun game_id props_upserted =>
       block_result
         (try_block
            (props_of_game game_id vendors batch_size props_upserted)
            (fun e =>
               match e with
               | BallDontLieError _ =>
                   Some (warning "Skipping props for game_id=%s: %s"
                                 [VInt game_id] e)
               | _ => None
               end)))
    0.

(** ** Standings *)

(** [map_standing], as the module leaves it bound: the second of its two
    definitions in the file. *)
Definition map_standing (s : Value) : M Dict :=
  s <- lift (as_dict s) ;;
  let team := sub_dict s "team" in
  updated_at <- _now_iso ;;
  ret ([("team_id", sub_get team "id")]
       ++ fields s ["season"; "wins"; "losses"; "ties"; "points_for";
                    "points_against"; "point_differential"; "playoff_seed";
                    "overall_record"; "conference_record"; "division_record";
                    "home_record"; "road_record"; "win_streak"]
       ++ [("updated_at", updated_at)])%list.

(** [valid = [r for r in chunk if r.get("team_id")]] and the upsert of a
    non-empty [valid]. *)
Definition upsert_valid_standings (chunk : list Dict) (standings_upserted : Z)
  : M Z :=
  let valid := filter (fun r => truthy (get r "team_id")) chunk in
  match valid with
  | [] => ret standings_upserted
  | _ => add_upsert "nfl_team_standings" "team_id,season" valid
                    standings_upserted
  end.

(** [ingest_standings], the second of its two definitions in the file. *)
Definition ingest_standings (seasons : list Z) (batch_size : Z) : M Z :=
  for_each (gen_of_list seasons)
    (fun season standings_upserted =>
       for_each
         (_chunked (gen_map map_standing (iter_standings E bdl season))
                   batch_size)
         upsert_valid_standings
         standings_upserted)
    0.

End WithEnv.

(** ** Rosters *)

Definition _ST_POSITIONS : list string := ["KR"; "PR"; "LS"; "P"; "PK"; "H"].

(** [position not in _ST_POSITIONS]. *)
Definition not_in_ST_POSITIONS (position : Value) : Result bool :=
  match position with
  | VStr p => Ok (negb (existsb (String.eqb p) _ST_POSITIONS))
  | VList _ | VDict _ => Raise (TypeError "unhashable type")
  | _ => Ok true
  end.

(** One turn of the loop of [ingest_rosters] under [# Deduplicate]; the
    rows are those that [map_roster_entry] built, which carry the three
    key fields. *)
Definition roster_step (seen_keys : list (list Value * Dict)) (row : Dict)
  : Result (list (list Value * Dict)) :=
  rbind (tuple_key [get row "team_id"; get row "player_id"; get row "season"])
        (fun key =>
  match tdict_find seen_keys key with
  | None => Ok (tdict_set seen_keys key row)
  | Some _ =>
      rbind (not_in_ST_POSITIONS (get row "position")) (fun preferred =>
      if preferred then Ok (tdict_set seen_keys key row) else Ok seen_keys)
  end).

Fixpoint roster_loop (roster_rows : list Dict)
         (seen_keys : list (list Value * Dict))
  : Result (list (list Value * Dict)) :=
  match roster_rows with
  | [] => Ok seen_keys
  | row :: rest =>
      rbind (roster_step seen_keys row) (fun seen_keys =>
      roster_loop rest seen_keys)
  end.

(** The statements of [ingest_rosters] under [# Deduplicate]:
    [dedupe_rows] for the [roster_rows] of a season. *)
Definition dedupe_rows (roster_rows : list Dict) : Result (list Dict) :=
  rbind (roster_loop roster_rows []) (fun seen_keys =>
  Ok (map snd seen_keys)).

End Ingestor.

(* ================================================================== *)
(** * ingest_betting_and_extras.py *)
(* ================================================================== *)

Module Extras.
Import Py Runtime Client.
Local Open Scope py_scope.

Definition VENDOR_PRIORITY : list (string * Z) :=
  [("draftkings", 1); ("fanduel", 2); ("betmgm", 3); ("bet365", 4);
   ("betway", 5)].

Definition PROP_MAP : list (string * string) :=
  [("passing_yards", "player_pass_yds");
   ("rushing_yards", "player_rush_yds");
   ("receiving_yards", "player_rec_yds");
   ("passing_tds", "player_pass_tds");
   ("passing_attempts", "player_pass_att");
   ("rushing_attempts", "player_rush_att");
   ("rushing_receiving_yards", "player_rush_rec_yds");
   ("longest_rush", "player_longest_rush");
   ("longest_reception", "player_longest_rec")].

(** [(row.get("vendor") or row.get("bookmaker") or "").lower()]. *)
Definition vendor_of (row : Dict) : Result string :=
  py_lower (py_or (get row "vendor") (py_or (get row "bookmaker") (VStr ""))).

(** [is_valid_prop]. *)
Definition is_valid_prop (row : Dict) : Result bool :=
  rbind (vendor_of row) (fun vendor =>
  match assoc_find VENDOR_PRIORITY vendor with
  | None => Ok false
  | Some _ =>
      let market := py_or (get row "market") (VDict []) in
      rbind (py_get market "type" VNone) (fun m_type =>
      if eq_str m_type "over_under" then Ok true else Ok false)
  end).

(** [PROP_MAP.get(raw_type)]: a key that is not text is not in the table,
    and a list or a dict cannot be hashed. *)
Definition prop_map_get (raw_type : Value) : Result (option string) :=
  match raw_type with
  | VStr s => Ok (assoc_find PROP_MAP s)
  | VList _ | VDict _ => Raise (TypeError "unhashable type")
  | _ => Ok None
  end.

(** The dict that [map_player_prop] returns. *)
Definition prop_row (row : Dict) (vendor db_prop_type : string)
           (market : Dict) (updated_at : Value) : Dict :=
  [("id", get row "id");
   ("game_id", get row "game_id");
   ("player_id", get row "player_id");
   ("vendor", VStr vendor);
   ("prop_type", VStr db_prop_type);
   ("market_type", get market "type");
   ("line_value", get row "line_value");
   ("over_odds", get market "over_odds");
   ("under_odds", get market "under_odds");
   ("updated_at", updated_at)].

(** [VENDOR_PRIORITY.get(vendor, 99)], for the text that a mapped row
    carries as its vendor. *)
Definition priority_of (vendor : Value) : Z :=
  match vendor with
  | VStr v =>
      match assoc_find VENDOR_PRIORITY v with
      | Some p => p
      | None => 99
      end
  | _ => 99
  end.

(** The key [f"{player_id}|{prop_type}"] of a mapped row. *)
Definition best_key (mapped : Dict) : string :=
  py_str (get mapped "player_id") ++ "|" ++ py_str (get mapped "prop_type").

Section WithEnv.
Variable E : Env.

(** [datetime.now(timezone.utc).isoformat()]. *)
Definition now_iso : M Value :=
  t <- time_time E ;;
  ret (VStr (isoformat E t)).

(** [map_player_prop]: [None] for a prop type outside [PROP_MAP] and for a
    missing player. *)
Definition map_player_prop (row : Dict) : M (option Dict) :=
  db_prop_type <- lift (prop_map_get (get row "prop_type")) ;;
  match db_prop_type with
  | None => ret None
  | Some db_prop_type =>
      if negb (truthy (get row "player_id")) then ret None
      else
        let market := py_or (get row "market") (VDict []) in
        vendor <- lift (vendor_of row) ;;
        market <- lift (as_dict market) ;;
        updated_at <-
          (if truthy (get row "updated_at") then ret (get row "updated_at")
           else now_iso) ;;
        ret (Some (prop_row row vendor db_prop_type market updated_at))
  end.

(** One turn of the loop of [_get_best_props] over [best_map]. *)
Definition best_step (best_map : list (string * Dict)) (row : Dict)
  : M (list (string * Dict)) :=
  valid <- lift (is_valid_prop row) ;;
  if negb valid then ret best_map
  else
    mapped <- map_player_prop row ;;
    match mapped with
    | None => ret best_map
    | Some mapped =>
        let vendor := get mapped "vendor" in
        let key := best_key mapped in
        let current_priority := priority_of vendor in
        match assoc_find best_map key with
        | None => ret (assoc_set best_map key mapped)
        | Some existing =>
            let existing_vendor := get existing "vendor" in
            let existing_priority := priority_of existing_vendor in
            if current_priority <? existing_priority
            then ret (assoc_set best_map key mapped)
            else ret best_map
        end
    end.

Fixpoint best_loop (props_list : list Dict) (best_map : list (string * Dict))
  : M (list (string * Dict)) :=
  match props_list with
  | [] => ret best_map
  | row :: rest =>
      best_map <- best_step best_map row ;;
      best_loop rest best_map
  end.

(** [_get_best_props]. *)
Definition _get_best_props (props_list : list Dict) : M (list Dict) :=
  best_map <- best_loop props_list [] ;;
  ret (map snd best_map).

End WithEnv.

(** [_dedupe]: the loop over [rows], with the dict [seen] built so far. *)
Fixpoint _dedupe_loop (rows : list Dict) (keys : list string)
         (seen : list (list Value * Dict))
  : Result (list (list Value * Dict)) :=
  match rows with
  | [] => Ok seen
  | r :: rest =>
      rbind (tuple_key (map (get r) keys)) (fun k =>
      _dedupe_loop rest keys (tdict_set seen k r))
  end.

Definition _dedupe (rows : list Dict) (keys : list string)
  : Result (list Dict) :=
  rbind (_dedupe_loop rows keys []) (fun seen => Ok (map snd seen)).

Section PlayerProps.
Variable E : Env.
Variable bdl : BallDontLieNFLClient.

(** The loop of [_get_best_props] over the records as the API sent them:
    a record that is not an object fails at its first [.get]. *)
Fixpoint best_loop_raw (props_list : list Value)
         (best_map : list (string * Dict)) : M (list (string * Dict)) :=
  match props_list with
  | [] => ret best_map
  | v :: rest =>
      row <- lift (as_dict v) ;;
      best_map <- best_step E best_map row ;;
      best_loop_raw rest best_map
  end.

(** [list(VENDOR_PRIORITY.keys())]. *)
Definition api_vendors : list string := map fst VENDOR_PRIORITY.

(** The body of [try] in the loop of [ingest_extras] under
    [# Player Props], for one game. *)
Definition best_props_of_game (gid : Z) (props_upserted : Z) : Block Z :=
  fun s =>
    match (raw_props <-
             to_list (iter_player_props E bdl gid (Some api_vendors)) ;;
           best_map <- best_loop_raw raw_props [] ;;
           let best_props := map snd best_map in
           match best_props with
           | [] => ret props_upserted
           | _ =>
               Supabase.upsert E "nfl_player_props" best_props "id" ;;
               ret (props_upserted + len best_props)
           end) s with
    | (Ok n, s1) => ((n, Ok tt), s1)
    | (Raise e, s1) => ((props_upserted, Raise e), s1)
    | (Diverge, s1) => ((props_upserted, Diverge), s1)
    end.

(** The loop over [game_ids] under [# Player Props]: [except Exception]
    takes every exception of a game; its [logger.error] line is traced like
    a warning. *)
Definition props_loop (game_ids : list Z) (props_upserted : Z) : M Z :=
  for_each (gen_of_list game_ids)
    (fun gid props_upserted =>
       block_result
         (try_block (best_props_of_game gid props_upserted)
            (fun e => Some (warning "Props error game %s: %s" [VInt gid] e))))
    props_upserted.

End PlayerProps.

End Extras.

(* ================================================================== *)
(** * Vocabulary of the properties *)
(* ================================================================== *)

Module Spec.
Import Py Runtime Client Supabase.

(** What a consumer receives from a generator before it stops, and the
    node at which it stops. *)
Fixpoint yielded {A} (g : Gen A) : list A :=
  match g with
  | GYield a rest => a :: yielded rest
  | _ => []
  end.

Fixpoint stops_with {A} (g : Gen A) : Gen A :=
  match g with
  | GYield _ rest => stops_with rest
  | other => other
  end.

(** The mapper that [_valid_rows] applies. *)
Definition mapper_or_id (mapper : option (Dict -> Dict)) : Dict -> Dict :=
  match mapper with
  | Some f => f
  | None => fun x => x
  end.

(** A raw row counts as invalid when its mapped form misses a required
    field. *)
Definition invalid_row (required_fields : list string)
           (mapper : option (Dict -> Dict)) (raw : Dict) : bool :=
  Ingestor.missing_required required_fields (mapper_or_id mapper raw).

Definition invalid_count (required_fields : list string)
           (mapper : option (Dict -> Dict)) (rows : list Dict) : Z :=
  len (filter (invalid_row required_fields mapper) rows).

(** The mapped forms of the valid rows, in input order. *)
Definition valid_mapped (required_fields : list string)
           (mapper : option (Dict -> Dict)) (rows : list Dict) : list Dict :=
  map (mapper_or_id mapper)
      (filter (fun r => negb (invalid_row required_fields mapper r)) rows).

(** The trace without the sleeps of the rate limiter. *)
Definition visible (tr : list Event) : list Event :=
  filter (fun ev => match ev with EvSleep ByLimiter _ => false | _ => true end)
         tr.

(** The requests sent and the lengths of the client's own sleeps (backoff
    and Retry-After), in order. *)
Definition requests_of (tr : list Event) : list Request :=
  flat_map (fun ev => match ev with EvRequest r => [r] | _ => [] end) tr.

Definition client_sleeps (tr : list Event) : list Q :=
  flat_map (fun ev => match ev with EvSleep ByClient q => [q] | _ => [] end)
           tr.

Definition limiter_sleeps (tr : list Event) : list Q :=
  flat_map (fun ev => match ev with EvSleep ByLimiter q => [q] | _ => [] end)
           tr.

(** The states after each of [k] consecutive calls of [RateLimiter.wait],
    with the result of each call. *)
Fixpoint wait_run (E : Env) (k : nat) (s : State)
  : list (Result unit * State) :=
  match k with
  | O => []
  | S k' => let (r, s') := wait E s in (r, s') :: wait_run E k' s'
  end.

(** A chain of calls of [wait], each returning, each recording the clock,
    each at least [t] after the timestamp [prev] of the one before. *)
Fixpoint spaced (t prev : Q) (run : list (Result unit * State)) : Prop :=
  match run with
  | [] => True
  | (r, s1) :: rest =>
      r = Ok tt /\ _last_ts (rl s1) = clock s1 /\
      (prev + t <= _last_ts (rl s1))%Q /\
      spaced t (_last_ts (rl s1)) rest
  end.

(** The trace of retried attempts: each request followed by the client's
    sleep of the given length. *)
Definition retry_events (req : Request) (delays : list Q) : list Event :=
  flat_map (fun d => [EvRequest req; EvSleep ByClient d]) delays.

(** The delay that a 429 response advertises: its [Retry-After], or the
    fixed backoff when the header is absent. *)
Definition advertised_delay (r : Response) (d : Q) : Prop :=
  retry_after r = RA_seconds d \/ (retry_after r = RA_absent /\ d = backoff).

(** [quiet s s']: from [s] to [s'] no request was sent, nothing was
    written, and nothing but the limiter's sleeps was traced. *)
Definition quiet (s s' : State) : Prop :=
  calls s' = calls s /\ writes s' = writes s /\ tables s' = tables s /\
  min_interval_seconds (rl s') = min_interval_seconds (rl s) /\
  visible (trace s') = visible (trace s).

(** [stepped s s' evs]: from [s] to [s'] the client traced [evs], sent the
    requests among them, and left the store alone. *)
Definition stepped (s s' : State) (evs : list Event) : Prop :=
  calls s' = (calls s + List.length (requests_of evs))%nat /\
  writes s' = writes s /\ tables s' = tables s /\
  min_interval_seconds (rl s') = min_interval_seconds (rl s) /\
  visible (trace s') = (visible (trace s) ++ evs)%list.

(** An outcome after which the loop of [_request] takes another turn, and
    the sleep that comes first: a transport failure before the last attempt
    (fixed backoff), or a 429 (advertised delay). *)
Definition retryable (max_retries attempt : Z) (out : Outcome) (d : Q)
  : Prop :=
  match out with
  | Fails _ => attempt < max_retries /\ d = backoff
  | Responds r => status_code r = 429 /\ advertised_delay r d /\ (0 <= d)%Q
  end.







(** The rows handed to [supabase.upsert] for [table], in order. *)
Definition upserted (table : string) (tr : list Event) : list Dict :=
  flat_map (fun ev =>
              match ev with
              | EvUpsert t rows _ => if String.eqb t table then rows else []
              | _ => []
              end) tr.

(** The warnings logged, in order. *)
Definition warnings (tr : list Event) : list (list Value * Exc) :=
  flat_map (fun ev =>
              match ev with
              | EvWarning _ args e => [(args, e)]
              | _ => []
              end) tr.

(** The game ids for which props were requested, in order, one per
    request. *)
Definition games_requested (tr : list Event) : list Value :=
  map (fun r => get (params r) "game_id") (requests_of tr).

(** [candidate E row m]: the deduplicator takes the raw [row] into
    account, in the mapped form [m]: [is_valid_prop] accepts the row and
    [map_player_prop] returns [m] for it. *)
Definition candidate (E : Env) (row m : Dict) : Prop :=
  Extras.is_valid_prop row = Ok true /\
  exists s s', Extras.map_player_prop E row s = (Ok (Some m), s').

(** The priority under which a mapped row competes. *)
Definition priority (m : Dict) : Z := Extras.priority_of (get m "vendor").

(** [best_of E seen m]: [m] is the mapped form of a row of [seen] that no
    candidate of the same key beats, and that every earlier candidate of
    the same key loses to. *)
Definition best_of (E : Env) (seen : list Dict) (m : Dict) : Prop :=
  exists pre r post,
    seen = (pre ++ r :: post)%list /\
    candidate E r m /\
    (forall r' m', In r' seen -> candidate E r' m' ->
                   Extras.best_key m' = Extras.best_key m ->
                   priority m <= priority m') /\
    (forall r' m', In r' pre -> candidate E r' m' ->
                   Extras.best_key m' = Extras.best_key m ->
                   priority m < priority m').

(** The state of the loop of [_get_best_props] after the rows [seen]. *)
Definition best_inv (E : Env) (seen : list Dict)
           (best_map : list (string * Dict)) : Prop :=
  NoDup (map fst best_map) /\
  (forall k m, In (k, m) best_map ->
               k = Extras.best_key m /\ best_of E seen m) /\
  (forall r m', In r seen -> candidate E r m' ->
                exists m, In (Extras.best_key m', m) best_map).

(** A row on which no step of the deduplicator raises: its vendor is text
    or missing, its market an object or missing, its prop type not a list
    or an object. *)
Definition well_shaped (row : Dict) : Prop :=
  (exists v, Extras.vendor_of row = Ok v) /\
  (exists d, as_dict (py_or (get row "market") (VDict [])) = Ok d) /\
  (exists o, Extras.prop_map_get (get row "prop_type") = Ok o).

(** The rank of the vendor of a raw row in [VENDOR_PRIORITY], if any. *)
Definition raw_priority (row : Dict) : option Z :=
  match Extras.vendor_of row with
  | Ok v => assoc_find Extras.VENDOR_PRIORITY v
  | _ => None
  end.

(** The reading of the claim on the deduplicator that the code does not
    meet: for every input row of a ranked vendor, the output holds a row of
    the same player and prop type whose vendor ranks at least as well. *)
Definition keeps_lowest_ranked (props out : list Dict) : Prop :=
  forall r p t,
    In r props -> raw_priority r = Some p ->
    Extras.prop_map_get (get r "prop_type") = Ok (Some t) ->
    exists m, In m out /\
              get m "player_id" = get r "player_id" /\
              get m "prop_type" = VStr t /\
              priority m <= p.

Fixpoint has_bar (s : string) : bool :=
  match s with
  | EmptyString => false
  | String c s' => Ascii.eqb c "|" || has_bar s'
  end.

(** ** Re-running the ingestion *)

(** A row without its audit timestamp, and a store of such rows. *)
Definition strip_ts (r : Dict) : Dict :=
  filter (fun kv => negb (String.eqb (fst kv) "updated_at")) r.

Definition strip_table (t : Table) : Table := map strip_ts t.

Definition strip_store (st : Store) : Store :=
  map (fun nt => (fst nt, strip_table (snd nt))) st.

(** The upstream fixture does not change: a request meets the same outcome
    whenever it is sent. *)
Definition stationary (E : Env) : Prop :=
  forall n m req, upstream E n req = upstream E m req.

(** What one upsert call does to the store, and what the calls of one
    dataset do together ([rows] is all the rows of the dataset; none of
    them, no call). *)
Definition apply_batch (cols : list string) (name : string)
           (rows : list Dict) (st : Store) : Store :=
  store_set st name (upsert_rows cols (table_of st name) rows).

Definition batch (cols : list string) (name : string) (rows : list Dict)
           (st : Store) : Store :=
  match rows with
  | [] => st
  | _ => apply_batch cols name rows st
  end.

(** The row that ends up stored in place of [x] once the rows [rs] have
    been upserted over it. *)
Definition override (cols : list string) (rs : list Dict) (x : Dict) : Dict :=
  fold_left (fun acc r => if same_key cols r acc then r else acc) rs x.

(** How a generator ends. *)
Inductive Ending : Type :=
| EDone
| ERaise (e : Exc)
| EDiverge.

(** [produces view g bs o]: whatever the state of the process when the
    consumer pulls, [g] yields items that [view] shows as [bs], then ends as
    [o], and it leaves the store alone. *)
Inductive produces {A B : Type} (view : A -> B)
  : Gen A -> list B -> Ending -> Prop :=
| produces_done : produces view GDone [] EDone
| produces_raise e : produces view (GRaise e) [] (ERaise e)
| produces_diverge : produces view GDiverge [] EDiverge
| produces_yield a rest bs o :
    produces view rest bs o ->
    produces view (GYield a rest) (view a :: bs) o
| produces_effect k bs o :
    (forall s, produces view (fst (k s)) bs o) ->
    (forall s, tables (snd (k s)) = tables s) ->
    produces view (GEffect k) bs o.

(** A result up to the audit timestamp of the row it carries. *)
Definition strip_result (r : Result Dict) : Result Dict :=
  match r with
  | Ok row => Ok (strip_ts row)
  | Raise e => Raise e
  | Diverge => Diverge
  end.

(** A mapper whose outcome depends on the state of the process through
    the audit timestamp only, and which leaves the store alone. *)
Definition stable (f : Value -> M Dict) : Prop :=
  forall v s1 s2,
    strip_result (fst (f v s1)) = strip_result (fst (f v s2)) /\
    tables (snd (f v s1)) = tables s1.

(** The rows, without timestamps, that mapping the values [vals] gives,
    and how the mapped generator ends when the values end as [o]. *)
Fixpoint mapped_view (f0 : Value -> Result Dict) (vals : list Value)
         (o : Ending) : list Dict * Ending :=
  match vals with
  | [] => ([], o)
  | v :: vals' =>
      match f0 v with
      | Ok d => let (ds, o') := mapped_view f0 vals' o in (d :: ds, o')
      | Raise e => ([], ERaise e)
      | Diverge => ([], EDiverge)
      end
  end.

Definition strip_results (r : Result (list Dict)) : Result (list Dict) :=
  match r with
  | Ok rows => Ok (map strip_ts rows)
  | Raise e => Raise e
  | Diverge => Diverge
  end.

(** An error of the client's own class. *)
Definition classified (e : Exc) : bool :=
  match e with
  | BallDontLieError _ => true
  | _ => false
  end.

(** A process that just started: the clock at [t0], a limiter that has
    not been used, an empty store. *)
Definition fresh_state (t0 min_interval : Q) : State :=
  mkState t0 0 0 0 (mkRateLimiter min_interval 0) [] [].

(** A stand-in for [datetime.isoformat]: the whole seconds, in digits. *)
Definition seconds_text (q : Q) : string :=
  str_int (Qnum q / Zpos (Qden q)).

(** An environment in which no time is lost, every request is answered by
    [answer] and every store write succeeds. *)
Definition steady_env (answer : Request -> Outcome) : Env :=
  mkEnv (fun _ => 0%Q) (fun _ => answer) seconds_text (fun _ => None) 8.

(** The same with a transport that always times out. *)
Definition offline_env : Env :=
  steady_env (fun _ => Fails (TransportError "ReadTimeout")).

(** The same with an upstream that answers every request with a 429 and
    [Retry-After: 1]. *)
Definition throttled_env : Env :=
  steady_env (fun _ => Responds (mkResponse 429 (RA_seconds 1) None)).


(** The scenario of two pages of games: 2 records and the cursor "7",
    then, asked with [cursor=7], 1 record and no cursor. *)
Definition games_page1 : Dict :=
  [("data", VList [VDict [("id", VInt 101)]; VDict [("id", VInt 102)]]);
   ("meta", VDict [("next_cursor", VStr "7"); ("per_page", VInt 100)])].



(** A page of one over/under prop for the game asked for. *)
Definition prop_record (game_id : Value) : Value :=
  VDict [("id", VInt 9001); ("game_id", game_id); ("player_id", VInt 55);
         ("vendor", VStr "draftkings"); ("prop_type", VStr "passing_yards");
         ("line_value", VStr "249.5");
         ("market", VDict [("type", VStr "over_under");
                           ("over_odds", VInt (-110));
                           ("under_odds", VInt (-110))])].

Definition props_answer (req : Request) : Outcome :=
  Responds (mkResponse 200 RA_absent
              (Some (VDict [("data",
                             VList [prop_record (get (params req) "game_id")])]))).

(** Props are served for every game, and the first write to the store
    fails. *)
Definition failing_store_env : Env :=
  mkEnv (fun _ => 0%Q) (fun _ => props_answer) seconds_text
        (fun n => match n with
                  | O => Some (StoreError "upsert failed")
                  | _ => None
                  end) 8.

(** Props are served for every game but game 1, whose requests all fail
    in the transport ([broken]) or are answered with a 500 ([refused]). *)
Definition game1_env (game1 : Outcome) : Env :=
  steady_env (fun req =>
    if Value_eqb (get (params req) "game_id") (VInt 1) then game1
    else props_answer req).

Definition broken : Outcome := Fails (TransportError "ConnectionError").
Definition refused : Outcome := Responds (mkResponse 500 RA_absent None).

(** A season-stats record and a game-stats record that come without their
    player. *)
Definition season_stat_without_player : Value :=
  VDict [("player", VNone); ("season", VInt 2024); ("postseason", VBool false);
         ("games_played", VInt 3)].

Definition game_stat_without_player : Value :=
  VDict [("player", VNone); ("game", VDict [("id", VInt 7)]);
         ("passing_yards", VInt 250)].

Definition stats_env : Env :=
  steady_env (fun req =>
    let page rows :=
      Responds (mkResponse 200 RA_absent (Some (VDict [("data", VList rows)]))) in
    if String.eqb (url req) "https://api.balldontlie.io/nfl/v1/season_stats"
    then page [season_stat_without_player]
    else if String.eqb (url req) "https://api.balldontlie.io/nfl/v1/stats"
    then page [game_stat_without_player]
    else page []).

(** A fixture of one team, one player and one game, on a clock that moves
    by a second at every clock event. *)
Definition core_answer (req : Request) : Outcome :=
  let page rows :=
    Responds (mkResponse 200 RA_absent (Some (VDict [("data", VList rows)]))) in
  if String.eqb (url req) "https://api.balldontlie.io/nfl/v1/teams"
  then page [VDict [("id", VInt 1); ("name", VStr "Lions");
                    ("abbreviation", VStr "DET")]]
  else if String.eqb (url req) "https://api.balldontlie.io/nfl/v1/players"
  then page [VDict [("id", VInt 55); ("last_name", VStr "Goff");
                    ("team", VDict [("id", VInt 1)])]]
  else page [VDict [("id", VInt 7); ("season", VInt 2025); ("week", VInt 1);
                    ("home_team", VDict [("id", VInt 1)])]].

Definition core_env : Env :=
  mkEnv (fun _ => 1%Q) (fun _ => core_answer) seconds_text (fun _ => None) 8.

(** The states after a first and a second run of [ingest_core] on it. *)
Definition sample_client_for_core : BallDontLieNFLClient :=
  mkClient "key" "https://api.balldontlie.io/nfl/v1" 30 3 100.

Definition after_first_run : State :=
  snd (Ingestor.ingest_core core_env sample_client_for_core [2025] 500 None
         (fresh_state 1700000000 0.11)).

Definition after_second_run : State :=
  snd (Ingestor.ingest_core core_env sample_client_for_core [2025] 500 None
         after_first_run).

Definition sample_client : BallDontLieNFLClient :=
  mkClient "key" "https://api.balldontlie.io/nfl/v1" 30 3 100.

(** Sample rows. *)
Definition row_without_player : Dict := [("game_id", VInt 7)].
Definition row_complete : Dict := [("player_id", VInt 55); ("game_id", VInt 7)].

Definition prop_unranked_over_under : Dict :=
  [("id", VInt 1); ("player_id", VInt 55); ("prop_type", VStr "passing_yards");
   ("vendor", VStr "unranked_x");
   ("market", VDict [("type", VStr "over_under")])].

Definition prop_draftkings_over_under : Dict :=
  [("id", VInt 2); ("player_id", VInt 55); ("prop_type", VStr "passing_yards");
   ("vendor", VStr "draftkings");
   ("market", VDict [("type", VStr "over_under")])].

(** Candidate rows for player 55 and passing yards. *)
Definition prop_of (id : Z) (vendor market_type : string) : Dict :=
  [("id", VInt id); ("game_id", VInt 7); ("player_id", VInt 55);
   ("prop_type", VStr "passing_yards"); ("vendor", VStr vendor);
   ("line_value", VStr "249.5");
   ("market", VDict [("type", VStr market_type);
                     ("over_odds", VInt (-110)); ("under_odds", VInt (-110))]);
   ("updated_at", VStr "2025-11-02T18:00:00Z")].

Definition three_vendors : list Dict :=
  [prop_of 1 "fanduel" "over_under"; prop_of 2 "draftkings" "over_under";
   prop_of 3 "unranked_x" "over_under"].

Definition milestone_first : list Dict :=
  [prop_of 1 "draftkings" "milestone"; prop_of 2 "fanduel" "over_under"].

(** ** Batches and defaults *)

(** The default that [_ensure_defaults] holds for a field. *)
Definition default_of (season week : Z) (postseason : bool) (k : string)
  : Value :=
  if String.eqb k "season" then VInt season
  else if String.eqb k "week" then VInt week
  else if String.eqb k "postseason" then VBool postseason
  else VNone.

(** ** Pages *)

(** [served E self path params n cursor page rows]: the [n]-th request of
    the process, when it asks [path] for the page at [cursor], is answered
    with status 200 and the envelope [page], whose ["data"] holds [rows]. *)
Definition served (E : Env) (self : BallDontLieNFLClient) (path : string)
           (params : Dict) (n : nat) (cursor : option Z) (page : Dict)
           (rows : list Value) : Prop :=
  exists resp,
    upstream E n (mk_request self "GET" path (page_params self params cursor))
    = Responds resp /\
    status_code resp = 200 /\
    body resp = Some (VDict page) /\
    dict_find page "data" = Some (VList rows).

(** A chain of pages, served to the requests from the [n]-th on: the
    first at [cursor], each later one at the cursor that [paginate] reads
    off the page before it; [next] is what it reads off the last page. *)
Fixpoint chain (E : Env) (self : BallDontLieNFLClient) (path : string)
         (params : Dict) (n : nat) (cursor : option Z)
         (pages : list (Dict * list Value)) (next : option Z) : Prop :=
  match pages with
  | [] => False
  | (page, rows) :: rest =>
      served E self path params n cursor page rows /\
      match rest with
      | [] => next_cursor_of (VDict page) = Ok next
      | _ =>
          exists c, next_cursor_of (VDict page) = Ok (Some c) /\
                    chain E self path params (S n) (Some c) rest next
      end
  end.

(** What the body of [for x in g] has been run on, in order, when the loop
    ends or an exception leaves it. *)
Definition received {A} (g : Gen A) : Block (list A) :=
  run_loop g (fun a acc => ret (acc ++ [a])%list) [].

(** What one call of [_request] may trace: at most [n] requests, each of
    them [req], and besides them only the client's own sleeps. *)
Definition sends (req : Request) (n : nat) (evs : list Event) : Prop :=
  (List.length (requests_of evs) <= n)%nat /\
  Forall (eq req) (requests_of evs) /\
  Forall (fun ev => match ev with
                    | EvRequest _ | EvSleep ByClient _ => True
                    | _ => False
                    end) evs.

(** An upstream that serves the first page of the two-page scenario and
    answers the request for the second page with a 500. *)
Definition second_page_refused_env : Env :=
  steady_env (fun req =>
    match dict_find (params req) "cursor" with
    | None => Responds (mkResponse 200 RA_absent (Some (VDict games_page1)))
    | Some _ => Responds (mkResponse 500 RA_absent None)
    end).

(** An upstream that answers every request with a 429 and
    [Retry-After: -1]. *)
Definition negative_retry_after_env : Env :=
  steady_env (fun _ => Responds (mkResponse 429 (RA_seconds (-1)) None)).

(** A client that was given a negative number of retries. *)
Definition client_without_attempts : BallDontLieNFLClient :=
  mkClient "key" "https://api.balldontlie.io/nfl/v1" 30 (-1) 100.

(** A process whose limiter let a call through 0.05 s ago. *)
Definition recently_called : State :=
  mkState 100 0 0 0 (mkRateLimiter 0.11 99.95) [] [].

(** ** Props *)

(** A prop record whose market came as [null], and an upstream that serves
    it for every game. *)
Definition prop_with_null_market : Dict :=
  [("id", VInt 9002); ("game_id", VInt 1); ("player_id", VInt 55);
   ("vendor", VStr "draftkings"); ("prop_type", VStr "passing_yards");
   ("market", VNone)].

Definition null_market_env : Env :=
  steady_env (fun _ =>
    Responds (mkResponse 200 RA_absent
                (Some (VDict [("data",
                               VList [VDict prop_with_null_market])])))).

(** A milestone prop as the API sends it. *)
Definition milestone_prop : Value :=
  VDict [("id", VInt 9003); ("game_id", VInt 1); ("player_id", VInt 55);
         ("vendor", VStr "draftkings"); ("prop_type", VStr "anytime_td");
         ("market", VDict [("type", VStr "milestone"); ("odds", VInt 150)])].

(** ** Deduplication *)

(** The key under which [_dedupe] files a row. *)
Definition dedupe_key (keys : list string) (r : Dict) : Result (list Value) :=
  tuple_key (map (get r) keys).

(** [m] is the last row of [rows] with its key. *)
Definition last_of_key (keys : list string) (rows : list Dict) (m : Dict)
  : Prop :=
  exists pre post,
    rows = (pre ++ m :: post)%list /\
    forall r, In r post -> dedupe_key keys r <> dedupe_key keys m.

(** The key [(team_id, player_id, season)] of a roster row. *)
Definition roster_key (row : Dict) : Result (list Value) :=
  tuple_key [get row "team_id"; get row "player_id"; get row "season"].

(** A roster row with a position outside the special teams. *)
Definition preferred (row : Dict) : Prop :=
  Ingestor.not_in_ST_POSITIONS (get row "position") = Ok true.

(** The dict [seen] of [_dedupe] after the rows [done]. *)
Definition dedupe_inv (keys : list string) (done : list Dict)
           (seen : list (list Value * Dict)) : Prop :=
  NoDup (map fst seen) /\
  (forall k m, In (k, m) seen ->
               dedupe_key keys m = Ok k /\ last_of_key keys done m) /\
  (forall r, In r done ->
             exists k m, dedupe_key keys r = Ok k /\ In (k, m) seen).

(** The dict [seen_keys] of the roster deduplication after the rows
    [done]. *)
Definition roster_inv (done : list Dict) (seen : list (list Value * Dict))
  : Prop :=
  NoDup (map fst seen) /\
  (forall k m, In (k, m) seen -> roster_key m = Ok k /\ In m done) /\
  (forall r, In r done ->
             exists k m, roster_key r = Ok k /\ In (k, m) seen) /\
  (forall k m r, In (k, m) seen -> In r done -> roster_key r = Ok k ->
                 preferred r -> preferred m).

(** Roster rows of player 55 in team 1, season 2025. *)
Definition roster_row (position : string) (depth : Z) : Dict :=
  [("team_id", VInt 1); ("player_id", VInt 55); ("season", VInt 2025);
   ("position", VStr position); ("depth", VInt depth);
   ("injury_status", VNone); ("updated_at", VStr "2025-11-02T18:00:00Z")].

(** Team rows of season 2025, by team and points allowed. *)
Definition team_row (team_id points : Z) : Dict :=
  [("team_id", VInt team_id); ("season", VInt 2025);
   ("postseason", VBool false); ("opp_total_points", VInt points)].

(** ** What reaches the store *)

(** The rows handed to [supabase.upsert], each with its table, in
    order. *)
Definition written (tr : list Event) : list (string * Dict) :=
  flat_map (fun ev =>
              match ev with
              | EvUpsert t rows _ => map (pair t) rows
              | _ => []
              end) tr.

(** [writes_only R s s']: from [s] to [s'] the process handed to the store
    only rows that [R] holds of, with their table. *)
Definition writes_only (R : string -> Dict -> Prop) (s s' : State) : Prop :=
  exists rows,
    written (trace s') = (written (trace s) ++ rows)%list /\
    Forall (fun tr => R (fst tr) (snd tr)) rows.

(** A piece of code that, wherever it is run and however it ends, hands to
    the store only rows that [R] holds of. *)
Definition hands_only (R : string -> Dict -> Prop) {A} (c : M A) : Prop :=
  forall s, writes_only R s (snd (c s)).

(** A generator that yields only items that [P] holds of, and whose
    effects hand nothing to the store. *)
Inductive yields_only {A : Type} (P : A -> Prop) : Gen A -> Prop :=
| yields_done : yields_only P GDone
| yields_raise e : yields_only P (GRaise e)
| yields_diverge : yields_only P GDiverge
| yields_yield a rest :
    P a -> yields_only P rest -> yields_only P (GYield a rest)
| yields_effect k :
    (forall s, yields_only P (fst (k s))) ->
    (forall s, written (trace (snd (k s))) = written (trace s)) ->
    yields_only P (GEffect k).

(** A row that carries a value other than [None] in each of [fields]. *)
Definition complete (fields : list string) (r : Dict) : Prop :=
  forall f, In f fields -> get r f <> VNone.

(** The markets that [should_ingest_prop] lets through, as a mapped row
    shows them. *)
Definition wanted_market (r : Dict) : Prop :=
  get r "market_type" = VStr "over_under" \/
  (get r "market_type" = VStr "milestone" /\
   get r "prop_type" = VStr "anytime_td").

End Spec.

(* ================================================================== *)
(** * The validator [_valid_rows] *)
(* ================================================================== *)

Module ValidatorFacts.
Import Py Runtime Ingestor Spec.

Section Validator.
Variable required_fields : list string.
Variable mapper : option (Dict -> Dict).
Variable abort_threshold : Z.

Let f := mapper_or_id mapper.
Let bad := invalid_row required_fields mapper.
Let count := invalid_count required_fields mapper.
Let kept := valid_mapped required_fields mapper.
Let run (rows : list Dict) (invalid : Z) : Gen Dict :=
  _valid_rows_from (gen_of_list rows) f required_fields abort_threshold invalid.

Lemma count_nil : count [] = 0.
Proof. reflexivity. Qed.

Lemma count_cons r rows :
  count (r :: rows) = (if bad r then 1 else 0) + count rows.
Proof.
  unfold count, invalid_count, len; cbn [filter].
  fold bad. destruct (bad r); cbn [List.length]; lia.
Qed.

Lemma count_nonneg rows : 0 <= count rows.
Proof. unfold count, invalid_count, len. lia. Qed.

Lemma kept_cons r rows :
  kept (r :: rows) = if bad r then kept rows else f r :: kept rows.
Proof.
  unfold kept, valid_mapped; cbn [filter]. fold bad.
  destruct (bad r); reflexivity.
Qed.

Lemma run_cons r rows invalid :
  run (r :: rows) invalid =
  if bad r then
    if invalid + 1 >? abort_threshold
    then GRaise (too_many_invalid required_fields)
    else run rows (invalid + 1)
  else GYield (f r) (run rows invalid).
Proof. reflexivity. Qed.

(** Below the threshold nothing is dropped but the invalid rows. *)
Lemma run_completes rows : forall invalid,
  invalid + count rows <= abort_threshold ->
  run rows invalid = gen_of_list (kept rows).
Proof.
  induction rows as [|r rows IH]; intros invalid Hle.
  - reflexivity.
  - rewrite run_cons, kept_cons. rewrite count_cons in Hle.
    pose proof (count_nonneg rows) as Hn.
    destruct (bad r).
    + destruct (invalid + 1 >? abort_threshold) eqn:Hgt.
      * apply Z.gtb_lt in Hgt. lia.
      * apply IH. lia.
    + unfold gen_of_list; cbn [gen_items]. f_equal. apply IH. lia.
Qed.

(** Above it, the run stops at the row that takes the count past the
    threshold. *)
Lemma run_aborts rows : forall invalid,
  invalid <= abort_threshold ->
  abort_threshold < invalid + count rows ->
  exists pre culprit post,
    rows = (pre ++ culprit :: post)%list /\
    bad culprit = true /\
    invalid + count pre = abort_threshold /\
    run rows invalid =
    gen_items (kept pre) (GRaise (too_many_invalid required_fields)).
Proof.
  induction rows as [|r rows IH]; intros invalid Hlo Hhi.
  - rewrite count_nil in Hhi. lia.
  - rewrite count_cons in Hhi. rewrite run_cons.
    destruct (bad r) eqn:Hr.
    + destruct (invalid + 1 >? abort_threshold) eqn:Hgt.
      * exists [], r, rows. rewrite count_nil.
        apply Z.gtb_lt in Hgt. repeat split; auto. lia.
      * assert (Hle : invalid + 1 <= abort_threshold).
        { destruct (Z.gtb_spec (invalid + 1) abort_threshold); [discriminate|lia]. }
        destruct (IH (invalid + 1) Hle) as (pre & c & post & -> & Hc & Hn & Hrun);
          [lia|].
        exists (r :: pre), c, post. rewrite count_cons, kept_cons, Hr.
        repeat split; auto. lia.
    + destruct (IH invalid Hlo) as (pre & c & post & -> & Hc & Hn & Hrun);
        [lia|].
      exists (r :: pre), c, post. rewrite count_cons, kept_cons, Hr.
      repeat split; auto. cbn [gen_items]. now rewrite Hrun.
Qed.

End Validator.

Lemma yielded_items {A} (xs : list A) (tail : Gen A) :
  yielded (gen_items xs tail) = (xs ++ yielded tail)%list.
Proof. induction xs; cbn; [reflexivity | now f_equal]. Qed.

Lemma stops_with_items {A} (xs : list A) (tail : Gen A) :
  stops_with (gen_items xs tail) = stops_with tail.
Proof. induction xs; cbn; auto. Qed.

(** C4 (as the code has it).  With a non-negative [abort_threshold] and an
    input of which [N] rows are invalid: if [N <= abort_threshold] the
    validator forwards exactly the valid rows, mapped, in input order, and
    ends without raising; if [N > abort_threshold] it raises at the invalid
    row that takes the count past the threshold, having forwarded the valid
    rows that come before that row and none after it. *)
Theorem valid_rows_threshold :
  forall (rows : list Dict) (mapper : option (Dict -> Dict))
         (required_fields : list string) (abort_threshold : Z),
    0 <= abort_threshold ->
    let out :=
      _valid_rows (gen_of_list rows) mapper required_fields abort_threshold in
    let N := invalid_count required_fields mapper rows in
    (N <= abort_threshold ->
       yielded out = valid_mapped required_fields mapper rows /\
       stops_with out = GDone) /\
    (abort_threshold < N ->
       exists pre culprit post,
         rows = (pre ++ culprit :: post)%list /\
         invalid_row required_fields mapper culprit = true /\
         invalid_count required_fields mapper pre = abort_threshold /\
         yielded out = valid_mapped required_fields mapper pre /\
         stops_with out = GRaise (too_many_invalid required_fields)).
Proof.
  intros rows mapper required_fields abort_threshold Hthr out N.
  assert (Hout : out = _valid_rows_from (gen_of_list rows) (mapper_or_id mapper)
                         required_fields abort_threshold 0).
  { subst out. unfold _valid_rows, mapper_or_id. destruct mapper; reflexivity. }
  split.
  - intros HN. rewrite Hout, run_completes by (fold N; lia).
    unfold gen_of_list. rewrite yielded_items, stops_with_items; cbn.
    now rewrite app_nil_r.
  - intros HN.
    destruct (run_aborts required_fields mapper abort_threshold rows 0)
      as (pre & c & post & Hrows & Hc & Hn & Hrun); [lia | fold N; lia |].
    exists pre, c, post. rewrite Hout, Hrun, yielded_items, stops_with_items.
    cbn. rewrite app_nil_r. repeat split; auto; lia.
Qed.

Lemma valid_rows_threshold_witness :
  yielded (_valid_rows (gen_of_list [row_complete; row_without_player])
                       None ["player_id"; "game_id"] default_abort_threshold)
  = [row_complete].
Proof.
  destruct (valid_rows_threshold [row_complete; row_without_player] None
              ["player_id"; "game_id"] default_abort_threshold)
    as [Hbelow _]; [unfold default_abort_threshold; lia|].
  destruct Hbelow as [Hy _]; [vm_compute; discriminate|].
  exact Hy.
Defined.

(** C4 as stated fails: with the threshold at 0, an invalid row followed by
    a valid one gives [M - N = 1] valid row, and the validator forwards
    none. *)
Lemma valid_rows_forwards_fewer :
  let rows := [row_without_player; row_complete] in
  let out := _valid_rows (gen_of_list rows) None ["player_id"; "game_id"] 0 in
  len rows - invalid_count ["player_id"; "game_id"] None rows = 1 /\
  yielded out = [] /\
  yielded out <> valid_mapped ["player_id"; "game_id"] None rows.
Proof. vm_compute. repeat split; discriminate. Qed.

End ValidatorFacts.

(* ================================================================== *)
(** * The two prop filters *)
(* ================================================================== *)

Module FilterFacts.
Import Py Runtime Spec.

Lemma eq_str_true x s : eq_str x s = true -> x = VStr s.
Proof.
  destruct x; cbn; try discriminate.
  intros H. apply String.eqb_eq in H. now subst.
Qed.

Lemma truthy_or_dict x d :
  py_or x (VDict []) = VDict d -> d <> [] -> x = VDict d.
Proof.
  unfold py_or. destruct (truthy x); [auto|].
  intros H Hd. inversion H. congruence.
Qed.

(** What [is_valid_prop] accepting a row says about the row. *)
Lemma is_valid_prop_true row :
  Extras.is_valid_prop row = Ok true ->
  exists vendor market,
    Extras.vendor_of row = Ok vendor /\
    assoc_find Extras.VENDOR_PRIORITY vendor <> None /\
    dict_find row "market" = Some (VDict market) /\
    dict_find market "type" = Some (VStr "over_under").
Proof.
  unfold Extras.is_valid_prop.
  destruct (Extras.vendor_of row) as [vendor| |]; cbn [rbind]; try discriminate.
  destruct (assoc_find Extras.VENDOR_PRIORITY vendor) eqn:Hv; try discriminate.
  destruct (py_or (get row "market") (VDict [])) as [| | | | |market] eqn:Hm;
    cbn [py_get rbind]; try discriminate.
  destruct (eq_str (get_default market "type" VNone) "over_under") eqn:Ht;
    try discriminate.
  intros _. apply eq_str_true in Ht.
  assert (Htype : dict_find market "type" = Some (VStr "over_under")).
  { unfold get_default in Ht. destruct (dict_find market "type"); congruence. }
  assert (Hne : market <> []) by (intros ->; discriminate).
  apply truthy_or_dict in Hm; auto.
  exists vendor, market. repeat split; auto; try congruence.
  unfold get in Hm. destruct (dict_find row "market"); congruence.
Qed.

(** C10 (as the code has it).  [is_valid_prop] is the stricter filter:
    every record that it accepts is accepted by [should_ingest_prop]. *)
Theorem is_valid_prop_implies_should_ingest :
  forall row : Dict,
    Extras.is_valid_prop row = Ok true ->
    Ingestor.should_ingest_prop (VDict row) = Ok true.
Proof.
  intros row H.
  destruct (is_valid_prop_true row H) as (vendor & market & _ & _ & Hm & Ht).
  unfold Ingestor.should_ingest_prop; cbn [py_get rbind].
  unfold get_default. rewrite Hm; cbn [py_get rbind].
  unfold get_default. rewrite Ht.
  reflexivity.
Qed.

Lemma is_valid_prop_implies_should_ingest_witness :
  Ingestor.should_ingest_prop (VDict prop_draftkings_over_under) = Ok true.
Proof.
  apply (is_valid_prop_implies_should_ingest prop_draftkings_over_under).
  reflexivity.
Defined.

(** C10 as stated fails: an over/under prop of a vendor outside
    [VENDOR_PRIORITY] passes [should_ingest_prop] and not
    [is_valid_prop]. *)
Lemma prop_filters_disagree :
  ~ (Ingestor.should_ingest_prop (VDict prop_unranked_over_under) = Ok true
     <-> Extras.is_valid_prop prop_unranked_over_under = Ok true).
Proof.
  intros [H _]. specialize (H eq_refl). vm_compute in H. discriminate.
Qed.

End FilterFacts.

(* ================================================================== *)
(** * The rate limiter and the fetch client *)
(* ================================================================== *)

Module ClientFacts.
Import Py Runtime Client Spec.
Local Open Scope Q_scope.

Lemma Qlt_bool_iff a b : Qlt_bool a b = true <-> a < b.
Proof.
  unfold Qlt_bool. rewrite negb_true_iff.
  destruct (Qle_bool b a) eqn:H.
  - apply Qle_bool_iff in H. split; [discriminate | intros; lra].
  - split; [intros _|auto].
    destruct (Qlt_le_dec a b) as [Hlt|Hle]; [auto|].
    apply Qle_bool_iff in Hle. congruence.
Qed.

Lemma Qlt_bool_false a b : Qlt_bool a b = false <-> b <= a.
Proof.
  unfold Qlt_bool. rewrite negb_false_iff. apply Qle_bool_iff.
Qed.

Lemma visible_app tr ev :
  visible (tr ++ [ev]) =
  (visible tr ++
   match ev with EvSleep ByLimiter _ => [] | _ => [ev] end)%list.
Proof.
  unfold visible. rewrite filter_app. f_equal.
  destruct ev as [[|] q| | |]; reflexivity.
Qed.

Lemma quiet_refl s : quiet s s.
Proof. repeat split. Qed.

Lemma quiet_trans s1 s2 s3 : quiet s1 s2 -> quiet s2 s3 -> quiet s1 s3.
Proof.
  intros (A1 & A2 & A3 & A4 & A5) (B1 & B2 & B3 & B4 & B5).
  repeat split; congruence.
Qed.

Section Limiter.
Variable E : Env.
Hypothesis drift_nonneg : forall n, 0 <= drift E n.

(** One call of [wait], by cases on the limiter. *)
Lemma wait_first s :
  _last_ts (rl s) <= 0 ->
  exists s',
    wait E s = (Ok tt, s') /\ quiet s s' /\ trace s' = trace s /\
    clock s' = clock s + drift E (ticks s) /\
    _last_ts (rl s') = clock s'.
Proof.
  intros Hfirst. apply Qle_bool_iff in Hfirst.
  unfold wait, bind, time_time, get_rl, set_last_ts; cbn.
  rewrite Hfirst. eexists; split; [reflexivity|].
  cbn. repeat split.
Qed.

Lemma wait_later s :
  ~ _last_ts (rl s) <= 0 ->
  exists s',
    wait E s = (Ok tt, s') /\ quiet s s' /\
    _last_ts (rl s') = clock s' /\
    _last_ts (rl s) + min_interval_seconds (rl s) <= _last_ts (rl s') /\
    clock s <= clock s'.
Proof.
  intros Hlater.
  assert (Hb : Qle_bool (_last_ts (rl s)) 0 = false).
  { destruct (Qle_bool (_last_ts (rl s)) 0) eqn:H; [|reflexivity].
    apply Qle_bool_iff in H. contradiction. }
  pose proof (drift_nonneg (ticks s)) as D0.
  pose proof (drift_nonneg (S (ticks s))) as D1.
  pose proof (drift_nonneg (S (S (ticks s)))) as D2.
  unfold wait, bind, time_time, get_rl, set_last_ts, _sleep, ret; cbn.
  rewrite Hb.
  set (remaining := min_interval_seconds (rl s)
                    - (clock s + drift E (ticks s) - _last_ts (rl s))).
  destruct (Qlt_bool 0 remaining) eqn:Hrem; cbn.
  - apply Qlt_bool_iff in Hrem.
    assert (Hneg : Qlt_bool remaining 0 = false)
      by (apply Qlt_bool_false; lra).
    rewrite Hneg; cbn.
    eexists; split; [reflexivity|].
    unfold quiet; cbn [calls writes tables rl trace clock ticks
                       min_interval_seconds _last_ts].
    repeat split; auto.
    + now rewrite visible_app, app_nil_r.
    + subst remaining. lra.
    + lra.
  - apply Qlt_bool_false in Hrem.
    eexists; split; [reflexivity|].
    unfold quiet; cbn [calls writes tables rl trace clock ticks
                       min_interval_seconds _last_ts].
    repeat split; auto.
    + subst remaining. lra.
    + lra.
Qed.

Lemma wait_returns s :
  exists s', wait E s = (Ok tt, s') /\ quiet s s' /\ clock s <= clock s' /\
             _last_ts (rl s') = clock s'.
Proof.
  destruct (Qlt_le_dec 0 (_last_ts (rl s))) as [Hlt|Hle].
  - destruct (wait_later s) as (s' & H & Hq & Hts & _ & Hc); [lra|].
    exists s'. auto.
  - destruct (wait_first s Hle) as (s' & H & Hq & _ & Hc & Hts).
    exists s'. split; [auto|]. split; [auto|]. split; [|auto].
    rewrite Hc. pose proof (drift_nonneg (ticks s)). lra.
Qed.

Lemma wait_run_length k : forall s, List.length (wait_run E k s) = k.
Proof.
  induction k as [|k IH]; intros s; [reflexivity|].
  cbn [wait_run]. destruct (wait E s) as [r s'].
  cbn [List.length]. f_equal. apply IH.
Qed.

Lemma wait_run_spaced k : forall s,
  0 < _last_ts (rl s) -> 0 < clock s ->
  spaced (min_interval_seconds (rl s)) (_last_ts (rl s)) (wait_run E k s).
Proof.
  induction k as [|k IH]; intros s Hpos Hclock; [exact I|].
  cbn [wait_run].
  destruct (wait_later s) as (s' & Hw & Hq & Hts & Hgap & Hclk); [lra|].
  rewrite Hw. cbn [spaced].
  destruct Hq as (_ & _ & _ & Hmin & _).
  split; [reflexivity|]. split; [exact Hts|]. split; [exact Hgap|].
  rewrite <- Hmin. apply IH; [rewrite Hts|]; lra.
Qed.

Lemma spaced_nth t run : forall prev i r1 s1 r2 s2,
  spaced t prev run ->
  nth_error run i = Some (r1, s1) ->
  nth_error run (S i) = Some (r2, s2) ->
  _last_ts (rl s1) + t <= _last_ts (rl s2).
Proof.
  induction run as [|[r s0] run IH]; intros prev i r1 s1 r2 s2 Hsp H1 H2.
  - destruct i; discriminate.
  - destruct Hsp as (_ & _ & _ & Hrest).
    destruct i as [|i]; cbn in H1, H2.
    + inversion H1; subst.
      destruct run as [|[r' s'] run']; [discriminate|].
      inversion H2; subst. now destruct Hrest as (_ & _ & Hgap & _).
    + eapply IH; eauto.
Qed.

Lemma spaced_each t run : forall prev i r s1,
  spaced t prev run ->
  nth_error run i = Some (r, s1) ->
  r = Ok tt /\ _last_ts (rl s1) = clock s1.
Proof.
  induction run as [|[r0 s0] run IH]; intros prev i r s1 Hsp H.
  - destruct i; discriminate.
  - destruct Hsp as (Hr & Hts & _ & Hrest).
    destruct i as [|i]; cbn in H.
    + inversion H; subst. auto.
    + eapply IH; eauto.
Qed.

End Limiter.

Section Request.
Variable E : Env.
Variable self : BallDontLieNFLClient.

Lemma wait_quiet s : exists s', wait E s = (Ok tt, s') /\ quiet s s'.
Proof.
  unfold wait, bind, time_time, get_rl, set_last_ts, _sleep, ret; cbn.
  destruct (Qle_bool (_last_ts (rl s)) 0).
  - eexists; split; [reflexivity|]. repeat split.
  - set (remaining := min_interval_seconds (rl s)
                      - (clock s + drift E (ticks s) - _last_ts (rl s))).
    destruct (Qlt_bool 0 remaining) eqn:Hrem; cbn.
    + apply Qlt_bool_iff in Hrem.
      assert (Hneg : Qlt_bool remaining 0 = false)
        by (apply Qlt_bool_false; lra).
      rewrite Hneg; cbn.
      eexists; split; [reflexivity|].
      unfold quiet; cbn [calls writes tables rl trace min_interval_seconds].
      repeat split. now rewrite visible_app, app_nil_r.
    + eexists; split; [reflexivity|]. repeat split.
Qed.

Lemma stepped_refl s : stepped s s [].
Proof.
  unfold stepped; cbn. rewrite Nat.add_0_r, app_nil_r. repeat split.
Qed.

Lemma requests_of_app a b :
  requests_of (a ++ b) = (requests_of a ++ requests_of b)%list.
Proof. unfold requests_of. apply flat_map_app. Qed.

Lemma stepped_trans s1 s2 s3 e1 e2 :
  stepped s1 s2 e1 -> stepped s2 s3 e2 -> stepped s1 s3 (e1 ++ e2).
Proof.
  intros (A1 & A2 & A3 & A4 & A5) (B1 & B2 & B3 & B4 & B5).
  unfold stepped. rewrite requests_of_app, length_app.
  repeat split; try congruence; try lia.
  rewrite B5, A5. now rewrite app_assoc.
Qed.

Lemma quiet_stepped s1 s2 s3 evs :
  quiet s1 s2 -> stepped s2 s3 evs -> stepped s1 s3 evs.
Proof.
  intros (A1 & A2 & A3 & A4 & A5) (B1 & B2 & B3 & B4 & B5).
  unfold stepped. repeat split; congruence.
Qed.

(** One turn of the loop: the limiter, then the call, then the outcome. *)
Lemma attempts_turn req a left s :
  exists s2,
    stepped s s2 [EvRequest req] /\
    attempts E self req a (S left) s =
    on_outcome E self (attempts E self req (a + 1) left) req a
               (upstream E (calls s) req) s2.
Proof.
  destruct (wait_quiet s) as (s1 & Hw & Hq).
  cbn [attempts]. unfold bind at 1. rewrite Hw.
  unfold bind at 1, session_request.
  assert (Hc : calls s1 = calls s) by (now destruct Hq).
  rewrite Hc.
  eexists; split; [|reflexivity].
  eapply quiet_stepped; [exact Hq|].
  unfold stepped; cbn [calls writes tables rl trace requests_of flat_map
                       List.length app].
  rewrite visible_app. repeat split. lia.
Qed.

Lemma client_sleep s d :
  0 <= d ->
  exists s', _sleep E ByClient d s = (Ok tt, s') /\
             stepped s s' [EvSleep ByClient d].
Proof.
  intros Hd. unfold _sleep.
  assert (H : Qlt_bool d 0 = false) by (apply Qlt_bool_false; exact Hd).
  rewrite H. eexists; split; [reflexivity|].
  unfold stepped; cbn [calls writes tables rl trace requests_of flat_map
                       List.length app min_interval_seconds].
  rewrite visible_app, Nat.add_0_r. repeat split.
Qed.

Lemma retry_delay_advertised r d s :
  advertised_delay r d -> retry_delay r s = (Ok d, s).
Proof.
  unfold retry_delay. intros [H|[H ->]]; rewrite H; reflexivity.
Qed.

Lemma on_outcome_retry continue req a out d s :
  retryable (_max_retries self) a out d ->
  exists s',
    stepped s s' [EvSleep ByClient d] /\
    on_outcome E self continue req a out s = continue s'.
Proof.
  destruct out as [e|r]; cbn [retryable on_outcome].
  - intros [Hlt ->].
    assert (Hge : (a >=? _max_retries self)%Z = false).
    { destruct (Z.geb_spec a (_max_retries self)); [lia|reflexivity]. }
    rewrite Hge.
    destruct (client_sleep s backoff) as (s' & Hs & Hst);
      [unfold backoff; lra|].
    exists s'. split; [exact Hst|]. unfold bind. now rewrite Hs.
  - intros (H429 & Hadv & Hd).
    rewrite H429. cbn [Z.eqb Pos.eqb].
    destruct (client_sleep s d Hd) as (s' & Hs & Hst).
    exists s'. split; [exact Hst|].
    unfold bind at 1. rewrite (retry_delay_advertised r d s Hadv).
    unfold bind. now rewrite Hs.
Qed.

(** As long as the outcomes are retryable the loop goes on, tracing each
    request and the sleep after it. *)
Lemma attempts_retry req : forall delays a left s,
  (forall i, (i < List.length delays)%nat ->
             retryable (_max_retries self) (a + Z.of_nat i)
                       (upstream E (calls s + i) req) (nth i delays 0)) ->
  exists s',
    stepped s s' (retry_events req delays) /\
    attempts E self req a (List.length delays + left) s =
    attempts E self req (a + Z.of_nat (List.length delays)) left s'.
Proof.
  induction delays as [|d delays IH]; intros a left s Hall.
  - exists s. split; [apply stepped_refl|].
    cbn. now rewrite Z.add_0_r.
  - destruct (attempts_turn req a (List.length delays + left) s)
      as (s2 & Hst2 & Hturn).
    cbn [List.length Nat.add]. rewrite Hturn.
    pose proof (Hall 0%nat ltac:(cbn; lia)) as H0.
    rewrite Nat.add_0_r, Z.add_0_r in H0. cbn [nth] in H0.
    destruct (on_outcome_retry
                (attempts E self req (a + 1) (List.length delays + left))
                req a _ d s2 H0) as (s3 & Hst3 & Hout).
    rewrite Hout.
    destruct (IH (a + 1)%Z left s3) as (s' & Hst & Hgo).
    { intros i Hi.
      pose proof (Hall (S i) ltac:(cbn; lia)) as HS. cbn [nth] in HS.
      assert (Hcalls : (calls s3 + i = calls s + S i)%nat).
      { destruct Hst2 as (C2 & _), Hst3 as (C3 & _). cbn in C2, C3. lia. }
      rewrite Hcalls.
      replace (a + 1 + Z.of_nat i)%Z with (a + Z.of_nat (S i))%Z by lia.
      exact HS. }
    exists s'. split.
    + change (retry_events req (d :: delays))
        with (([EvRequest req] ++ [EvSleep ByClient d])
                ++ retry_events req delays)%list.
      eapply stepped_trans; [|exact Hst].
      eapply stepped_trans; eauto.
    + rewrite Hgo. f_equal. lia.
Qed.

Lemma on_outcome_last_failure continue req a e s :
  (_max_retries self <= a)%Z ->
  on_outcome E self continue req a (Fails e) s = (Raise e, s).
Proof.
  intros Hge. cbn [on_outcome].
  destruct (Z.geb_spec a (_max_retries self)); [reflexivity|lia].
Qed.

Lemma on_outcome_http_error continue req a r s :
  status_code r <> 429%Z -> ok r = false ->
  on_outcome E self continue req a (Responds r) s =
  (Raise (BallDontLieError
            ("HTTP " ++ str_int (status_code r) ++ " for "
             ++ method req ++ " " ++ url req)), s).
Proof.
  intros H429 Hok. cbn [on_outcome].
  apply Z.eqb_neq in H429. rewrite H429, Hok. reflexivity.
Qed.

Lemma on_outcome_success continue req a r v s :
  status_code r <> 429%Z -> ok r = true -> body r = Some v ->
  on_outcome E self continue req a (Responds r) s = (Ok v, s).
Proof.
  intros H429 Hok Hbody. cbn [on_outcome].
  apply Z.eqb_neq in H429. rewrite H429, Hok. cbn [negb].
  unfold json. now rewrite Hbody.
Qed.

(** The loop after [delays] retried attempts, at its next turn. *)
Lemma attempts_after_retries req delays left s :
  (forall i, (i < List.length delays)%nat ->
             retryable (_max_retries self) (Z.of_nat i)
                       (upstream E (calls s + i) req) (nth i delays 0)) ->
  exists s2,
    stepped s s2 (retry_events req delays ++ [EvRequest req]) /\
    attempts E self req 0 (List.length delays + S left) s =
    on_outcome E self
      (attempts E self req (Z.of_nat (List.length delays) + 1) left)
      req (Z.of_nat (List.length delays))
      (upstream E (calls s + List.length delays) req) s2.
Proof.
  intros Hall.
  destruct (attempts_retry req delays 0%Z (S left) s) as (s1 & Hst1 & Hgo).
  { intros i Hi. rewrite Z.add_0_l. auto. }
  destruct (attempts_turn req (0 + Z.of_nat (List.length delays)) left s1)
    as (s2 & Hst2 & Hturn).
  exists s2. split; [eapply stepped_trans; eauto|].
  rewrite Hgo, Hturn. rewrite Z.add_0_l.
  assert (Hc : calls s1 = (calls s + List.length delays)%nat).
  { destruct Hst1 as (C & _). rewrite C. f_equal.
    unfold retry_events, requests_of. clear.
    induction delays; cbn; [reflexivity | now f_equal]. }
  now rewrite Hc.
Qed.


End Request.

(** C6.  On a limiter that has not been used, [K] consecutive calls of
    [wait] all return; each records as [_last_ts] the clock reading at
    which it lets the caller go; the readings of two consecutive calls are
    at least [min_interval_seconds] apart; and the first call does not
    sleep.  Time is exact and only moves forward; a sleep lasts at least
    what was asked. *)
Theorem rate_limiter_spacing :
  forall (E : Env) (s : State) (K : nat),
    (forall n, 0 <= drift E n) ->
    0 < clock s ->
    _last_ts (rl s) == 0 ->
    let t := min_interval_seconds (rl s) in
    let run := wait_run E K s in
    List.length run = K /\
    (forall i r si,
        nth_error run i = Some (r, si) ->
        r = Ok tt /\ _last_ts (rl si) = clock si) /\
    (forall i r1 s1 r2 s2,
        nth_error run i = Some (r1, s1) ->
        nth_error run (S i) = Some (r2, s2) ->
        _last_ts (rl s1) + t <= _last_ts (rl s2)) /\
    (forall r1 s1,
        nth_error run 0 = Some (r1, s1) ->
        trace s1 = trace s /\ clock s1 = clock s + drift E (ticks s)).
Proof.
  intros E s K Hdrift Hclock Hfresh t run.
  split; [apply wait_run_length|].
  destruct K as [|K].
  { subst run; cbn.
    repeat split; intros; try (destruct i); discriminate. }
  destruct (wait_first E s) as (s1 & Hw & Hq & Htr & Hc & Hts); [lra|].
  assert (Hrun : run = (Ok tt, s1) :: wait_run E K s1).
  { subst run. cbn [wait_run]. now rewrite Hw. }
  assert (Hpos : 0 < clock s1).
  { rewrite Hc. pose proof (Hdrift (ticks s)). lra. }
  assert (Hmin : min_interval_seconds (rl s1) = t).
  { now destruct Hq as (_ & _ & _ & Hmin & _). }
  assert (Hchain : spaced t (_last_ts (rl s1) - t) run).
  { rewrite Hrun. cbn [spaced].
    split; [reflexivity|]. split; [exact Hts|]. split; [lra|].
    rewrite <- Hmin. apply wait_run_spaced; auto. rewrite Hts; lra. }
  split; [|split].
  - intros i r si Hi. eapply spaced_each; eauto.
  - intros i r1 s1' r2 s2 H1 H2. eapply spaced_nth; eauto.
  - intros r1 s1' H0. rewrite Hrun in H0. inversion H0; subst. auto.
Qed.

Lemma rate_limiter_spacing_witness :
  match nth_error (wait_run offline_env 3 (fresh_state 1700000000 0.11)) 1,
        nth_error (wait_run offline_env 3 (fresh_state 1700000000 0.11)) 2
  with
  | Some (_, s1), Some (_, s2) => _last_ts (rl s1) + 0.11 <= _last_ts (rl s2)
  | _, _ => False
  end.
Proof.
  destruct (rate_limiter_spacing offline_env (fresh_state 1700000000 0.11) 3)
    as (_ & _ & Hgap & _).
  - intros n. vm_compute. discriminate.
  - vm_compute. reflexivity.
  - vm_compute. reflexivity.
  - destruct (nth_error (wait_run offline_env 3 (fresh_state 1700000000 0.11)) 1)
      as [[r1 s1]|] eqn:H1; [|vm_compute in H1; discriminate].
    destruct (nth_error (wait_run offline_env 3 (fresh_state 1700000000 0.11)) 2)
      as [[r2 s2]|] eqn:H2; [|vm_compute in H2; discriminate].
    exact (Hgap 1%nat r1 s1 r2 s2 H1 H2).
Defined.

Lemma nth_repeat_lt {A} (a d : A) k i : (i < k)%nat -> nth i (repeat a k) d = a.
Proof.
  revert i; induction k as [|k IH]; intros i Hi; [lia|].
  destruct i; cbn; [reflexivity | apply IH; lia].
Qed.

(** C7 (as the code has it).  With [max_retries >= 0], [_request] makes up
    to [max_retries + 1] attempts at one and the same request.  After a
    transport failure of an attempt other than the last it sleeps the fixed
    backoff of 0.5 s and tries again; so [k <= max_retries] failures
    followed by a good response give that response.  When the last attempt
    fails as well, the exception of that attempt is raised again as it is:
    the transport's own exception. *)
Theorem request_transport_retries :
  forall (E : Env) (self : BallDontLieNFLClient) (method path : string)
         (params : Dict) (s : State),
    (0 <= _max_retries self)%Z ->
    let req := mk_request self method path params in
    let n := Z.to_nat (_max_retries self) in
    (forall (k : nat) (r : Response) (v : Value),
        (k <= n)%nat ->
        (forall i, (i < k)%nat ->
                   exists e, upstream E (calls s + i) req = Fails e) ->
        upstream E (calls s + k) req = Responds r ->
        status_code r <> 429%Z -> ok r = true -> body r = Some v ->
        exists s',
          _request E self method path params s = (Ok v, s') /\
          stepped s s'
            (retry_events req (repeat backoff k) ++ [EvRequest req])) /\
    (forall e : Exc,
        (forall i, (i < n)%nat ->
                   exists e', upstream E (calls s + i) req = Fails e') ->
        upstream E (calls s + n) req = Fails e ->
        exists s',
          _request E self method path params s = (Raise e, s') /\
          stepped s s'
            (retry_events req (repeat backoff n) ++ [EvRequest req])).
Proof.
  intros E self method path params s Hmax req n.
  assert (Htotal : Z.to_nat (_max_retries self + 1) = S n) by (subst n; lia).
  assert (Hretry : forall k, (k <= n)%nat ->
            (forall i, (i < k)%nat ->
                       exists e, upstream E (calls s + i) req = Fails e) ->
            forall i, (i < List.length (repeat backoff k))%nat ->
              retryable (_max_retries self) (Z.of_nat i)
                        (upstream E (calls s + i) req)
                        (nth i (repeat backoff k) 0)).
  { intros k Hk Hfail i Hi. rewrite repeat_length in Hi.
    destruct (Hfail i Hi) as (e & ->). cbn [retryable].
    split; [subst n; lia | now apply nth_repeat_lt]. }
  split.
  - intros k r v Hk Hfail Hresp H429 Hok Hbody.
    destruct (attempts_after_retries E self req (repeat backoff k) (n - k) s)
      as (s2 & Hst & Hgo); [now apply Hretry|].
    rewrite repeat_length in Hgo.
    exists s2. split; [|exact Hst].
    unfold _request. fold req. rewrite Htotal.
    replace (S n) with (k + S (n - k))%nat by lia.
    rewrite Hgo, Hresp. now apply on_outcome_success.
  - intros e Hfail Hlast.
    destruct (attempts_after_retries E self req (repeat backoff n) 0 s)
      as (s2 & Hst & Hgo); [now apply Hretry|].
    rewrite repeat_length in Hgo.
    exists s2. split; [|exact Hst].
    unfold _request. fold req. rewrite Htotal.
    replace (S n) with (n + 1)%nat by lia.
    rewrite Hgo, Hlast. apply on_outcome_last_failure. subst n. lia.
Qed.

Lemma request_transport_retries_witness :
  exists s',
    _request offline_env sample_client "GET" "/teams" []
             (fresh_state 1700000000 0.11)
    = (Raise (TransportError "ReadTimeout"), s') /\
    stepped (fresh_state 1700000000 0.11) s'
      (retry_events (mk_request sample_client "GET" "/teams" [])
                    [backoff; backoff; backoff]
       ++ [EvRequest (mk_request sample_client "GET" "/teams" [])]).
Proof.
  destruct (request_transport_retries offline_env sample_client "GET" "/teams"
              [] (fresh_state 1700000000 0.11)) as [_ Hfail].
  - vm_compute. discriminate.
  - apply (Hfail (TransportError "ReadTimeout")).
    + intros i _. eexists. reflexivity.
    + reflexivity.
Defined.

(** C7 as stated fails: when every attempt times out, what [_request]
    raises is the timeout itself, not an error of the client's class. *)
Lemma request_raises_transport_error :
  ~ (exists e,
        fst (_request offline_env sample_client "GET" "/teams" []
                      (fresh_state 1700000000 0.11)) = Raise e /\
        classified e = true).
Proof.
  intros (e & He & Hc). vm_compute in He. inversion He; subst e.
  discriminate.
Qed.






Example throttled_request_raises :
  fst (_request throttled_env sample_client "GET" "/games" []
                (fresh_state 1700000000 0.11))
  = Raise (BallDontLieError
             "Request failed: GET https://api.balldontlie.io/nfl/v1/games").
Proof. vm_compute. reflexivity. Qed.

Section Paginate.
Variable E : Env.
Variable self : BallDontLieNFLClient.
Hypothesis retries_nonneg : (0 <= _max_retries self)%Z.

(** A request answered at once by a good response. *)
Lemma request_good method path params s r v :
  upstream E (calls s) (mk_request self method path params) = Responds r ->
  status_code r <> 429%Z -> ok r = true -> body r = Some v ->
  exists s',
    _request E self method path params s = (Ok v, s') /\
    stepped s s' [EvRequest (mk_request self method path params)].
Proof.
  intros Hresp H429 Hok Hbody.
  unfold _request.
  assert (Hn : Z.to_nat (_max_retries self + 1)
               = S (Z.to_nat (_max_retries self))) by lia.
  rewrite Hn.
  destruct (attempts_turn E self (mk_request self method path params) 0%Z
              (Z.to_nat (_max_retries self)) s) as (s2 & Hst & Hturn).
  exists s2. split; [|exact Hst].
  rewrite Hturn, Hresp. now apply on_outcome_success.
Qed.




End Paginate.



End ClientFacts.

(* ================================================================== *)
(** * Ingestion loops *)
(* ================================================================== *)

Module IngestFacts.
Import Py Runtime Client Supabase Ingestor Spec.

(** C9 (the code against the claim).  In [ingest_player_props_filtered]
    only [BallDontLieError] is caught.  With props served for games 1 and 2:
    when the upsert for game 1 fails, or when the requests for game 1 fail
    in the transport, the exception leaves the loop, game 2 is never asked
    for and no count is returned.  An HTTP error for game 1 is the one fault
    that is logged and skipped. *)
Theorem props_loop_aborts :
  (fst (ingest_player_props_filtered failing_store_env sample_client
          [1; 2] None 500 (fresh_state 1700000000 0.11))
   = Raise (StoreError "upsert failed") /\
   games_requested
     (trace (snd (ingest_player_props_filtered failing_store_env sample_client
                    [1; 2] None 500 (fresh_state 1700000000 0.11))))
   = [VInt 1]) /\
  (fst (ingest_player_props_filtered (game1_env broken) sample_client
          [1; 2] None 500 (fresh_state 1700000000 0.11))
   = Raise (TransportError "ConnectionError") /\
   games_requested
     (trace (snd (ingest_player_props_filtered (game1_env broken) sample_client
                    [1; 2] None 500 (fresh_state 1700000000 0.11))))
   = [VInt 1; VInt 1; VInt 1; VInt 1]) /\
  (fst (ingest_player_props_filtered (game1_env refused) sample_client
          [1; 2] None 500 (fresh_state 1700000000 0.11))
   = Ok 1 /\
   warnings
     (trace (snd (ingest_player_props_filtered (game1_env refused) sample_client
                    [1; 2] None 500 (fresh_state 1700000000 0.11))))
   = [([VInt 1],
       BallDontLieError
         "HTTP 500 for GET https://api.balldontlie.io/nfl/v1/odds/player_props")]).
Proof. vm_compute. repeat split. Qed.

(** C3 (the code against the claim).  The season-stats statements of
    [ingest_stats_and_advanced] hand their rows to the store unchecked: a
    record without its player reaches [upsert] with [player_id = None],
    which is part of the conflict key.  The game-stats statements next to
    them drop such a row. *)
Theorem season_stats_null_player_upserted :
  map (fun r => get r "player_id")
      (upserted "nfl_player_season_stats"
         (trace (snd (ingest_stats_and_advanced stats_env sample_client
                        [2024] 500 true true true None false
                        default_abort_threshold
                        (fresh_state 1700000000 0.11)))))
  = [VNone] /\
  upserted "nfl_player_game_stats"
    (trace (snd (ingest_stats_and_advanced stats_env sample_client
                   [2024] 500 true true true None false
                   default_abort_threshold
                   (fresh_state 1700000000 0.11))))
  = [].
Proof. vm_compute. split; reflexivity. Qed.

End IngestFacts.

(* ================================================================== *)
(** * The deduplicator [_get_best_props] *)
(* ================================================================== *)

Module DedupFacts.
Import Py Runtime Client Extras Spec.

Section Assoc.
Context {V : Type}.
Implicit Types (t : list (string * V)) (k : string) (v : V).

Lemma assoc_find_some_in t k v : assoc_find t k = Some v -> In (k, v) t.
Proof.
  induction t as [|[k0 v0] t IH]; cbn; [discriminate|].
  destruct (String.eqb_spec k k0) as [->|Hne].
  - intros H; inversion H; auto.
  - auto.
Qed.

Lemma assoc_find_none t k : assoc_find t k = None -> ~ In k (map fst t).
Proof.
  induction t as [|[k0 v0] t IH]; cbn; [tauto|].
  destruct (String.eqb_spec k k0) as [->|Hne]; [discriminate|].
  intros H [Heq|Hin]; [congruence | now apply IH].
Qed.

Lemma assoc_find_in t k v :
  NoDup (map fst t) -> In (k, v) t -> assoc_find t k = Some v.
Proof.
  induction t as [|[k0 v0] t IH]; cbn; [tauto|].
  intros Hnd [Heq|Hin]; inversion Hnd as [|? ? Hnotin Hnd']; subst.
  - inversion Heq; subst. now rewrite String.eqb_refl.
  - destruct (String.eqb_spec k k0) as [->|Hne]; [|auto].
    exfalso. apply Hnotin. apply (in_map fst) in Hin. exact Hin.
Qed.

Lemma assoc_set_absent t k v :
  assoc_find t k = None -> assoc_set t k v = (t ++ [(k, v)])%list.
Proof.
  induction t as [|[k0 v0] t IH]; cbn; [reflexivity|].
  destruct (String.eqb_spec k k0) as [->|Hne]; [discriminate|].
  intros H. now rewrite IH.
Qed.

Lemma assoc_set_present_keys t k v v0 :
  assoc_find t k = Some v0 -> map fst (assoc_set t k v) = map fst t.
Proof.
  induction t as [|[k1 v1] t IH]; cbn; [discriminate|].
  destruct (String.eqb_spec k k1) as [->|Hne]; cbn; [reflexivity|].
  intros H. now rewrite IH.
Qed.

Lemma in_assoc_set_same t k v : In (k, v) (assoc_set t k v).
Proof.
  induction t as [|[k0 v0] t IH]; cbn; [auto|].
  destruct (String.eqb_spec k k0) as [->|Hne]; cbn; auto.
Qed.

Lemma in_assoc_set_other t k v k' v' :
  k' <> k -> In (k', v') t -> In (k', v') (assoc_set t k v).
Proof.
  intros Hne. induction t as [|[k0 v0] t IH]; cbn; [tauto|].
  intros [Heq|Hin].
  - inversion Heq; subst.
    destruct (String.eqb_spec k k') as [->|_]; [congruence|]. now left.
  - destruct (String.eqb_spec k k0) as [->|_]; cbn; auto.
Qed.

Lemma in_assoc_set t k v k' v' :
  NoDup (map fst t) ->
  In (k', v') (assoc_set t k v) ->
  (k' = k /\ v' = v) \/ (k' <> k /\ In (k', v') t).
Proof.
  induction t as [|[k0 v0] t IH]; cbn.
  - intros _ [Heq|[]]. inversion Heq; auto.
  - intros Hnd. inversion Hnd as [|? ? Hnotin Hnd']; subst.
    destruct (String.eqb_spec k k0) as [->|Hne]; cbn.
    + intros [Heq|Hin]; [inversion Heq; auto|].
      right. split; [|auto].
      intros ->. apply Hnotin. apply (in_map fst) in Hin. exact Hin.
    + intros [Heq|Hin].
      * inversion Heq; subst. right. split; [congruence | auto].
      * destruct (IH Hnd' Hin) as [?|[? ?]]; auto.
Qed.

Lemma assoc_set_nodup t k v :
  NoDup (map fst t) -> NoDup (map fst (assoc_set t k v)).
Proof.
  intros Hnd. destruct (assoc_find t k) as [v0|] eqn:Hf.
  - now rewrite (assoc_set_present_keys t k v v0 Hf).
  - rewrite (assoc_set_absent t k v Hf), map_app. cbn.
    apply NoDup_app_remove_l with (l := []); cbn.
    apply assoc_find_none in Hf.
    clear - Hnd Hf. induction (map fst t) as [|a l IH]; cbn.
    + constructor; [tauto | constructor].
    + inversion Hnd; subst. constructor.
      * rewrite in_app_iff. cbn. intros [Hin|[Heq|[]]]; [auto|].
        apply Hf. left. auto.
      * apply IH; auto. intros Hin. apply Hf. now right.
Qed.

End Assoc.

Section Dedup.
Variable E : Env.

(** What [map_player_prop] returning a row, or [None], says about the raw
    row. *)
Lemma map_player_prop_some row s m s' :
  map_player_prop E row s = (Ok (Some m), s') ->
  exists db vendor market ts,
    prop_map_get (get row "prop_type") = Ok (Some db) /\
    truthy (get row "player_id") = true /\
    vendor_of row = Ok vendor /\
    as_dict (py_or (get row "market") (VDict [])) = Ok market /\
    m = prop_row row vendor db market ts.
Proof.
  unfold map_player_prop, bind, lift, ret.
  destruct (prop_map_get (get row "prop_type")) as [[db|]| |];
    try discriminate.
  destruct (truthy (get row "player_id")); cbn [negb]; try discriminate.
  destruct (vendor_of row) as [vendor| |]; try discriminate.
  destruct (as_dict (py_or (get row "market") (VDict []))) as [market| |];
    try discriminate.
  destruct (truthy (get row "updated_at")).
  - intros H; inversion H; subst. now exists db, vendor, market, (get row "updated_at").
  - unfold now_iso, bind, time_time, ret.
    intros H; inversion H; subst. eauto 10.
Qed.

Lemma map_player_prop_none row s s' :
  map_player_prop E row s = (Ok None, s') ->
  forall s2 m s2', map_player_prop E row s2 <> (Ok (Some m), s2').
Proof.
  unfold map_player_prop, bind, lift, ret.
  destruct (prop_map_get (get row "prop_type")) as [[db|]| |];
    try discriminate.
  destruct (truthy (get row "player_id")); cbn [negb]; try discriminate.
  destruct (vendor_of row) as [vendor| |]; try discriminate.
  destruct (as_dict (py_or (get row "market") (VDict []))) as [market| |];
    try discriminate.
  destruct (truthy (get row "updated_at")); [discriminate|].
  unfold now_iso, bind, time_time, ret. discriminate.
Qed.

Lemma candidate_fields r m :
  candidate E r m ->
  exists db vendor,
    vendor_of r = Ok vendor /\
    prop_map_get (get r "prop_type") = Ok (Some db) /\
    get m "player_id" = get r "player_id" /\
    get m "prop_type" = VStr db /\
    get m "vendor" = VStr vendor.
Proof.
  intros [_ (s & s' & Hmap)].
  destruct (map_player_prop_some r s m s' Hmap)
    as (db & vendor & market & ts & Hdb & _ & Hv & _ & ->).
  exists db, vendor. repeat split; auto.
Qed.

Lemma candidate_same r m1 m2 :
  candidate E r m1 -> candidate E r m2 ->
  best_key m1 = best_key m2 /\ priority m1 = priority m2.
Proof.
  intros H1 H2.
  destruct (candidate_fields r m1 H1) as (db1 & v1 & Hv1 & Hdb1 & P1 & T1 & V1).
  destruct (candidate_fields r m2 H2) as (db2 & v2 & Hv2 & Hdb2 & P2 & T2 & V2).
  unfold best_key, priority. rewrite P1, P2, T1, T2, V1, V2.
  split; congruence.
Qed.

(** One turn of the loop, by cases. *)
Lemma best_step_cases best_map row s best_map' s1 :
  best_step E best_map row s = (Ok best_map', s1) ->
  (best_map' = best_map /\ forall m, ~ candidate E row m) \/
  (exists m,
      candidate E row m /\
      ((assoc_find best_map (best_key m) = None /\
        best_map' = assoc_set best_map (best_key m) m) \/
       (exists existing,
           assoc_find best_map (best_key m) = Some existing /\
           ((priority m < priority existing /\
             best_map' = assoc_set best_map (best_key m) m) \/
            (priority existing <= priority m /\ best_map' = best_map))))).
Proof.
  unfold best_step. unfold bind at 1, lift.
  destruct (is_valid_prop row) as [[|]| |] eqn:Hvalid; try discriminate.
  - cbn [negb]. unfold bind at 1.
    destruct (map_player_prop E row s) as [[[m|]|e|] s0] eqn:Hmap;
      try discriminate.
    + intros Hrest. right. exists m.
      assert (Hc : candidate E row m) by (split; eauto).
      split; [exact Hc|].
      fold (priority m) in Hrest.
      destruct (assoc_find best_map (best_key m)) as [existing|] eqn:Hfind.
      * right. exists existing. split; [reflexivity|].
        fold (priority existing) in Hrest.
        destruct (Z.ltb_spec (priority m) (priority existing));
          inversion Hrest; subst; auto.
      * left. inversion Hrest; subst; auto.
    + intros Hrest. inversion Hrest; subst. left. split; [reflexivity|].
      intros m [_ (s2 & s2' & Hsome)].
      exact (map_player_prop_none row s s1 Hmap s2 m s2' Hsome).
  - cbn [negb]. intros Hrest. inversion Hrest; subst.
    left. split; [reflexivity|].
    intros m [Hv _]. congruence.
Qed.

Lemma best_of_extend seen m row :
  best_of E seen m ->
  (forall m', candidate E row m' -> best_key m' = best_key m ->
              priority m <= priority m') ->
  best_of E (seen ++ [row]) m.
Proof.
  intros (pre & r & post & -> & Hc & Hall & Hpre) Hrow.
  exists pre, r, (post ++ [row])%list.
  split; [now rewrite <- app_assoc|]. split; [exact Hc|]. split; [|exact Hpre].
  intros r' m' Hin Hc' Hk. apply in_app_or in Hin.
  destruct Hin as [Hin|[<-|[]]]; eauto.
Qed.

Lemma best_of_newcomer seen m row :
  candidate E row m ->
  (forall r' m', In r' seen -> candidate E r' m' ->
                 best_key m' = best_key m -> priority m < priority m') ->
  best_of E (seen ++ [row]) m.
Proof.
  intros Hc Hbeats. exists seen, row, []. split; [reflexivity|].
  split; [exact Hc|]. split; [|exact Hbeats].
  intros r' m' Hin Hc' Hk. apply in_app_or in Hin.
  destruct Hin as [Hin|[<-|[]]].
  - apply Z.lt_le_incl. eauto.
  - destruct (candidate_same row m m' Hc Hc') as [_ ->]. lia.
Qed.

Lemma best_inv_step seen best_map row s best_map' s1 :
  best_inv E seen best_map ->
  best_step E best_map row s = (Ok best_map', s1) ->
  best_inv E (seen ++ [row]) best_map'.
Proof.
  intros (Hnd & Hent & Hcov) Hstep.
  apply best_step_cases in Hstep.
  destruct Hstep as [[-> Hnone]|(m & Hc & Hcase)].
  - (* the row does not compete *)
    split; [exact Hnd|]. split.
    + intros k m0 Hin. destruct (Hent k m0 Hin) as [Hk Hbest].
      split; [exact Hk|]. apply best_of_extend; [exact Hbest|].
      intros m' Hc'. now destruct (Hnone m').
    + intros r m' Hin Hc'. apply in_app_or in Hin.
      destruct Hin as [Hin|[<-|[]]]; [eauto|]. now destruct (Hnone m').
  - assert (Hrow : forall m', candidate E row m' ->
                     best_key m' = best_key m /\ priority m' = priority m).
    { intros m' Hc'. apply (candidate_same row m' m Hc' Hc). }
    assert (Hcov' : forall bm',
              In (best_key m, m) bm' \/
              (exists m0, In (best_key m, m0) bm' /\ bm' = best_map) ->
              (forall k' v', k' <> best_key m -> In (k', v') best_map ->
                             In (k', v') bm') ->
              forall r m', In r (seen ++ [row]) -> candidate E r m' ->
                           exists m0, In (best_key m', m0) bm').
    { intros bm' Hhas Hkeep r m' Hin Hc'. apply in_app_or in Hin.
      destruct Hin as [Hin|[<-|[]]].
      - destruct (Hcov r m' Hin Hc') as (m0 & Hm0).
        destruct (string_dec (best_key m') (best_key m)) as [Heq|Hne].
        + rewrite Heq. destruct Hhas as [?|(m1 & ? & _)]; eauto.
        + eauto.
      - destruct (Hrow m' Hc') as [-> _].
        destruct Hhas as [?|(m1 & ? & _)]; eauto. }
    assert (Hold : forall k' m0,
              k' <> best_key m -> In (k', m0) best_map ->
              k' = best_key m0 /\ best_of E (seen ++ [row]) m0).
    { intros k' m0 Hne Hin. destruct (Hent k' m0 Hin) as [Hk Hbest].
      split; [exact Hk|]. apply best_of_extend; [exact Hbest|].
      intros m' Hc' Hkey. destruct (Hrow m' Hc') as [Hk' _]. congruence. }
    destruct Hcase as [[Habs ->]|(existing & Hfind & [[Hlt ->]|[Hle ->]])].
    + (* a key not seen before *)
      split; [now apply assoc_set_nodup|]. split.
      * intros k m0 Hin.
        destruct (in_assoc_set _ _ _ _ _ Hnd Hin) as [[-> ->]|[Hne Hin']];
          [|now apply Hold].
        split; [reflexivity|]. apply best_of_newcomer; [exact Hc|].
        intros r' m' Hin' Hc' Hk. exfalso.
        destruct (Hcov r' m' Hin' Hc') as (m1 & Hm1).
        apply (assoc_find_none _ _ Habs).
        rewrite <- Hk. apply (in_map fst) in Hm1. exact Hm1.
      * apply Hcov'; [left; apply in_assoc_set_same|].
        intros k' v' Hne Hin. now apply in_assoc_set_other.
    + (* a better vendor for a key already held *)
      pose proof (assoc_find_some_in _ _ _ Hfind) as Hex.
      destruct (Hent _ _ Hex) as [Hkex (pre & r0 & post & _ & _ & Hall & _)].
      split; [now apply assoc_set_nodup|]. split.
      * intros k m0 Hin.
        destruct (in_assoc_set _ _ _ _ _ Hnd Hin) as [[-> ->]|[Hne Hin']];
          [|now apply Hold].
        split; [reflexivity|]. apply best_of_newcomer; [exact Hc|].
        intros r' m' Hin' Hc' Hk.
        assert (priority existing <= priority m').
        { apply (Hall r' m'); auto. congruence. }
        lia.
      * apply Hcov'; [left; apply in_assoc_set_same|].
        intros k' v' Hne Hin. now apply in_assoc_set_other.
    + (* the vendor held stays *)
      pose proof (assoc_find_some_in _ _ _ Hfind) as Hex.
      split; [exact Hnd|]. split.
      * intros k m0 Hin.
        destruct (string_dec k (best_key m)) as [->|Hne]; [|now apply Hold].
        assert (m0 = existing).
        { pose proof (assoc_find_in _ _ _ Hnd Hin). congruence. }
        subst m0. destruct (Hent _ _ Hin) as [Hk Hbest].
        split; [exact Hk|]. apply best_of_extend; [exact Hbest|].
        intros m' Hc' _. destruct (Hrow m' Hc') as [_ ->]. exact Hle.
      * apply Hcov'; [right; eauto | auto].
Qed.

Lemma best_inv_loop rest : forall seen best_map s best_map' s',
  best_inv E seen best_map ->
  best_loop E rest best_map s = (Ok best_map', s') ->
  best_inv E (seen ++ rest) best_map'.
Proof.
  induction rest as [|row rest IH]; intros seen bm s bm' s' Hinv Hrun.
  - cbn in Hrun. inversion Hrun; subst. now rewrite app_nil_r.
  - cbn [best_loop] in Hrun. unfold bind in Hrun.
    destruct (best_step E bm row s) as [[bm1|e|] s1] eqn:Hstep;
      try discriminate.
    replace (seen ++ row :: rest)%list with ((seen ++ [row]) ++ rest)%list
      by (now rewrite <- app_assoc).
    eapply IH; [|exact Hrun]. eapply best_inv_step; eauto.
Qed.

Lemma best_inv_start : best_inv E [] [].
Proof.
  split; [constructor|]. split; intros; contradiction.
Qed.

(** On rows of the expected shape no turn raises. *)
Lemma best_step_total best_map row s :
  well_shaped row ->
  exists best_map' s', best_step E best_map row s = (Ok best_map', s').
Proof.
  intros ((v & Hv) & (d & Hd) & (o & Ho)).
  assert (Hvalid : exists b, is_valid_prop row = Ok b).
  { unfold is_valid_prop. rewrite Hv; cbn [rbind].
    destruct (assoc_find VENDOR_PRIORITY v); [|eauto].
    destruct (py_or (get row "market") (VDict [])); try discriminate.
    cbn [py_get rbind].
    destruct (eq_str _ "over_under"); eauto. }
  destruct Hvalid as (b & Hb).
  unfold best_step. unfold bind at 1, lift. rewrite Hb.
  destruct b; cbn [negb]; [|unfold ret; eauto].
  unfold bind at 1.
  assert (Hmap : exists om s0, map_player_prop E row s = (Ok om, s0)).
  { unfold map_player_prop, bind, lift, ret. rewrite Ho.
    destruct o as [db|]; [|eauto].
    destruct (truthy (get row "player_id")); cbn [negb]; [|eauto].
    rewrite Hv, Hd.
    destruct (truthy (get row "updated_at")); [eauto|].
    unfold now_iso, bind, time_time, ret. eauto. }
  destruct Hmap as (om & s0 & ->).
  destruct om as [m|]; [|unfold ret; eauto].
  destruct (assoc_find best_map (best_key m)); [|unfold ret; eauto].
  destruct (_ <? _); unfold ret; eauto.
Qed.

Lemma best_loop_total rest : forall best_map s,
  Forall well_shaped rest ->
  exists best_map' s', best_loop E rest best_map s = (Ok best_map', s').
Proof.
  induction rest as [|row rest IH]; intros bm s Hall.
  - cbn. unfold ret. eauto.
  - inversion Hall; subst.
    destruct (best_step_total bm row s) as (bm1 & s1 & Hstep); [assumption|].
    cbn [best_loop]. unfold bind. rewrite Hstep. now apply IH.
Qed.

End Dedup.

(** The key tells integer player ids and prop types apart. *)
Lemma has_bar_uint d : has_bar (NilEmpty.string_of_uint d) = false.
Proof. induction d; cbn; auto. Qed.

Lemma has_bar_str_int z : has_bar (str_int z) = false.
Proof.
  unfold str_int, NilZero.string_of_int, NilZero.string_of_uint.
  destruct (Z.to_int z) as [d|d]; destruct d; cbn; auto using has_bar_uint.
Qed.

Lemma str_int_inj a b : str_int a = str_int b -> a = b.
Proof.
  unfold str_int. intros H.
  assert (Hnn : forall z, Z.to_int z <> Decimal.Pos Decimal.Nil /\
                          Z.to_int z <> Decimal.Neg Decimal.Nil).
  { intros [|p|p]; cbn; split; try discriminate;
      intros Heq; inversion Heq as [Hp];
      exact (DecimalPos.Unsigned.to_uint_nonnil p Hp). }
  apply DecimalZ.to_int_inj.
  assert (Hsome : Some (Z.to_int a) = Some (Z.to_int b)).
  { destruct (Hnn a) as [A1 A2]. destruct (Hnn b) as [B1 B2].
    rewrite <- (NilZero.isi (Z.to_int a) A1 A2).
    rewrite <- (NilZero.isi (Z.to_int b) B1 B2).
    now rewrite H. }
  now inversion Hsome.
Qed.

Lemma bar_split x : forall y t t',
  has_bar x = false -> has_bar y = false ->
  (x ++ "|" ++ t = y ++ "|" ++ t')%string -> x = y /\ t = t'.
Proof.
  induction x as [|c x IH]; intros [|c' y] t t' Hx Hy Heq; cbn in *.
  - inversion Heq; auto.
  - inversion Heq; subst. now rewrite Ascii.eqb_refl in Hy.
  - inversion Heq; subst. now rewrite Ascii.eqb_refl in Hx.
  - inversion Heq; subst.
    apply orb_false_iff in Hx, Hy.
    destruct (IH y t t') as [-> ->]; tauto.
Qed.

Lemma best_key_pairs m m' a b t t' :
  get m "player_id" = VInt a -> get m' "player_id" = VInt b ->
  get m "prop_type" = VStr t -> get m' "prop_type" = VStr t' ->
  (best_key m = best_key m' <-> a = b /\ t = t').
Proof.
  intros Ha Hb Ht Ht'. unfold best_key. rewrite Ha, Hb, Ht, Ht'. cbn [py_str py_repr].
  split.
  - intros H. apply bar_split in H; auto using has_bar_str_int.
    destruct H as [H ->]. split; [now apply str_int_inj | reflexivity].
  - now intros [-> ->].
Qed.

(** C2 (as the code has it).  On rows of the expected shape
    [_get_best_props] returns.  What it returns holds exactly one row per
    key [f"{player_id}|{prop_type}"] among the candidates, that is, among
    the rows that [is_valid_prop] accepts (vendor in [VENDOR_PRIORITY],
    market type [over_under]) and that [map_player_prop] maps (prop type in
    [PROP_MAP], player present): the row kept for a key is the mapped form
    of a candidate of that key whose vendor priority no candidate of the key
    undercuts and every earlier candidate of the key exceeds, so that rows
    of unranked vendors never appear and of two rows of one vendor the
    first stays.  For integer player ids two keys are equal exactly when
    player id and prop type are. *)
Theorem best_props_dedup :
  forall (E : Env) (props : list Dict) (s : State),
    (Forall well_shaped props ->
     exists out s', _get_best_props E props s = (Ok out, s')) /\
    (forall out s',
        _get_best_props E props s = (Ok out, s') ->
        NoDup (map best_key out) /\
        (forall m, In m out -> best_of E props m) /\
        (forall r m', In r props -> candidate E r m' ->
                      exists m, In m out /\ best_key m = best_key m')) /\
    (forall m m' a b t t',
        get m "player_id" = VInt a -> get m' "player_id" = VInt b ->
        get m "prop_type" = VStr t -> get m' "prop_type" = VStr t' ->
        (best_key m = best_key m' <-> a = b /\ t = t')).
Proof.
  intros E props s. split; [|split].
  - intros Hshape.
    destruct (best_loop_total E props [] s Hshape) as (bm & s' & Hloop).
    exists (map snd bm), s'.
    unfold _get_best_props, bind. now rewrite Hloop.
  - intros out s' Hrun.
    unfold _get_best_props, bind in Hrun.
    destruct (best_loop E props [] s) as [[bm|e|] s1] eqn:Hloop;
      try discriminate.
    inversion Hrun; subst out s1.
    destruct (best_inv_loop E props [] [] s bm s' (best_inv_start E) Hloop)
      as (Hnd & Hent & Hcov).
    cbn [app] in Hent, Hcov.
    split; [|split].
    + rewrite map_map.
      replace (map (fun x => best_key (snd x)) bm) with (map fst bm);
        [exact Hnd|].
      apply map_ext_in. intros [k m] Hin. now destruct (Hent k m Hin).
    + intros m Hin. apply in_map_iff in Hin.
      destruct Hin as ([k m0] & <- & Hin). now destruct (Hent k m0 Hin).
    + intros r m' Hin Hc. destruct (Hcov r m' Hin Hc) as (m & Hm).
      exists m. split; [now apply (in_map snd) in Hm|].
      now destruct (Hent _ _ Hm).
  - intros m m' a b t t'. apply best_key_pairs.
Qed.

Lemma best_props_dedup_witness :
  exists out s',
    _get_best_props offline_env three_vendors (fresh_state 1700000000 0.11)
    = (Ok out, s') /\
    NoDup (map best_key out) /\
    map (fun m => get m "vendor") out = [VStr "draftkings"].
Proof.
  destruct (best_props_dedup offline_env three_vendors
              (fresh_state 1700000000 0.11)) as (Htotal & Hbest & _).
  destruct Htotal as (out & s' & Hrun).
  { repeat constructor; repeat split; eexists; reflexivity. }
  exists out, s'. split; [exact Hrun|].
  split; [exact (proj1 (Hbest out s' Hrun))|].
  vm_compute in Hrun. inversion Hrun. reflexivity.
Defined.

(** C2 as stated fails: when the best-ranked vendor of a pair quotes a
    market other than over/under, its row is passed over and the row kept
    for the pair belongs to a vendor of a worse rank. *)
Lemma best_props_skip_best_ranked :
  exists out,
    fst (_get_best_props offline_env milestone_first
                         (fresh_state 1700000000 0.11)) = Ok out /\
    ~ keeps_lowest_ranked milestone_first out.
Proof.
  eexists. split; [vm_compute; reflexivity|].
  intros H.
  destruct (H (prop_of 1 "draftkings" "milestone") 1 "player_pass_yds")
    as (m & Hin & _ & _ & Hp); [left; reflexivity | reflexivity | reflexivity |].
  destruct Hin as [<-|[]]. vm_compute in Hp. now apply Hp.
Qed.

End DedupFacts.

(* ================================================================== *)
(** * The upsert sink and re-runs *)
(* ================================================================== *)

Module StoreFacts.
Import Py Runtime Client Supabase Spec.

(** ** Equality of values *)

Lemma Value_eqb_refl : forall v, Value_eqb v v = true.
Proof.
  induction v as [| b | z | s | xs IH | kv IH]; cbn.
  - reflexivity.
  - apply Bool.eqb_reflx.
  - apply Z.eqb_refl.
  - apply String.eqb_refl.
  - induction IH as [|x Hx xs _ IHxs]; [reflexivity|].
    now rewrite Hx, IHxs.
  - induction IH as [|p Hp kv _ IHkv]; [reflexivity|].
    destruct Hp as [k _ x Hx]. now rewrite String.eqb_refl, Hx, IHkv.
Qed.

Lemma Value_eqb_eq : forall a b, Value_eqb a b = true -> a = b.
Proof.
  induction a as [| b | z | s | xs IH | kv IH]; intros [| b' | z' | s' | ys | kv'];
    cbn; try discriminate; intros H.
  - reflexivity.
  - f_equal. now apply Bool.eqb_prop.
  - f_equal. now apply Z.eqb_eq.
  - f_equal. now apply String.eqb_eq.
  - f_equal. revert ys H.
    induction IH as [|x Hx xs _ IHxs]; intros [|y ys] H;
      try discriminate; [reflexivity|].
    apply andb_true_iff in H. destruct H as [H1 H2].
    f_equal; auto.
  - f_equal. revert kv' H.
    induction IH as [|p Hp kv _ IHkv]; intros kv' H.
    + destruct kv'; [reflexivity | discriminate].
    + destruct Hp as [k _ x Hx].
      destruct kv' as [|[k' y] kv']; [discriminate|].
      apply andb_true_iff in H. destruct H as [H12 H3].
      apply andb_true_iff in H12. destruct H12 as [H1 H2].
      apply String.eqb_eq in H1. f_equal; [f_equal|]; auto.
Qed.

Lemma key_eqb_eq a b : key_eqb a b = true <-> a = b.
Proof.
  split.
  - revert b. induction a as [|x a IH]; intros [|y b]; cbn;
      try discriminate; [reflexivity|].
    intros H. apply andb_true_iff in H. destruct H as [H1 H2].
    f_equal; [now apply Value_eqb_eq | auto].
  - intros <-. induction a as [|x a IH]; cbn; [reflexivity|].
    now rewrite Value_eqb_refl, IH.
Qed.

Lemma same_key_iff cols r x :
  same_key cols r x = true <-> key_of cols r = key_of cols x.
Proof. apply key_eqb_eq. Qed.

Lemma same_key_refl cols r : same_key cols r r = true.
Proof. now apply same_key_iff. Qed.

(** ** One table *)

Section Upsert.
Variable cols : list string.

Let repl (r x : Dict) : Dict := if same_key cols r x then r else x.

Lemma existsb_map {A B} (f : B -> bool) (g : A -> B) l :
  existsb f (map g l) = existsb (fun x => f (g x)) l.
Proof. induction l; cbn; [reflexivity | now rewrite IHl]. Qed.

Lemma upsert_row_eq t r :
  upsert_row cols t r =
  if existsb (same_key cols r) t then map (repl r) t else (t ++ [r])%list.
Proof. reflexivity. Qed.

Lemma key_of_repl r x : key_of cols (repl r x) = key_of cols x.
Proof.
  unfold repl. destruct (same_key cols r x) eqn:H; [|reflexivity].
  now apply same_key_iff in H.
Qed.

Lemma same_key_repl r' r x : same_key cols r' (repl r x) = same_key cols r' x.
Proof. unfold same_key. now rewrite key_of_repl. Qed.

Lemma same_key_trans_l r1 r0 x :
  same_key cols r1 r0 = true -> same_key cols r1 x = same_key cols r0 x.
Proof.
  intros H. apply same_key_iff in H. unfold same_key. now rewrite H.
Qed.

Lemma same_key_sym r x : same_key cols r x = same_key cols x r.
Proof.
  destruct (same_key cols r x) eqn:H1, (same_key cols x r) eqn:H2; auto.
  - apply same_key_iff in H1. symmetry in H1. apply same_key_iff in H1.
    congruence.
  - apply same_key_iff in H2. symmetry in H2. apply same_key_iff in H2.
    congruence.
Qed.

(** After the upsert of [r] every row with the key of [r] is [r]. *)
Lemma upsert_row_uniform t r x :
  In x (upsert_row cols t r) -> same_key cols r x = true -> x = r.
Proof.
  rewrite upsert_row_eq.
  destruct (existsb (same_key cols r) t) eqn:Hex.
  - intros Hin Hk. apply in_map_iff in Hin. destruct Hin as (y & <- & Hy).
    rewrite same_key_repl in Hk. unfold repl. now rewrite Hk.
  - intros Hin Hk. apply in_app_or in Hin. destruct Hin as [Hin|[<-|[]]]; auto.
    exfalso. assert (existsb (same_key cols r) t = true)
      by (apply existsb_exists; eauto).
    congruence.
Qed.

(** Rows of another key are the rows that were there. *)
Lemma upsert_row_others t r x :
  In x (upsert_row cols t r) -> same_key cols r x = false -> In x t.
Proof.
  rewrite upsert_row_eq.
  destruct (existsb (same_key cols r) t).
  - intros Hin Hk. apply in_map_iff in Hin. destruct Hin as (y & <- & Hy).
    rewrite same_key_repl in Hk. unfold repl. now rewrite Hk.
  - intros Hin Hk. apply in_app_or in Hin. destruct Hin as [Hin|[<-|[]]]; auto.
    now rewrite same_key_refl in Hk.
Qed.

Lemma has_key_upsert_row t r : existsb (same_key cols r) (upsert_row cols t r) = true.
Proof.
  rewrite upsert_row_eq.
  destruct (existsb (same_key cols r) t) eqn:Hex.
  - rewrite existsb_map. apply existsb_exists in Hex.
    destruct Hex as (x & Hin & Hk). apply existsb_exists.
    exists x. split; [exact Hin|]. now rewrite same_key_repl.
  - rewrite existsb_app. cbn. now rewrite same_key_refl, orb_true_r.
Qed.

Lemma has_key_kept t r r' :
  existsb (same_key cols r') t = true ->
  existsb (same_key cols r') (upsert_row cols t r) = true.
Proof.
  intros H. rewrite upsert_row_eq.
  destruct (existsb (same_key cols r) t).
  - rewrite existsb_map. apply existsb_exists in H.
    destruct H as (x & Hin & Hk). apply existsb_exists.
    exists x. split; [exact Hin|]. now rewrite same_key_repl.
  - rewrite existsb_app. now rewrite H.
Qed.

Lemma upsert_rows_cons t r rows :
  upsert_rows cols t (r :: rows) = upsert_rows cols (upsert_row cols t r) rows.
Proof. reflexivity. Qed.

Lemma override_cons r rows x :
  override cols (r :: rows) x = override cols rows (repl r x).
Proof. reflexivity. Qed.

Lemma has_key_upsert_rows rows : forall t r,
  In r rows \/ existsb (same_key cols r) t = true ->
  existsb (same_key cols r) (upsert_rows cols t rows) = true.
Proof.
  induction rows as [|r1 rows IH]; intros t r H.
  - destruct H as [[]|H]; exact H.
  - rewrite upsert_rows_cons.
    apply IH. destruct H as [[->|Hin]|H]; auto.
    + right. apply has_key_upsert_row.
    + right. now apply has_key_kept.
Qed.

(** Upserting rows whose keys are all present rewrites the table in
    place. *)
Lemma upsert_rows_present rows : forall t,
  (forall r, In r rows -> existsb (same_key cols r) t = true) ->
  upsert_rows cols t rows = map (override cols rows) t.
Proof.
  induction rows as [|r1 rows IH]; intros t Hall.
  - symmetry. apply map_id.
  - rewrite upsert_rows_cons, upsert_row_eq, (Hall r1) by (now left).
    rewrite IH.
    + rewrite map_map. apply map_ext. intros x. now rewrite override_cons.
    + intros r Hin. rewrite existsb_map.
      pose proof (Hall r (or_intror Hin)) as H.
      apply existsb_exists in H. destruct H as (x & Hx & Hk).
      apply existsb_exists. exists x. split; [exact Hx|].
      now rewrite same_key_repl.
Qed.

Lemma upsert_rows_uniform rows : forall t r0 x,
  (forall y, In y t -> same_key cols r0 y = true -> y = r0) ->
  In x (upsert_rows cols t rows) -> same_key cols r0 x = true ->
  x = override cols rows r0.
Proof.
  induction rows as [|r1 rows IH]; intros t r0 x Huni Hin Hk.
  - cbn in *. auto.
  - rewrite upsert_rows_cons in Hin. rewrite override_cons. unfold repl.
    destruct (same_key cols r1 r0) eqn:H10.
    + apply (IH (upsert_row cols t r1) r1 x); auto.
      * intros y. apply upsert_row_uniform.
      * now rewrite (same_key_trans_l r1 r0 x H10).
    + apply (IH (upsert_row cols t r1) r0 x); auto.
      intros y Hy Hky.
      apply Huni; [|exact Hky].
      apply (upsert_row_others t r1 y Hy).
      destruct (same_key cols r1 y) eqn:H1y; [|reflexivity].
      rewrite same_key_sym in Hky.
      rewrite same_key_sym, (same_key_trans_l y r0 r1 Hky) in H1y.
      rewrite same_key_sym in H1y. congruence.
Qed.

Lemma upsert_rows_settled rows : forall t x,
  In x (upsert_rows cols t rows) -> override cols rows x = x.
Proof.
  induction rows as [|r1 rows IH]; intros t x Hin.
  - reflexivity.
  - rewrite upsert_rows_cons in Hin. rewrite override_cons. unfold repl.
    destruct (same_key cols r1 x) eqn:H1x.
    + symmetry. apply (upsert_rows_uniform rows (upsert_row cols t r1) r1 x);
        auto.
      intros y. apply upsert_row_uniform.
    + eapply IH; eauto.
Qed.

(** Upserting the same rows a second time changes nothing. *)
Lemma upsert_rows_idempotent t rows :
  upsert_rows cols (upsert_rows cols t rows) rows = upsert_rows cols t rows.
Proof.
  rewrite upsert_rows_present.
  - rewrite <- (map_id (upsert_rows cols t rows)) at 2.
    apply map_ext_in. intros x Hx. eapply upsert_rows_settled; eauto.
  - intros r Hin. apply has_key_upsert_rows. now left.
Qed.

Lemma upsert_rows_app t r1 r2 :
  upsert_rows cols (upsert_rows cols t r1) r2 = upsert_rows cols t (r1 ++ r2).
Proof. unfold upsert_rows. now rewrite fold_left_app. Qed.

(** The timestamp plays no part in the key. *)
Hypothesis key_without_ts : ~ In "updated_at" cols.

Lemma get_strip r c : c <> "updated_at" -> get (strip_ts r) c = get r c.
Proof.
  intros Hc. unfold get, dict_find.
  induction r as [|[k v] r IH]; cbn; [reflexivity|].
  destruct (String.eqb_spec k "updated_at") as [->|Hk]; cbn.
  - destruct (String.eqb_spec c "updated_at"); [contradiction | exact IH].
  - destruct (String.eqb c k); [reflexivity | exact IH].
Qed.

Lemma key_of_strip r : key_of cols (strip_ts r) = key_of cols r.
Proof.
  unfold key_of. apply map_ext_in. intros c Hc. apply get_strip.
  intros ->. contradiction.
Qed.

Lemma same_key_strip r x :
  same_key cols (strip_ts r) (strip_ts x) = same_key cols r x.
Proof. unfold same_key. now rewrite !key_of_strip. Qed.

Lemma upsert_row_strip t r :
  upsert_row cols (strip_table t) (strip_ts r)
  = strip_table (upsert_row cols t r).
Proof.
  unfold strip_table. rewrite !upsert_row_eq, existsb_map.
  replace (existsb (fun x => same_key cols (strip_ts r) (strip_ts x)) t)
    with (existsb (same_key cols r) t)
    by (induction t; cbn; [|rewrite same_key_strip]; congruence).
  destruct (existsb (same_key cols r) t).
  - rewrite !map_map. apply map_ext. intros x. unfold repl.
    rewrite same_key_strip. now destruct (same_key cols r x).
  - now rewrite map_app.
Qed.

Lemma upsert_rows_strip rows : forall t,
  upsert_rows cols (strip_table t) (map strip_ts rows)
  = strip_table (upsert_rows cols t rows).
Proof.
  induction rows as [|r rows IH]; intros t; [reflexivity|].
  cbn [map]. now rewrite !upsert_rows_cons, upsert_row_strip, IH.
Qed.

End Upsert.

(** ** The store *)

Lemma table_of_set_same st n t : table_of (store_set st n t) n = t.
Proof.
  induction st as [|[m t'] st IH]; cbn.
  - now rewrite String.eqb_refl.
  - destruct (String.eqb_spec n m) as [->|Hne]; cbn.
    + now rewrite String.eqb_refl.
    + destruct (String.eqb_spec n m); [contradiction | exact IH].
Qed.

Lemma table_of_set_other st n m t :
  m <> n -> table_of (store_set st n t) m = table_of st m.
Proof.
  intros Hne. induction st as [|[k t'] st IH]; cbn.
  - destruct (String.eqb_spec m n); [contradiction | reflexivity].
  - destruct (String.eqb_spec n k) as [->|Hnk]; cbn.
    + destruct (String.eqb_spec m k); [contradiction | reflexivity].
    + destruct (String.eqb m k); [reflexivity | exact IH].
Qed.

Lemma store_set_set st n t1 t2 :
  store_set (store_set st n t1) n t2 = store_set st n t2.
Proof.
  induction st as [|[m t'] st IH]; cbn.
  - now rewrite String.eqb_refl.
  - destruct (String.eqb_spec n m) as [->|Hne]; cbn.
    + now rewrite String.eqb_refl.
    + destruct (String.eqb_spec n m); [contradiction | now rewrite IH].
Qed.

Lemma store_set_same st n :
  In n (map fst st) -> store_set st n (table_of st n) = st.
Proof.
  induction st as [|[m t'] st IH]; cbn; [tauto|].
  intros Hin. destruct (String.eqb_spec n m) as [->|Hne]; [reflexivity|].
  destruct Hin as [Heq|Hin]; [congruence|]. now rewrite IH.
Qed.

Lemma names_store_set st n t m :
  In m (map fst (store_set st n t)) <-> m = n \/ In m (map fst st).
Proof.
  induction st as [|[k t'] st IH]; cbn.
  - intuition.
  - destruct (String.eqb_spec n k) as [->|Hne]; cbn.
    + intuition.
    + rewrite IH. intuition.
Qed.

Lemma table_of_strip st n :
  table_of (strip_store st) n = strip_table (table_of st n).
Proof.
  induction st as [|[m t] st IH]; cbn; [reflexivity|].
  destruct (String.eqb n m); [reflexivity | exact IH].
Qed.

Lemma store_set_strip st n t :
  strip_store (store_set st n t) = store_set (strip_store st) n (strip_table t).
Proof.
  induction st as [|[m t'] st IH]; cbn; [reflexivity|].
  destruct (String.eqb n m); cbn; [reflexivity | f_equal; apply IH].
Qed.

Section Batches.
Variable cols : list string.

Lemma apply_batch_strip n rows st :
  ~ In "updated_at" cols ->
  strip_store (apply_batch cols n rows st)
  = apply_batch cols n (map strip_ts rows) (strip_store st).
Proof.
  intros Hts. unfold apply_batch.
  now rewrite store_set_strip, table_of_strip, upsert_rows_strip.
Qed.

Lemma apply_batch_app n r1 r2 st :
  apply_batch cols n r2 (apply_batch cols n r1 st)
  = apply_batch cols n (r1 ++ r2) st.
Proof.
  unfold apply_batch.
  now rewrite table_of_set_same, store_set_set, upsert_rows_app.
Qed.

Lemma batch_app n r1 r2 st :
  batch cols n r2 (batch cols n r1 st) = batch cols n (r1 ++ r2) st.
Proof.
  destruct r1 as [|x r1]; [reflexivity|].
  destruct r2 as [|y r2]; [now rewrite app_nil_r|].
  cbn [batch app]. apply (apply_batch_app n (x :: r1) (y :: r2)).
Qed.

Lemma batch_cons n r rows st :
  batch cols n (r :: rows) st = apply_batch cols n (r :: rows) st.
Proof. reflexivity. Qed.

Lemma table_of_batch_other n m rows st :
  m <> n -> table_of (batch cols n rows st) m = table_of st m.
Proof.
  intros Hne. destruct rows; [reflexivity|].
  unfold batch, apply_batch. now apply table_of_set_other.
Qed.

Lemma names_batch n m rows st :
  In m (map fst st) -> In m (map fst (batch cols n rows st)).
Proof.
  intros Hin. destruct rows; [exact Hin|].
  unfold batch, apply_batch. apply names_store_set. now right.
Qed.

(** A batch that the store has seen leaves it as it is. *)
Lemma batch_absorbed n rows st t0 :
  (rows <> [] -> In n (map fst st)) ->
  table_of st n = upsert_rows cols t0 rows ->
  batch cols n rows st = st.
Proof.
  intros Hname Htable. destruct rows as [|r rows]; [reflexivity|].
  unfold batch, apply_batch.
  rewrite Htable, upsert_rows_idempotent, <- Htable.
  apply store_set_same. apply Hname. discriminate.
Qed.

Lemma batch_seen n rows st :
  (rows <> [] -> In n (map fst (batch cols n rows st))) /\
  table_of (batch cols n rows st) n = upsert_rows cols (table_of st n) rows.
Proof.
  destruct rows as [|r rows]; [split; [congruence | reflexivity]|].
  unfold batch, apply_batch. split.
  - intros _. apply names_store_set. now left.
  - apply table_of_set_same.
Qed.

End Batches.

(** The three datasets of [ingest_core], written once or twice, leave the
    same store. *)
Lemma three_batches_idempotent c1 c2 c3 n1 n2 n3 r1 r2 r3 st :
  n1 <> n2 -> n1 <> n3 -> n2 <> n3 ->
  batch c3 n3 r3 (batch c2 n2 r2 (batch c1 n1 r1
    (batch c3 n3 r3 (batch c2 n2 r2 (batch c1 n1 r1 st)))))
  = batch c3 n3 r3 (batch c2 n2 r2 (batch c1 n1 r1 st)).
Proof.
  intros H12 H13 H23.
  assert (A1 : batch c1 n1 r1
                 (batch c3 n3 r3 (batch c2 n2 r2 (batch c1 n1 r1 st)))
               = batch c3 n3 r3 (batch c2 n2 r2 (batch c1 n1 r1 st))).
  { apply (batch_absorbed c1 n1 r1 _ (table_of st n1)).
    - intros Hne. apply names_batch, names_batch.
      now apply batch_seen.
    - rewrite !table_of_batch_other by congruence.
      apply batch_seen. }
  assert (A2 : batch c2 n2 r2
                 (batch c3 n3 r3 (batch c2 n2 r2 (batch c1 n1 r1 st)))
               = batch c3 n3 r3 (batch c2 n2 r2 (batch c1 n1 r1 st))).
  { apply (batch_absorbed c2 n2 r2 _ (table_of (batch c1 n1 r1 st) n2)).
    - intros Hne. apply names_batch. now apply batch_seen.
    - rewrite table_of_batch_other by congruence.
      apply batch_seen. }
  assert (A3 : batch c3 n3 r3
                 (batch c3 n3 r3 (batch c2 n2 r2 (batch c1 n1 r1 st)))
               = batch c3 n3 r3 (batch c2 n2 r2 (batch c1 n1 r1 st))).
  { apply (batch_absorbed c3 n3 r3 _
             (table_of (batch c2 n2 r2 (batch c1 n1 r1 st)) n3)).
    - intros Hne. now apply batch_seen.
    - apply batch_seen. }
  now rewrite A1, A2, A3.
Qed.

End StoreFacts.

(* ================================================================== *)
(** * Running the ingestion twice *)
(* ================================================================== *)

Module RerunFacts.
Import Py Runtime Client Supabase Ingestor Spec ClientFacts StoreFacts.

Section Fetch.
Variable E : Env.
Variable self : BallDontLieNFLClient.
Hypothesis fixture : stationary E.

Lemma stepped_tables s s' evs : stepped s s' evs -> tables s' = tables s.
Proof. now intros (_ & _ & H & _). Qed.

Lemma sleep_outcome who d s :
  exists s',
    _sleep E who d s
    = ((if Qlt_bool d 0
        then Raise (ValueError "sleep length must be non-negative")
        else Ok tt), s') /\
    tables s' = tables s.
Proof.
  unfold _sleep. destruct (Qlt_bool d 0); eexists; split; reflexivity.
Qed.

(** Against an unchanged fixture the result of the retry loop does not
    depend on the state of the process. *)
Lemma attempts_oblivious req : forall left a,
  exists res, forall s,
    exists s', attempts E self req a left s = (res, s') /\
               tables s' = tables s.
Proof.
  induction left as [|left IH]; intros a.
  - eexists. intros s. eexists. split; reflexivity.
  - destruct (IH (a + 1)%Z) as (res' & Hres').
    assert (Hturn : forall s, exists s2,
              tables s2 = tables s /\
              attempts E self req a (S left) s =
              on_outcome E self (attempts E self req (a + 1) left) req a
                         (upstream E 0 req) s2).
    { intros s. destruct (attempts_turn E self req a left s) as (s2 & Hst & Heq).
      exists s2. split; [eapply stepped_tables; eauto|].
      now rewrite Heq, (fixture (calls s) 0%nat). }
    assert (Hcont : forall d,
              exists res, forall s2, exists s',
                bind (_sleep E ByClient d)
                     (fun _ => attempts E self req (a + 1) left) s2 = (res, s')
                /\ tables s' = tables s2).
    { intros d. destruct (Qlt_bool d 0) eqn:Hd.
      - eexists. intros s2. destruct (sleep_outcome ByClient d s2) as (s3 & Hs & Ht).
        rewrite Hd in Hs. exists s3. unfold bind. rewrite Hs. auto.
      - exists res'. intros s2.
        destruct (sleep_outcome ByClient d s2) as (s3 & Hs & Ht).
        rewrite Hd in Hs. destruct (Hres' s3) as (s' & Hgo & Ht').
        exists s'. unfold bind. rewrite Hs. split; [exact Hgo | congruence]. }
    assert (Hall : exists res, forall s2, exists s',
              on_outcome E self (attempts E self req (a + 1) left) req a
                         (upstream E 0 req) s2 = (res, s') /\
              tables s' = tables s2).
    { destruct (upstream E 0 req) as [e|r]; cbn [on_outcome].
      - destruct (a >=? _max_retries self)%Z.
        + eexists. intros s2. eexists. split; reflexivity.
        + apply Hcont.
      - destruct (status_code r =? 429)%Z.
        + unfold retry_delay.
          destruct (retry_after r) as [|q|].
          * destruct (Hcont backoff) as (res & Hres). exists res. exact Hres.
          * destruct (Hcont q) as (res & Hres). exists res. exact Hres.
          * eexists. intros s2. eexists. split; reflexivity.
        + destruct (negb (ok r)).
          * eexists. intros s2. eexists. split; reflexivity.
          * unfold json. destruct (body r);
              eexists; intros s2; eexists; split; reflexivity. }
    destruct Hall as (res & Hres). exists res. intros s.
    destruct (Hturn s) as (s2 & Ht2 & Heq).
    destruct (Hres s2) as (s' & Hgo & Ht').
    exists s'. rewrite Heq. split; [exact Hgo | congruence].
Qed.

Lemma request_oblivious method path params :
  exists res, forall s,
    exists s', _request E self method path params s = (res, s') /\
               tables s' = tables s.
Proof. apply attempts_oblivious. Qed.

Lemma produces_items {A B} (view : A -> B) xs tail bs o :
  produces view tail bs o ->
  produces view (gen_items xs tail) (map view xs ++ bs) o.
Proof.
  intros H. induction xs as [|x xs IH]; cbn; [exact H|].
  now constructor.
Qed.

(** So [paginate] yields the same records whenever it is run. *)
Lemma paginate_produces path params : forall pages cursor,
  exists vals o,
    produces (fun v : Value => v)
             (paginate_from E self pages path params cursor) vals o.
Proof.
  induction pages as [|pages IH]; intros cursor.
  - exists [], EDiverge. constructor.
  - destruct (request_oblivious "GET" path (page_params self params cursor))
      as (res & Hres).
    assert (Hnode : forall g0 : Gen Value,
              (forall s, exists s',
                  (bind (_request E self "GET" path
                                  (page_params self params cursor))
                        (fun payload =>
                           bind (lift (py_get payload "data" (VList [])))
                                (fun data =>
                                   bind (lift (py_iter data))
                                        (fun rows =>
                                           ret (gen_items rows
                                                  match next_cursor_of payload with
                                                  | Ok None => GDone
                                                  | Ok (Some c) =>
                                                      paginate_from E self pages
                                                                    path params (Some c)
                                                  | Raise e => GRaise e
                                                  | Diverge => GDiverge
                                                  end))))) s
                  = (match g0 with
                     | GRaise e => Raise e
                     | GDiverge => Diverge
                     | g => Ok g
                     end, s') /\ tables s' = tables s) ->
              forall vals o,
                produces (fun v : Value => v) g0 vals o ->
                produces (fun v : Value => v)
                         (paginate_from E self (S pages) path params cursor)
                         vals o).
    { intros g0 Hrun vals o Hprod. cbn [paginate_from]. unfold gen_do.
      apply produces_effect.
      - intros s. destruct (Hrun s) as (s' & Heq & _). rewrite Heq.
        destruct g0; exact Hprod.
      - intros s. destruct (Hrun s) as (s' & Heq & Ht). rewrite Heq.
        destruct g0; exact Ht. }
    destruct res as [payload|e|].
    + destruct (py_get payload "data" (VList [])) as [data|e|] eqn:Hdata.
      * destruct (py_iter data) as [rows|e|] eqn:Hiter.
        -- assert (Htail : exists vals o,
                     produces (fun v : Value => v)
                       match next_cursor_of payload with
                       | Ok None => GDone
                       | Ok (Some c) =>
                           paginate_from E self pages path params (Some c)
                       | Raise e => GRaise e
                       | Diverge => GDiverge
                       end vals o).
           { destruct (next_cursor_of payload) as [[c|]|e|].
             - apply IH.
             - exists [], EDone. constructor.
             - exists [], (ERaise e). constructor.
             - exists [], EDiverge. constructor. }
           destruct Htail as (vals & o & Htail).
           exists (map (fun v : Value => v) rows ++ vals)%list, o.
           destruct rows as [|r rows].
           ++ (* an empty page: the node is the tail itself *)
              cbn [map app]. cbn [paginate_from]. unfold gen_do.
              apply produces_effect.
              ** intros s. destruct (Hres s) as (s' & Heq & _).
                 unfold bind at 1. rewrite Heq. unfold bind, lift, ret.
                 rewrite Hdata, Hiter. cbn [fst gen_items]. exact Htail.
              ** intros s. destruct (Hres s) as (s' & Heq & Ht).
                 unfold bind at 1. rewrite Heq. unfold bind, lift, ret.
                 rewrite Hdata, Hiter. exact Ht.
           ++ eapply (Hnode (gen_items (r :: rows) _)).
              ** intros s. destruct (Hres s) as (s' & Heq & Ht).
                 exists s'. unfold bind at 1. rewrite Heq.
                 unfold bind, lift, ret. rewrite Hdata, Hiter.
                 split; [reflexivity | exact Ht].
              ** apply produces_items. exact Htail.
        -- exists [], (ERaise e). eapply (Hnode (GRaise e)); [|constructor].
           intros s. destruct (Hres s) as (s' & Heq & Ht).
           exists s'. unfold bind at 1. rewrite Heq.
           unfold bind, lift. rewrite Hdata, Hiter. auto.
        -- exists [], EDiverge. eapply (Hnode GDiverge); [|constructor].
           intros s. destruct (Hres s) as (s' & Heq & Ht).
           exists s'. unfold bind at 1. rewrite Heq.
           unfold bind, lift. rewrite Hdata, Hiter. auto.
      * exists [], (ERaise e). eapply (Hnode (GRaise e)); [|constructor].
        intros s. destruct (Hres s) as (s' & Heq & Ht).
        exists s'. unfold bind at 1. rewrite Heq.
        unfold bind, lift. rewrite Hdata. auto.
      * exists [], EDiverge. eapply (Hnode GDiverge); [|constructor].
        intros s. destruct (Hres s) as (s' & Heq & Ht).
        exists s'. unfold bind at 1. rewrite Heq.
        unfold bind, lift. rewrite Hdata. auto.
    + exists [], (ERaise e). eapply (Hnode (GRaise e)); [|constructor].
      intros s. destruct (Hres s) as (s' & Heq & Ht).
      exists s'. unfold bind at 1. rewrite Heq. auto.
    + exists [], EDiverge. eapply (Hnode GDiverge); [|constructor].
      intros s. destruct (Hres s) as (s' & Heq & Ht).
      exists s'. unfold bind at 1. rewrite Heq. auto.
Qed.

End Fetch.

(** The mapped generator yields the same rows, timestamps apart. *)
Lemma gen_map_produces (f : Value -> M Dict) (sref : State) g vals o :
  stable f ->
  produces (fun v : Value => v) g vals o ->
  produces strip_ts (gen_map f g)
           (fst (mapped_view (fun v => strip_result (fst (f v sref))) vals o))
           (snd (mapped_view (fun v => strip_result (fst (f v sref))) vals o)).
Proof.
  intros Hf Hprod.
  induction Hprod as [|e| |a rest bs o _ IH|k bs o _ IH Htab]; cbn [gen_map].
  - constructor.
  - constructor.
  - constructor.
  - cbn [mapped_view].
    destruct (mapped_view (fun v => strip_result (fst (f v sref))) bs o)
      as [ds o'] eqn:Hview.
    cbn [fst snd] in IH.
    destruct (fst (f a sref)) as [b0|e0|] eqn:Href; cbn [strip_result fst snd].
    + apply produces_effect.
      * intros s. destruct (Hf a s sref) as [Heq _]. rewrite Href in Heq.
        destruct (f a s) as [[b|e|] s']; cbn [strip_result fst] in Heq;
          try discriminate.
        assert (Hb : strip_ts b = strip_ts b0) by congruence.
        cbn [fst]. rewrite <- Hb. now constructor.
      * intros s. destruct (Hf a s sref) as [Heq Ht]. rewrite Href in Heq.
        destruct (f a s) as [[b|e|] s']; cbn [strip_result fst] in Heq;
          try discriminate.
        exact Ht.
    + apply produces_effect.
      * intros s. destruct (Hf a s sref) as [Heq _]. rewrite Href in Heq.
        destruct (f a s) as [[b|e|] s']; cbn [strip_result fst] in Heq;
          try discriminate.
        inversion Heq; subst. constructor.
      * intros s. destruct (Hf a s sref) as [Heq Ht]. rewrite Href in Heq.
        destruct (f a s) as [[b|e|] s']; cbn [strip_result fst] in Heq;
          try discriminate.
        exact Ht.
    + apply produces_effect.
      * intros s. destruct (Hf a s sref) as [Heq _]. rewrite Href in Heq.
        destruct (f a s) as [[b|e|] s']; cbn [strip_result fst] in Heq;
          try discriminate.
        constructor.
      * intros s. destruct (Hf a s sref) as [Heq Ht]. rewrite Href in Heq.
        destruct (f a s) as [[b|e|] s']; cbn [strip_result fst] in Heq;
          try discriminate.
        exact Ht.
  - apply produces_effect.
    + intros s. specialize (IH s). destruct (k s) as [g' s']. exact IH.
    + intros s. specialize (Htab s). destruct (k s) as [g' s']. exact Htab.
Qed.

Section Sink.
Variable E : Env.
Variables table on_conflict : string.
Hypothesis key_without_ts : ~ In "updated_at" (conflict_columns on_conflict).

Lemma upsert_effect rows s n s' :
  upsert E table rows on_conflict s = (Ok n, s') ->
  n = len rows /\
  tables s' = apply_batch (conflict_columns on_conflict) table rows (tables s).
Proof.
  unfold upsert. destruct (store_fault E (writes s)); [discriminate|].
  intros H. inversion H; subst. split; reflexivity.
Qed.

Lemma add_upsert_effect chunk acc s n s' :
  chunk <> [] ->
  add_upsert E table on_conflict chunk acc s = (Ok n, s') ->
  n = acc + len chunk /\
  strip_store (tables s')
  = batch (conflict_columns on_conflict) table (map strip_ts chunk)
          (strip_store (tables s)).
Proof.
  intros Hne. unfold add_upsert, bind, ret.
  destruct (upsert E table chunk on_conflict s) as [[m| |] s1] eqn:Hup;
    try discriminate.
  intros H. inversion H; subst.
  destruct (upsert_effect chunk s m s' Hup) as [-> Ht].
  split; [reflexivity|].
  rewrite Ht, apply_batch_strip by exact key_without_ts.
  destruct chunk; [contradiction | reflexivity].
Qed.

(** The chunked upsert loop over a generator writes, all in all, the rows
    that the generator yields. *)
Lemma chunked_upsert_effect {g rows o} size :
  produces strip_ts g rows o ->
  forall buf acc s n s',
    for_each (_chunked_from g size buf) (add_upsert E table on_conflict) acc s
    = (Ok n, s') ->
    strip_store (tables s')
    = batch (conflict_columns on_conflict) table
            (map strip_ts buf ++ rows) (strip_store (tables s)) /\
    n = acc + len buf + len rows.
Proof.
  unfold for_each, block_result.
  intros Hprod.
  induction Hprod as [|e| |a rest bs o _ IH|k bs o _ IH Htab];
    intros buf acc s n s'; cbn [_chunked_from].
  - destruct buf as [|b buf].
    + cbn. intros H; inversion H; subst. split; [reflexivity|unfold len; cbn; lia].
    + cbn [run_loop].
      destruct (add_upsert E table on_conflict (b :: buf) acc s)
        as [[m| |] s1] eqn:Hup; try discriminate.
      cbn [run_loop]. intros H; inversion H; subst.
      destruct (add_upsert_effect (b :: buf) acc s n s' ltac:(discriminate) Hup)
        as [-> Hst].
      rewrite app_nil_r. split; [exact Hst | unfold len; cbn; lia].
  - cbn. discriminate.
  - cbn. discriminate.
  - destruct (len (buf ++ [a]) >=? size).
    + cbn [run_loop].
      destruct (add_upsert E table on_conflict (buf ++ [a]) acc s)
        as [[m| |] s1] eqn:Hup; try discriminate.
      intros H.
      destruct (add_upsert_effect (buf ++ [a]) acc s m s1
                  ltac:(now destruct buf) Hup) as [-> Hst].
      destruct (IH [] (acc + len (buf ++ [a])) s1 n s' H) as [Hst' ->].
      split.
      * rewrite Hst', Hst. cbn [map app]. rewrite batch_app.
        rewrite map_app. cbn [map]. now rewrite <- app_assoc.
      * unfold len. rewrite !length_app. cbn. lia.
    + intros H. destruct (IH (buf ++ [a])%list acc s n s' H) as [Hst ->].
      split.
      * rewrite Hst. rewrite map_app. cbn [map]. now rewrite <- app_assoc.
      * unfold len. rewrite !length_app. cbn. lia.
  - cbn [run_loop]. specialize (IH s). specialize (Htab s).
    destruct (k s) as [g' s1]. cbn [fst snd] in IH, Htab.
    intros H. destruct (IH buf acc s1 n s' H) as [Hst ->].
    split; [now rewrite Hst, Htab | reflexivity].
Qed.

End Sink.

(** ** The mappers *)

Ltac stable_mapper :=
  intros v s1 s2;
  unfold bind, lift, _now_iso, time_time, ret;
  destruct (as_dict v); cbn; split; reflexivity.

Lemma map_team_stable E : stable (map_team E).
Proof. unfold map_team. stable_mapper. Qed.

Lemma map_player_stable E : stable (map_player E).
Proof. unfold map_player. stable_mapper. Qed.

Lemma map_game_stable E : stable (map_game E).
Proof. unfold map_game. stable_mapper. Qed.

Lemma map_list_stable f xs :
  stable f ->
  forall s1 s2,
    strip_results (fst (map_list f xs s1))
    = strip_results (fst (map_list f xs s2)) /\
    tables (snd (map_list f xs s1)) = tables s1.
Proof.
  intros Hf. induction xs as [|x xs IH]; intros s1 s2; cbn [map_list].
  - split; reflexivity.
  - unfold bind at 1 3 5.
    destruct (Hf x s1 s2) as [Heq Ht1].
    destruct (f x s1) as [[y1|e1|] s1'], (f x s2) as [[y2|e2|] s2'];
      cbn [strip_result fst snd] in Heq, Ht1; try discriminate;
      cbn [fst snd]; try (split; [congruence | exact Ht1]).
    unfold bind.
    destruct (IH s1' s2') as [Heq' Ht'].
    destruct (map_list f xs s1') as [[ys1|e1|] s1''],
             (map_list f xs s2') as [[ys2|e2|] s2''];
      cbn [strip_results fst snd] in Heq', Ht'; try discriminate;
      cbn [fst snd ret strip_results];
      try (split; [congruence | congruence]).
    split; [|congruence].
    cbn [map]. congruence.
Qed.

Section Core.
Variable E : Env.
Variable bdl : BallDontLieNFLClient.
Hypothesis fixture : stationary E.

Lemma id_key_without_ts : ~ In "updated_at" (conflict_columns "id").
Proof. cbn. intros [H|[]]. discriminate. Qed.

Lemma list_teams_oblivious :
  exists res, forall s,
    exists s', list_teams E bdl s = (res, s') /\ tables s' = tables s.
Proof.
  destruct (request_oblivious E bdl fixture "GET" "/teams" []) as (res & Hres).
  exists (rbind res (fun payload => py_get payload "data" (VList []))).
  intros s. destruct (Hres s) as (s' & Heq & Ht). exists s'.
  unfold list_teams, bind, lift. rewrite Heq.
  destruct res; cbn [rbind]; auto.
Qed.

(** What a run of [ingest_core] that ends leaves in the store: the rows of
    the three datasets, which the fixture fixes up to their timestamps. *)
Lemma ingest_core_effect seasons batch_size game_weeks :
  exists teams players games,
  forall s sum s',
    ingest_core E bdl seasons batch_size game_weeks s = (Ok sum, s') ->
    strip_store (tables s')
    = batch ["id"] "nfl_games" games
        (batch ["id"] "nfl_players" players
           (batch ["id"] "nfl_teams" teams (strip_store (tables s)))) /\
    sum = mkCoreIngestSummary (len teams) (len players) (len games).
Proof.
  pose (sref := fresh_state 0 0).
  destruct list_teams_oblivious as (resT & HresT).
  destruct (paginate_produces E bdl fixture "/players" [] (budget E) None)
    as (valsP & oP & HprodP).
  pose proof (gen_map_produces (map_player E) sref _ _ _
                (map_player_stable E) HprodP) as HP.
  destruct (paginate_produces E bdl fixture "/games"
              match game_weeks with
              | Some (w :: ws) =>
                  dict_set [("seasons[]", VList (map VInt seasons))] "weeks[]"
                           (VList (map VInt (w :: ws)))
              | _ => [("seasons[]", VList (map VInt seasons))]
              end (budget E) None)
    as (valsG & oG & HprodG).
  pose proof (gen_map_produces (map_game E) sref _ _ _
                (map_game_stable E) HprodG) as HG.
  exists (match rbind resT py_iter with
          | Ok vals =>
              match strip_results (fst (map_list (map_team E) vals sref)) with
              | Ok rows => rows
              | _ => []
              end
          | _ => []
          end),
         (fst (mapped_view (fun v => strip_result (fst (map_player E v sref)))
                           valsP oP)),
         (fst (mapped_view (fun v => strip_result (fst (map_game E v sref)))
                           valsG oG)).
  intros s sum s' Hrun.
  unfold ingest_core in Hrun.
  (* teams *)
  unfold bind at 1 in Hrun.
  destruct (HresT s) as (sa & HeqT & Hta). rewrite HeqT in Hrun.
  destruct resT as [teams_raw| |]; try discriminate.
  unfold bind at 1, lift in Hrun. cbn [rbind].
  destruct (py_iter teams_raw) as [vals| |]; try discriminate.
  unfold bind at 1 in Hrun.
  destruct (map_list_stable (map_team E) vals (map_team_stable E) sa sref)
    as [HeqR Htb].
  destruct (map_list (map_team E) vals sa) as [[teams_rows| |] sb];
    try discriminate.
  cbn [strip_results fst snd] in HeqR, Htb. rewrite <- HeqR.
  unfold bind at 1 in Hrun.
  assert (Hteams : exists nT sc,
            match teams_rows with
            | [] => ret 0
            | _ :: _ => upsert E "nfl_teams" teams_rows "id"
            end sb = (Ok nT, sc) /\
            nT = len teams_rows /\
            strip_store (tables sc)
            = batch ["id"] "nfl_teams" (map strip_ts teams_rows)
                    (strip_store (tables sb))).
  { destruct teams_rows as [|r rows].
    - exists 0, sb. repeat split.
    - destruct (upsert E "nfl_teams" (r :: rows) "id" sb)
        as [[nT| |] sc] eqn:Hup; try discriminate.
      exists nT, sc. split; [reflexivity|].
      destruct (upsert_effect E "nfl_teams" "id" (r :: rows) sb nT sc Hup)
        as [-> Ht].
      split; [reflexivity|].
      rewrite Ht. apply (apply_batch_strip ["id"]), id_key_without_ts. }
  destruct Hteams as (nT & sc & HeqU & -> & Hstc).
  rewrite HeqU in Hrun.
  (* players *)
  unfold bind at 1 in Hrun.
  destruct (for_each
              (_chunked (gen_map (map_player E) (iter_players E bdl))
                        batch_size)
              (add_upsert E "nfl_players" "id") 0 sc)
    as [[nP| |] sd] eqn:HrunP; try discriminate.
  destruct (chunked_upsert_effect E "nfl_players" "id" id_key_without_ts
              batch_size HP [] 0 sc nP sd HrunP) as [Hstd ->].
  (* games *)
  unfold bind at 1 in Hrun.
  destruct (for_each
              (_chunked (gen_map (map_game E)
                                 (iter_games E bdl seasons game_weeks))
                        batch_size)
              (add_upsert E "nfl_games" "id") 0 sd)
    as [[nG| |] se] eqn:HrunG; try discriminate.
  destruct (chunked_upsert_effect E "nfl_games" "id" id_key_without_ts
              batch_size HG [] 0 sd nG se HrunG) as [Hste ->].
  inversion Hrun; subst sum s'.
  split.
  - rewrite Hste, Hstd, Hstc, Htb, Hta. reflexivity.
  - unfold len. cbn [List.length]. rewrite length_map.
    f_equal; lia.
Qed.

End Core.

(** X1.  Re-running [ingest_core].  Against an upstream fixture that does not
    change, when [ingest_core] (teams, players, games) is run and then run
    again and both runs end, the store after the second run holds, table by
    table, the same number of rows and in every row the same value in every
    field other than [updated_at] as after the first run; the counts that
    the two runs report are equal. *)
Theorem ingest_core_rerun :
  forall (E : Env) (bdl : BallDontLieNFLClient) (seasons : list Z)
         (batch_size : Z) (game_weeks : option (list Z))
         (s0 s1 s2 : State) (sum1 sum2 : CoreIngestSummary),
    stationary E ->
    ingest_core E bdl seasons batch_size game_weeks s0 = (Ok sum1, s1) ->
    ingest_core E bdl seasons batch_size game_weeks s1 = (Ok sum2, s2) ->
    strip_store (tables s2) = strip_store (tables s1) /\
    (forall name,
        List.length (table_of (tables s2) name)
        = List.length (table_of (tables s1) name)) /\
    sum2 = sum1.
Proof.
  intros E bdl seasons batch_size game_weeks s0 s1 s2 sum1 sum2
         Hfix Hrun1 Hrun2.
  destruct (ingest_core_effect E bdl Hfix seasons batch_size game_weeks)
    as (teams & players & games & Heffect).
  destruct (Heffect s0 sum1 s1 Hrun1) as [Hst1 ->].
  destruct (Heffect s1 sum2 s2 Hrun2) as [Hst2 ->].
  assert (Hsame : strip_store (tables s2) = strip_store (tables s1)).
  { rewrite Hst2, Hst1.
    apply three_batches_idempotent; discriminate. }
  split; [exact Hsame|]. split; [|reflexivity].
  intros name.
  pose proof (f_equal (fun st => List.length (table_of st name)) Hsame) as Hlen.
  cbn beta in Hlen. rewrite !table_of_strip in Hlen.
  unfold strip_table in Hlen. now rewrite !length_map in Hlen.
Qed.

Lemma ingest_core_rerun_witness :
  strip_store (tables after_second_run) = strip_store (tables after_first_run) /\
  (forall name,
      List.length (table_of (tables after_second_run) name)
      = List.length (table_of (tables after_first_run) name)) /\
  mkCoreIngestSummary 1 1 1 = mkCoreIngestSummary 1 1 1.
Proof.
  refine (ingest_core_rerun core_env sample_client_for_core [2025] 500 None
            (fresh_state 1700000000 0.11) after_first_run after_second_run
            (mkCoreIngestSummary 1 1 1) (mkCoreIngestSummary 1 1 1) _ _ _).
  - intros n m req. reflexivity.
  - vm_compute. reflexivity.
  - vm_compute. reflexivity.
Defined.

(** The timestamps themselves do change from one run to the next: the
    mappers stamp every row with the time of the run. *)
Example rerun_changes_updated_at :
  map (fun r => get r "updated_at")
      (table_of (tables after_first_run) "nfl_teams") = [VStr "1700000002"] /\
  map (fun r => get r "updated_at")
      (table_of (tables after_second_run) "nfl_teams") = [VStr "1700000011"].
Proof. vm_compute. split; reflexivity. Qed.

End RerunFacts.

(* ================================================================== *)
(** * Batching, validation and defaults *)
(* ================================================================== *)

Module BatchFacts.
Import Py Runtime Ingestor Spec.

Section Chunks.
Context {A : Type}.
Variable size : Z.

Lemma len_app_one (buf : list A) (it : A) : len (buf ++ [it]) = len buf + 1.
Proof. unfold len. rewrite length_app. cbn. lia. Qed.

Lemma chunked_from_items (xs : list A) : forall buf,
  len buf < Z.max 1 size ->
  stops_with (_chunked_from (gen_of_list xs) size buf) = GDone /\
  List.concat (yielded (_chunked_from (gen_of_list xs) size buf)) = (buf ++ xs)%list /\
  Forall (fun c => 1 <= len c <= Z.max 1 size)
         (yielded (_chunked_from (gen_of_list xs) size buf)) /\
  Forall (fun c => len c = Z.max 1 size)
         (removelast (yielded (_chunked_from (gen_of_list xs) size buf))).
Proof.
  unfold gen_of_list.
  induction xs as [|x xs IH]; intros buf Hbuf; cbn [gen_items _chunked_from].
  - destruct buf as [|b buf]; cbn [stops_with yielded List.concat removelast].
    + repeat split; constructor.
    + rewrite !app_nil_r. repeat split; [|constructor].
      constructor; [|constructor].
      unfold len in *. cbn [List.length] in *. lia.
  - pose proof (len_app_one buf x) as Hlen.
    assert (Hpos : 0 <= len buf) by (unfold len; lia).
    destruct (Z.geb_spec (len (buf ++ [x])) size) as [Hge|Hlt].
    + assert (Hfull : len (buf ++ [x]) = Z.max 1 size) by lia.
      assert (H0 : len (@nil A) < Z.max 1 size) by (unfold len; cbn; lia).
      destruct (IH [] H0) as (S1 & S2 & S3 & S4).
      cbn [stops_with yielded List.concat].
      repeat split.
      * exact S1.
      * rewrite S2. cbn [app]. now rewrite <- app_assoc.
      * constructor; [lia|exact S3].
      * cbn [removelast].
        destruct (yielded (_chunked_from (gen_items xs GDone) size []))
          as [|c cs] eqn:Hy; [constructor|].
        constructor; [exact Hfull|exact S4].
    + assert (H1 : len (buf ++ [x]) < Z.max 1 size) by lia.
      destruct (IH (buf ++ [x])%list H1) as (S1 & S2 & S3 & S4).
      repeat split; auto.
      rewrite S2. now rewrite <- app_assoc.
Qed.

End Chunks.

(** X2.  [_chunked] cuts a list into batches without losing, repeating or
    reordering an item: the batches, one after the other, are the list; no
    batch is empty; the generator then ends. *)
Theorem chunked_concat :
  forall (A : Type) (xs : list A) (size : Z),
    stops_with (_chunked (gen_of_list xs) size) = GDone /\
    List.concat (yielded (_chunked (gen_of_list xs) size)) = xs /\
    Forall (fun c => c <> []) (yielded (_chunked (gen_of_list xs) size)).
Proof.
  intros A xs size.
  destruct (chunked_from_items size xs []) as (S1 & S2 & S3 & _).
  { unfold len; cbn. lia. }
  repeat split; [exact S1|exact S2|].
  eapply Forall_impl; [|exact S3].
  intros c Hc ->. unfold len in Hc; cbn in Hc. lia.
Qed.

(** X3.  Every batch of [_chunked] but the last holds exactly [size] items, and
    the last one between 1 and [size]; a [size] below 1 behaves as 1, so
    that every item is a batch of its own. *)
Theorem chunked_sizes :
  forall (A : Type) (xs : list A) (size : Z),
    Forall (fun c => len c = Z.max 1 size)
           (removelast (yielded (_chunked (gen_of_list xs) size))) /\
    Forall (fun c => 1 <= len c <= Z.max 1 size)
           (yielded (_chunked (gen_of_list xs) size)).
Proof.
  intros A xs size.
  destruct (chunked_from_items size xs []) as (_ & _ & S3 & S4).
  { unfold len; cbn. lia. }
  split; assumption.
Qed.

Section Validator.
Variable mapper : Dict -> Dict.
Variable required_fields : list string.
Variable abort_threshold : Z.

Lemma valid_rows_from_complete (rows : list Dict) : forall invalid,
  Forall (fun m => missing_required required_fields m = false)
         (yielded (_valid_rows_from (gen_of_list rows) mapper required_fields
                                    abort_threshold invalid)).
Proof.
  unfold gen_of_list.
  induction rows as [|r rows IH]; intros invalid;
    cbn [gen_items _valid_rows_from yielded].
  - constructor.
  - destruct (missing_required required_fields (mapper r)) eqn:Hm.
    + cbn zeta. destruct (invalid + 1 >? abort_threshold).
      * constructor.
      * apply IH.
    + cbn [yielded]. constructor; [exact Hm|apply IH].
Qed.

End Validator.

Lemma missing_required_false required_fields m :
  missing_required required_fields m = false ->
  forall f, In f required_fields -> get m f <> VNone.
Proof.
  unfold missing_required. intros H f Hin Hnone.
  assert (Ht : existsb (fun f => is_none (get m f)) required_fields = true).
  { apply existsb_exists. exists f. split; [exact Hin|]. now rewrite Hnone. }
  congruence.
Qed.

(** X4.  Whatever the threshold, and whether or not the run is aborted, every
    row that [_valid_rows] forwards carries a value other than [None] in
    each required field. *)
Theorem valid_rows_complete :
  forall (rows : list Dict) (mapper : option (Dict -> Dict))
         (required_fields : list string) (abort_threshold : Z),
    Forall (fun m => forall f, In f required_fields -> get m f <> VNone)
           (yielded (_valid_rows (gen_of_list rows) mapper required_fields
                                 abort_threshold)).
Proof.
  intros rows mapper required_fields abort_threshold.
  unfold _valid_rows.
  eapply Forall_impl;
    [|apply valid_rows_from_complete].
  intros m Hm. now apply missing_required_false.
Qed.

Section Defaults.

Lemma get_set_same d k v : get (dict_set d k v) k = v.
Proof.
  unfold get, dict_find, dict_set.
  induction d as [|[k' v'] d IH]; cbn [assoc_set assoc_find].
  - now rewrite String.eqb_refl.
  - destruct (String.eqb k k') eqn:Hk; cbn [assoc_find]; rewrite Hk;
      [reflexivity|exact IH].
Qed.

Lemma get_set_other d k v k' : k' <> k -> get (dict_set d k v) k' = get d k'.
Proof.
  unfold get, dict_find, dict_set. intros Hne.
  induction d as [|[k0 v0] d IH]; cbn [assoc_set assoc_find].
  - apply String.eqb_neq in Hne. now rewrite Hne.
  - destruct (String.eqb k k0) eqn:Hk; cbn [assoc_find].
    + apply String.eqb_eq in Hk. subst k0.
      apply String.eqb_neq in Hne. now rewrite Hne.
    + destruct (String.eqb k' k0); [reflexivity|exact IH].
Qed.

(** The value that a field has after the assignment [d[k] = v] made when
    the field was [None]. *)
Lemma get_fill d k v k' :
  get (if is_none (get d k) then dict_set d k v else d) k' =
  if String.eqb k' k then (if is_none (get d k) then v else get d k)
  else get d k'.
Proof.
  destruct (String.eqb k' k) eqn:Hk.
  - apply String.eqb_eq in Hk. subst k'.
    destruct (is_none (get d k)); [apply get_set_same|reflexivity].
  - apply String.eqb_neq in Hk.
    destruct (is_none (get d k)); [now apply get_set_other|reflexivity].
Qed.

End Defaults.

Lemma ensure_defaults_get mapped season week postseason k :
  get (_ensure_defaults mapped season week postseason) k =
  if is_none (get mapped k) then default_of season week postseason k
  else get mapped k.
Proof.
  unfold _ensure_defaults, default_of. cbn zeta.
  rewrite get_fill.
  destruct (String.eqb k "postseason") eqn:Hp.
  - apply String.eqb_eq in Hp. subst k.
    rewrite !get_fill. cbn [String.eqb Ascii.eqb Bool.eqb].
    destruct (is_none (get mapped "postseason")); reflexivity.
  - rewrite get_fill.
    destruct (String.eqb k "week") eqn:Hw.
    + apply String.eqb_eq in Hw. subst k.
      rewrite !get_fill. cbn [String.eqb Ascii.eqb Bool.eqb].
      destruct (is_none (get mapped "week")); reflexivity.
    + rewrite get_fill.
      destruct (String.eqb k "season") eqn:Hs.
      * apply String.eqb_eq in Hs. subst k.
        destruct (is_none (get mapped "season")); reflexivity.
      * destruct (get mapped k); reflexivity.
Qed.

(** X5.  [_ensure_defaults] never replaces a value: a field that holds
    something other than [None] keeps it; [season], [week] and [postseason]
    get the given default when they are missing or [None]; every other
    field reads as before. *)
Theorem ensure_defaults_fields :
  forall (mapped : Dict) (season week : Z) (postseason : bool) (k : string),
    get (_ensure_defaults mapped season week postseason) k =
    if is_none (get mapped k) then default_of season week postseason k
    else get mapped k.
Proof. intros. apply ensure_defaults_get. Qed.

(** X6.  In the advanced-statistics blocks, where [_ensure_defaults] is the
    mapper of [_valid_rows] and the required fields are [player_id],
    [season], [week] and [postseason], a row counts as invalid exactly when
    its [player_id] is missing or [None]. *)
Theorem ensure_defaults_validation :
  forall (mapped : Dict) (season week : Z) (postseason : bool),
    invalid_row ["player_id"; "season"; "week"; "postseason"]
                (Some (fun m => _ensure_defaults m season week postseason))
                mapped
    = is_none (get mapped "player_id").
Proof.
  intros mapped season week postseason.
  unfold invalid_row, mapper_or_id, missing_required.
  cbn [existsb].
  rewrite !ensure_defaults_get.
  unfold default_of. cbn [String.eqb Ascii.eqb Bool.eqb].
  destruct (get mapped "player_id"), (get mapped "season"),
    (get mapped "week"), (get mapped "postseason"); reflexivity.
Qed.

End BatchFacts.

(* ================================================================== *)
(** * More on the limiter, the retry loop and the pages *)
(* ================================================================== *)

Module RequestFacts.
Import Py Runtime Client Spec ClientFacts.
Local Open Scope Q_scope.

(** X7.  [RateLimiter.wait] sleeps at most once, and no longer than what is
    missing of the interval since the call it let through last; when the
    interval has passed already, or on its first call, it does not sleep. *)
Theorem wait_sleep_bounded :
  forall (E : Env) (s : State),
    (forall n, 0 <= drift E n) ->
    exists s' evs,
      wait E s = (Ok tt, s') /\
      trace s' = (trace s ++ evs)%list /\
      (evs = [] \/
       exists d, evs = [EvSleep ByLimiter d] /\ 0 < d /\
                 d <= min_interval_seconds (rl s)
                      - (clock s - _last_ts (rl s))) /\
      (_last_ts (rl s) <= 0 \/
       min_interval_seconds (rl s) <= clock s - _last_ts (rl s) ->
       evs = []).
Proof.
  intros E s Hdrift.
  pose proof (Hdrift (ticks s)) as D0.
  unfold wait, bind, time_time, get_rl, set_last_ts, _sleep, ret; cbn.
  destruct (Qle_bool (_last_ts (rl s)) 0) eqn:Hfirst.
  - exists (mkState (clock s + drift E (ticks s)) (S (ticks s)) (calls s)
                    (writes s)
                    (mkRateLimiter (min_interval_seconds (rl s))
                                   (clock s + drift E (ticks s)))
                    (trace s) (tables s)), [].
    rewrite app_nil_r. repeat split; auto.
  - set (remaining := min_interval_seconds (rl s)
                      - (clock s + drift E (ticks s) - _last_ts (rl s))).
    assert (Hlater : ~ _last_ts (rl s) <= 0).
    { intros H. apply Qle_bool_iff in H. congruence. }
    destruct (Qlt_bool 0 remaining) eqn:Hrem; cbn.
    + apply Qlt_bool_iff in Hrem.
      assert (Hneg : Qlt_bool remaining 0 = false)
        by (apply Qlt_bool_false; lra).
      rewrite Hneg; cbn.
      eexists. exists [EvSleep ByLimiter remaining].
      split; [reflexivity|]. split; [reflexivity|]. split.
      * right. exists remaining. split; [reflexivity|].
        split; [exact Hrem|]. subst remaining. lra.
      * intros [H|H]; [contradiction|]. subst remaining. lra.
    + eexists. exists []. rewrite app_nil_r.
      split; [reflexivity|]. split; [reflexivity|]. split; auto.
Qed.

Lemma wait_sleep_bounded_witness :
  exists s' evs,
    wait offline_env recently_called = (Ok tt, s') /\
    trace s' = (trace recently_called ++ evs)%list /\
    (evs = [] \/
     exists d, evs = [EvSleep ByLimiter d] /\ 0 < d /\
               d <= min_interval_seconds (rl recently_called)
                    - (clock recently_called - _last_ts (rl recently_called))) /\
    (_last_ts (rl recently_called) <= 0 \/
     min_interval_seconds (rl recently_called)
     <= clock recently_called - _last_ts (rl recently_called) ->
     evs = []).
Proof.
  apply (wait_sleep_bounded offline_env recently_called).
  intros n. cbn. lra.
Defined.

Section Bound.
Variable E : Env.
Variable self : BallDontLieNFLClient.

(** The client's own sleep: refused, or traced. *)
Lemma client_sleep_cases d s :
  (_sleep E ByClient d s
   = (Raise (ValueError "sleep length must be non-negative"), s)) \/
  (exists s', _sleep E ByClient d s = (Ok tt, s') /\
              stepped s s' [EvSleep ByClient d]).
Proof.
  destruct (Qlt_bool d 0) eqn:Hd.
  - left. unfold _sleep. now rewrite Hd.
  - right. apply client_sleep. now apply Qlt_bool_false.
Qed.

Lemma attempts_bounded req : forall left a s,
  exists evs,
    stepped s (snd (attempts E self req a left s)) evs /\
    sends req left evs.
Proof.
  induction left as [|left IH]; intros a s.
  - exists []. split; [apply stepped_refl|].
    split; [cbn; lia|]. split; constructor.
  - destruct (attempts_turn E self req a left s) as (s2 & Hst & Hturn).
    rewrite Hturn.
    assert (Hstop : exists evs,
               stepped s s2 evs /\ sends req (S left) evs).
    { exists [EvRequest req]. split; [exact Hst|].
      split; [cbn; lia|]. split; repeat constructor. }
    assert (Hcont : forall d,
               exists evs,
                 stepped s
                   (snd (bind (_sleep E ByClient d)
                              (fun _ => attempts E self req (a + 1) left) s2))
                   evs /\
                 sends req (S left) evs).
    { intros d. unfold bind.
      destruct (client_sleep_cases d s2) as [Hr|(s3 & Hs & Hst3)].
      - rewrite Hr. exact Hstop.
      - rewrite Hs.
        destruct (IH (a + 1)%Z s3) as (evs & Hst4 & Hlen & Hall & Hkind).
        exists (([EvRequest req] ++ [EvSleep ByClient d]) ++ evs)%list.
        split.
        + eapply stepped_trans; [|exact Hst4].
          eapply stepped_trans; eauto.
        + split; [|split].
          * rewrite requests_of_app, length_app. cbn. lia.
          * rewrite requests_of_app. cbn. constructor; auto.
          * cbn. repeat constructor. exact Hkind. }
    destruct (upstream E (calls s) req) as [e|r]; cbn [on_outcome].
    + destruct (a >=? _max_retries self)%Z; [exact Hstop|apply Hcont].
    + destruct (status_code r =? 429)%Z.
      * unfold retry_delay.
        destruct (retry_after r) as [|q|].
        -- apply (Hcont backoff).
        -- apply (Hcont q).
        -- exact Hstop.
      * destruct (negb (ok r)); [exact Hstop|].
        unfold json. destruct (body r); exact Hstop.
Qed.

(** A request answered by an error status other than 429. *)
Lemma request_refused method path params s r :
  (0 <= _max_retries self)%Z ->
  upstream E (calls s) (mk_request self method path params) = Responds r ->
  status_code r <> 429%Z -> ok r = false ->
  exists s',
    _request E self method path params s
    = (Raise (BallDontLieError
                ("HTTP " ++ str_int (status_code r) ++ " for " ++ method
                 ++ " " ++ _base_url self ++ path)), s') /\
    stepped s s' [EvRequest (mk_request self method path params)].
Proof.
  intros Hmax Hresp H429 Hok.
  unfold _request.
  assert (Hn : Z.to_nat (_max_retries self + 1)
               = S (Z.to_nat (_max_retries self))) by lia.
  rewrite Hn.
  destruct (attempts_turn E self (mk_request self method path params) 0%Z
              (Z.to_nat (_max_retries self)) s) as (s2 & Hst & Hturn).
  exists s2. split; [|exact Hst].
  rewrite Hturn, Hresp. now apply on_outcome_http_error.
Qed.

End Bound.

(** X8.  However the upstream behaves, one call of [_request] sends at
    most [max_retries + 1] requests, all of them the request it was asked
    to make; besides the sleeps of the rate limiter it traces nothing else
    than these and its own sleeps, and it leaves the store alone. *)
Theorem request_bounded :
  forall (E : Env) (self : BallDontLieNFLClient) (method path : string)
         (params : Dict) (s : State),
    exists evs,
      stepped s (snd (_request E self method path params s)) evs /\
      (List.length (requests_of evs) <= Z.to_nat (_max_retries self + 1))%nat /\
      Forall (eq (mk_request self method path params)) (requests_of evs) /\
      Forall (fun ev => match ev with
                        | EvRequest _ | EvSleep ByClient _ => True
                        | _ => False
                        end) evs.
Proof.
  intros E self method path params s.
  unfold _request.
  destruct (attempts_bounded E self (mk_request self method path params)
              (Z.to_nat (_max_retries self + 1)) 0%Z s)
    as (evs & Hst & Hlen & Hall & Hkind).
  exists evs. auto.
Qed.

(** X9.  A client built with a negative [max_retries] never sends anything:
    every call of [_request] raises "Request failed" at once. *)
Theorem request_without_attempts :
  forall (E : Env) (self : BallDontLieNFLClient) (method path : string)
         (params : Dict) (s : State),
    (_max_retries self < 0)%Z ->
    _request E self method path params s
    = (Raise (BallDontLieError
                ("Request failed: " ++ method ++ " " ++ _base_url self
                 ++ path)), s).
Proof.
  intros E self method path params s Hneg.
  unfold _request.
  assert (Hn : Z.to_nat (_max_retries self + 1) = 0%nat) by lia.
  rewrite Hn. reflexivity.
Qed.

Lemma request_without_attempts_witness :
  _request offline_env client_without_attempts "GET" "/teams" []
           (fresh_state 1700000000 0.11)
  = (Raise (BallDontLieError
              "Request failed: GET https://api.balldontlie.io/nfl/v1/teams"),
     fresh_state 1700000000 0.11).
Proof.
  apply (request_without_attempts offline_env client_without_attempts
           "GET" "/teams" [] (fresh_state 1700000000 0.11)).
  reflexivity.
Defined.

(** X24.  A 429 whose [Retry-After] cannot be slept is not retried: when
    the header is not a number, [float] raises, and when it is negative,
    [time.sleep] does; either way [_request] ends with that [ValueError]
    after the one request, whatever retries are left. *)
Theorem request_bad_retry_after :
  forall (E : Env) (self : BallDontLieNFLClient) (method path : string)
         (params : Dict) (s : State) (r : Response),
    (0 <= _max_retries self)%Z ->
    upstream E (calls s) (mk_request self method path params) = Responds r ->
    status_code r = 429%Z ->
    (retry_after r = RA_malformed \/
     exists d, retry_after r = RA_seconds d /\ d < 0) ->
    exists s' msg,
      _request E self method path params s = (Raise (ValueError msg), s') /\
      stepped s s' [EvRequest (mk_request self method path params)].
Proof.
  intros E self method path params s r Hmax Hresp H429 Hbad.
  unfold _request.
  assert (Hn : Z.to_nat (_max_retries self + 1)
               = S (Z.to_nat (_max_retries self))) by lia.
  rewrite Hn.
  destruct (attempts_turn E self (mk_request self method path params) 0%Z
              (Z.to_nat (_max_retries self)) s) as (s2 & Hst & Hturn).
  rewrite Hturn, Hresp. cbn [on_outcome]. rewrite H429. cbn [Z.eqb Pos.eqb].
  unfold bind at 1, retry_delay.
  destruct Hbad as [Hmal|(d & Hd & Hneg)].
  - rewrite Hmal. exists s2. eexists. split; [reflexivity|exact Hst].
  - rewrite Hd. unfold ret, bind, _sleep.
    apply Qlt_bool_iff in Hneg. rewrite Hneg.
    exists s2. eexists. split; [reflexivity|exact Hst].
Qed.

Lemma request_bad_retry_after_witness :
  exists s' msg,
    _request negative_retry_after_env sample_client "GET" "/teams" []
             (fresh_state 1700000000 0.11)
    = (Raise (ValueError msg), s') /\
    stepped (fresh_state 1700000000 0.11) s'
            [EvRequest (mk_request sample_client "GET" "/teams" [])].
Proof.
  apply (request_bad_retry_after negative_retry_after_env sample_client
           "GET" "/teams" [] (fresh_state 1700000000 0.11)
           (mkResponse 429 (RA_seconds (-1)) None)).
  - vm_compute. discriminate.
  - reflexivity.
  - reflexivity.
  - right. exists (-1). split; [reflexivity|reflexivity].
Defined.

Section Pages.
Variable E : Env.
Variable self : BallDontLieNFLClient.
Hypothesis retries_nonneg : (0 <= _max_retries self)%Z.
Variables (path : string) (params : Dict).

Lemma served_request n cursor page rows s :
  served E self path params n cursor page rows -> n = calls s ->
  exists s1,
    _request E self "GET" path (page_params self params cursor) s
    = (Ok (VDict page), s1) /\
    calls s1 = S (calls s) /\ tables s1 = tables s /\
    dict_find page "data" = Some (VList rows).
Proof.
  intros (resp & Hup & Hst & Hbody & Hdata) ->.
  destruct (request_good E self retries_nonneg "GET" path
              (page_params self params cursor) s resp (VDict page))
    as (s1 & Hreq & Hstep); auto.
  - rewrite Hst. discriminate.
  - unfold ok. now rewrite Hst.
  - exists s1. split; [exact Hreq|].
    destruct Hstep as (C & _ & T & _). cbn in C.
    repeat split; auto. lia.
Qed.


Lemma received_items {A} (xs : list A) (tail : Gen A) : forall acc s,
  run_loop (gen_items xs tail) (fun a acc => ret (acc ++ [a])%list) acc s =
  run_loop tail (fun a acc => ret (acc ++ [a])%list) (acc ++ xs)%list s.
Proof.
  induction xs as [|x xs IH]; intros acc s; cbn [gen_items run_loop].
  - now rewrite app_nil_r.
  - unfold ret at 1. rewrite IH. now rewrite <- app_assoc.
Qed.

Lemma received_turn {S} (body : Value -> S -> M S) fuel cursor acc s s1 page
      rows :
  _request E self "GET" path (page_params self params cursor) s
  = (Ok (VDict page), s1) ->
  dict_find page "data" = Some (VList rows) ->
  run_loop (paginate_from E self (Datatypes.S fuel) path params cursor)
           body acc s =
  run_loop (gen_items rows
              match next_cursor_of (VDict page) with
              | Ok None => GDone
              | Ok (Some c) => paginate_from E self fuel path params (Some c)
              | Raise e => GRaise e
              | Diverge => GDiverge
              end) body acc s1.
Proof.
  intros Hreq Hdata.
  cbn [paginate_from gen_do run_loop]. unfold bind at 1. rewrite Hreq.
  unfold bind, lift, ret; cbn [py_get]. unfold get_default. rewrite Hdata.
  cbn [py_iter]. reflexivity.
Qed.

Lemma received_failure {S} (body : Value -> S -> M S) fuel cursor acc s s1 e :
  _request E self "GET" path (page_params self params cursor) s
  = (Raise e, s1) ->
  run_loop (paginate_from E self (Datatypes.S fuel) path params cursor)
           body acc s = ((acc, Raise e), s1).
Proof.
  intros Hreq.
  cbn [paginate_from gen_do run_loop]. unfold bind at 1. rewrite Hreq.
  reflexivity.
Qed.

Lemma received_chain pages : forall fuel cursor acc s c r,
  (List.length pages < fuel)%nat ->
  chain E self path params (calls s) cursor pages (Some c) ->
  upstream E (calls s + List.length pages)
           (mk_request self "GET" path (page_params self params (Some c)))
  = Responds r ->
  status_code r <> 429%Z -> ok r = false ->
  exists s',
    run_loop (paginate_from E self fuel path params cursor)
             (fun a acc => ret (acc ++ [a])%list) acc s
    = ((acc ++ List.concat (map snd pages),
        Raise (BallDontLieError
                 ("HTTP " ++ str_int (status_code r) ++ " for GET "
                  ++ _base_url self ++ path)))%list, s') /\
    calls s' = S (calls s + List.length pages).
Proof.
  induction pages as [|[page rows] rest IH];
    intros fuel cursor acc s c r Hfuel Hchain Hup H429 Hok.
  - contradiction.
  - destruct fuel as [|fuel]; [lia|].
    destruct Hchain as [Hserved Hrest].
    destruct (served_request _ cursor page rows s Hserved eq_refl)
      as (s1 & Hreq & Hcalls & Htab & Hdata).
    rewrite (received_turn _ fuel cursor acc s s1 page rows Hreq Hdata).
    rewrite received_items.
    destruct rest as [|p rest'].
    + rewrite Hrest.
      destruct fuel as [|fuel]; [cbn in Hfuel; lia|].
      cbn [List.length] in Hup.
      replace (calls s + 1)%nat with (calls s1) in Hup by lia.
      destruct (request_refused E self "GET" path
                  (page_params self params (Some c)) s1 r
                  retries_nonneg Hup H429 Hok) as (s2 & Hreq2 & Hstep2).
      rewrite (received_failure _ fuel (Some c) _ s1 s2 _ Hreq2).
      exists s2. cbn [map List.concat snd List.length].
      rewrite app_nil_r. split; [reflexivity|].
      destruct Hstep2 as (C & _). cbn in C. lia.
    + destruct Hrest as (c' & Hnext & Hchain').
      rewrite Hnext. rewrite <- Hcalls in Hchain'.
      destruct (IH fuel (Some c') (acc ++ rows)%list s1 c r)
        as (s' & Hrun & Hcalls'); auto.
      { cbn [List.length] in *. lia. }
      { rewrite <- Hup. f_equal. cbn [List.length]. lia. }
      rewrite Hrun. exists s'.
      cbn [map List.concat snd List.length] in *.
      split; [now rewrite <- app_assoc | lia].
Qed.

End Pages.



(** X11.  [paginate] is lazy: a [for] loop over it has run its body on every
    record of the pages fetched so far when the request for the next page
    fails, here by an error status other than 429; the exception then
    leaves the loop. *)
Theorem paginate_partial :
  forall (E : Env) (self : BallDontLieNFLClient) (path : string)
         (params : Dict) (s : State) (pages : list (Dict * list Value))
         (c : Z) (r : Response),
    (0 <= _max_retries self)%Z ->
    (List.length pages < budget E)%nat ->
    chain E self path params (calls s) None pages (Some c) ->
    upstream E (calls s + List.length pages)
             (mk_request self "GET" path (page_params self params (Some c)))
    = Responds r ->
    status_code r <> 429%Z -> ok r = false ->
    exists s',
      received (paginate E self path params) s
      = ((List.concat (map snd pages),
          Raise (BallDontLieError
                   ("HTTP " ++ str_int (status_code r) ++ " for GET "
                    ++ _base_url self ++ path))), s') /\
      calls s' = S (calls s + List.length pages).
Proof.
  intros E self path params s pages c r Hmax Hbudget Hchain Hup H429 Hok.
  unfold received, paginate.
  destruct (received_chain E self Hmax path params pages (budget E) None []
              s c r Hbudget Hchain Hup H429 Hok) as (s' & Hrun & Hcalls).
  exists s'. split; [exact Hrun|exact Hcalls].
Qed.

Lemma paginate_partial_witness :
  exists s',
    received (paginate second_page_refused_env sample_client "/games"
                       [("seasons[]", VList [VInt 2025])])
             (fresh_state 1700000000 0.11)
    = ((List.concat
          (map snd [(games_page1, [VDict [("id", VInt 101)];
                                   VDict [("id", VInt 102)]])]),
        Raise (BallDontLieError
                 ("HTTP " ++ str_int 500 ++ " for GET "
                  ++ _base_url sample_client ++ "/games"))), s') /\
    calls s' = S (calls (fresh_state 1700000000 0.11) + 1).
Proof.
  apply (paginate_partial second_page_refused_env sample_client "/games"
           [("seasons[]", VList [VInt 2025])] (fresh_state 1700000000 0.11)
           [(games_page1, [VDict [("id", VInt 101)]; VDict [("id", VInt 102)]])]
           7%Z (mkResponse 500 RA_absent None)).
  - vm_compute. discriminate.
  - vm_compute. lia.
  - split; [eexists; repeat split; reflexivity|reflexivity].
  - reflexivity.
  - vm_compute. discriminate.
  - reflexivity.
Defined.

End RequestFacts.

(* ================================================================== *)
(** * More on the props *)
(* ================================================================== *)

Module PropFacts.
Import Py Runtime Client Supabase Spec FilterFacts DedupFacts.

Lemma ranked_between v p :
  assoc_find Extras.VENDOR_PRIORITY v = Some p -> 1 <= p <= 5.
Proof.
  unfold Extras.VENDOR_PRIORITY. cbn [assoc_find].
  repeat match goal with
         | |- context [String.eqb v ?k] => destruct (String.eqb v k)
         end;
    intros H; inversion H; lia.
Qed.

Lemma prop_map_get_some x db :
  Extras.prop_map_get x = Ok (Some db) ->
  exists raw, x = VStr raw /\ assoc_find Extras.PROP_MAP raw = Some db.
Proof.
  destruct x; cbn; try discriminate.
  intros H. inversion H. eauto.
Qed.

(** What a candidate looks like once mapped. *)
Lemma candidate_row E r m :
  candidate E r m ->
  1 <= priority m <= 5 /\
  get m "market_type" = VStr "over_under" /\
  (exists raw db, get r "prop_type" = VStr raw /\
                  assoc_find Extras.PROP_MAP raw = Some db /\
                  get m "prop_type" = VStr db) /\
  get m "player_id" = get r "player_id" /\
  truthy (get m "player_id") = true.
Proof.
  intros [Hvalid (s & s' & Hmap)].
  destruct (is_valid_prop_true r Hvalid)
    as (vendor & market & Hv & Hrank & Hmarket & Htype).
  destruct (map_player_prop_some E r s m s' Hmap)
    as (db & vendor' & market' & ts & Hdb & Hpid & Hv' & Hm' & ->).
  assert (vendor' = vendor) by congruence. subst vendor'.
  assert (market' = market).
  { unfold get in Hm'. rewrite Hmarket in Hm'. unfold py_or in Hm'.
    destruct market as [|kv market]; [discriminate|].
    cbn in Hm'. congruence. }
  subst market'.
  destruct (prop_map_get_some _ _ Hdb) as (raw & Hraw & Hfind).
  split; [|split; [|split; [|split]]].
  - unfold priority.
    change (get (Extras.prop_row r vendor db market ts) "vendor")
      with (VStr vendor).
    cbn [Extras.priority_of].
    destruct (assoc_find Extras.VENDOR_PRIORITY vendor) as [p|] eqn:Hp;
      [|congruence].
    now apply (ranked_between vendor).
  - change (get (Extras.prop_row r vendor db market ts) "market_type")
      with (get market "type").
    unfold get. now rewrite Htype.
  - exists raw, db. repeat split; auto.
  - reflexivity.
  - exact Hpid.
Qed.

(** X12.  Every row that [_get_best_props] returns belongs to a ranked vendor
    (priority 1 to 5), quotes an over/under market, carries a prop type
    that [PROP_MAP] produces and a player id that counts as true. *)
Theorem best_props_rows :
  forall (E : Env) (props : list Dict) (s s' : State) (out : list Dict)
         (m : Dict),
    Extras._get_best_props E props s = (Ok out, s') ->
    In m out ->
    1 <= priority m <= 5 /\
    get m "market_type" = VStr "over_under" /\
    (exists raw db, assoc_find Extras.PROP_MAP raw = Some db /\
                    get m "prop_type" = VStr db) /\
    truthy (get m "player_id") = true.
Proof.
  intros E props s s' out m Hrun Hin.
  unfold Extras._get_best_props, bind in Hrun.
  destruct (Extras.best_loop E props [] s) as [[bm|e|] s1] eqn:Hloop;
    try discriminate.
  inversion Hrun; subst out s1.
  destruct (best_inv_loop E props [] [] s bm s' (best_inv_start E) Hloop)
    as (_ & Hent & _).
  apply in_map_iff in Hin. destruct Hin as ([k m0] & Hm & Hin).
  cbn in Hm. subst m0.
  destruct (Hent k m Hin) as (_ & pre & r & post & _ & Hcand & _).
  destruct (candidate_row E r m Hcand)
    as (Hp & Hmt & (raw & db & _ & Hfind & Hpt) & _ & Hpid).
  repeat split; auto; try lia. eauto.
Qed.

Lemma best_props_rows_witness :
  1 <= priority (Extras.prop_row (prop_of 2 "draftkings" "over_under")
                   "draftkings" "player_pass_yds"
                   [("type", VStr "over_under"); ("over_odds", VInt (-110));
                    ("under_odds", VInt (-110))]
                   (VStr "2025-11-02T18:00:00Z")) <= 5.
Proof.
  refine (proj1 (best_props_rows offline_env three_vendors
                   (fresh_state 1700000000 0.11) (fresh_state 1700000000 0.11)
                   _ _ _ _)).
  - vm_compute. reflexivity.
  - left. reflexivity.
Defined.

(** X13.  A row that [map_player_prop] of the ingestor builds never carries both
    kinds of odds: with milestone odds it has neither over nor under odds,
    and the other way round. *)
Theorem map_player_prop_odds :
  forall (E : Env) (p : Value) (s s' : State) (row : Dict),
    Ingestor.map_player_prop E p s = (Ok row, s') ->
    get row "milestone_odds" = VNone \/
    (get row "over_odds" = VNone /\ get row "under_odds" = VNone).
Proof.
  intros E p s s' row.
  unfold Ingestor.map_player_prop, bind, lift, ret.
  destruct (as_dict p) as [d| |]; try discriminate.
  cbn [py_get].
  destruct (py_get (get_default d "market" (VDict [])) "type" (VStr ""))
    as [market_type| |]; try discriminate.
  destruct (as_dict (get_default d "market" (VDict []))) as [market| |];
    try discriminate.
  unfold Ingestor._now_iso, bind, time_time, ret.
  intros H. inversion H; subst row. clear H.
  destruct (eq_str market_type "over_under") eqn:Hou.
  - apply eq_str_true in Hou. subst market_type. left. reflexivity.
  - right. split; reflexivity.
Qed.

Lemma map_player_prop_odds_witness :
  get (match fst (Ingestor.map_player_prop offline_env milestone_prop
                    (fresh_state 1700000000 0.11)) with
       | Ok row => row
       | _ => []
       end) "milestone_odds" = VNone \/
  (get (match fst (Ingestor.map_player_prop offline_env milestone_prop
                     (fresh_state 1700000000 0.11)) with
        | Ok row => row
        | _ => []
        end) "over_odds" = VNone /\
   get (match fst (Ingestor.map_player_prop offline_env milestone_prop
                     (fresh_state 1700000000 0.11)) with
        | Ok row => row
        | _ => []
        end) "under_odds" = VNone).
Proof.
  refine (map_player_prop_odds offline_env milestone_prop
            (fresh_state 1700000000 0.11) _ _ _).
  vm_compute. reflexivity.
Defined.

Lemma should_ingest_prop_raises v e :
  Ingestor.should_ingest_prop v = Raise e ->
  e = AttributeError "object has no attribute 'get'".
Proof.
  unfold Ingestor.should_ingest_prop.
  destruct v; cbn [py_get rbind]; try (intros H; inversion H; reflexivity).
  destruct (get_default kv "market" (VDict [])); cbn [py_get rbind];
    try (intros H; inversion H; reflexivity).
  destruct (eq_str _ "over_under"); [discriminate|].
  destruct (_ && _); discriminate.
Qed.

Lemma should_ingest_prop_returns v :
  Ingestor.should_ingest_prop v <> Diverge.
Proof.
  unfold Ingestor.should_ingest_prop.
  destruct v; cbn [py_get rbind]; try discriminate.
  destruct (get_default kv "market" (VDict [])); cbn [py_get rbind];
    try discriminate.
  destruct (eq_str _ "over_under"); [discriminate|].
  destruct (_ && _); discriminate.
Qed.

Lemma null_market_raises prop :
  dict_find prop "market" = Some VNone ->
  Ingestor.should_ingest_prop (VDict prop)
  = Raise (AttributeError "object has no attribute 'get'").
Proof.
  intros H. unfold Ingestor.should_ingest_prop. cbn [py_get rbind].
  unfold get_default. rewrite H. reflexivity.
Qed.

Lemma filter_list_raises raw_props v :
  In v raw_props ->
  Ingestor.should_ingest_prop v
  = Raise (AttributeError "object has no attribute 'get'") ->
  filter_list Ingestor.should_ingest_prop raw_props
  = Raise (AttributeError "object has no attribute 'get'").
Proof.
  induction raw_props as [|x xs IH]; intros Hin Hv; [contradiction|].
  cbn [filter_list].
  destruct (Ingestor.should_ingest_prop x) as [b|e|] eqn:Hx; cbn [rbind].
  - destruct Hin as [->|Hin]; [congruence|].
    now rewrite (IH Hin Hv).
  - now rewrite (should_ingest_prop_raises x e Hx).
  - now apply should_ingest_prop_returns in Hx.
Qed.

(** X14.  [should_ingest_prop] reads the market with [prop.get("market", {})],
    whose default does not cover a market that is present and [None]: when
    the props fetched for a game hold such a record, the [AttributeError]
    is not among the exceptions that [ingest_player_props_filtered] skips,
    and the run ends with it at that game, nothing of the game stored. *)
Theorem props_null_market_aborts :
  forall (E : Env) (bdl : BallDontLieNFLClient) (game_id : Z)
         (later : list Z) (vendors : option (list string)) (batch_size : Z)
         (s s1 : State) (raw_props : list Value) (prop : Dict),
    to_list (iter_player_props E bdl game_id vendors) s = (Ok raw_props, s1) ->
    In (VDict prop) raw_props ->
    dict_find prop "market" = Some VNone ->
    Ingestor.ingest_player_props_filtered E bdl (game_id :: later) vendors
                                          batch_size s
    = (Raise (AttributeError "object has no attribute 'get'"), s1).
Proof.
  intros E bdl game_id later vendors batch_size s s1 raw_props prop
         Hfetch Hin Hnull.
  unfold Ingestor.ingest_player_props_filtered, for_each, block_result,
    gen_of_list.
  cbn [gen_items run_loop].
  unfold block_result, try_block, Ingestor.props_of_game.
  unfold bind at 1. rewrite Hfetch.
  unfold bind at 1, lift at 1.
  rewrite (filter_list_raises raw_props (VDict prop) Hin
             (null_market_raises prop Hnull)).
  reflexivity.
Qed.

Lemma props_null_market_aborts_witness :
  Ingestor.ingest_player_props_filtered null_market_env sample_client
    [1; 2] None 500 (fresh_state 1700000000 0.11)
  = (Raise (AttributeError "object has no attribute 'get'"),
     snd (to_list (iter_player_props null_market_env sample_client 1 None)
                  (fresh_state 1700000000 0.11))).
Proof.
  refine (props_null_market_aborts null_market_env sample_client 1 [2] None
            500 (fresh_state 1700000000 0.11) _
            [VDict prop_with_null_market] prop_with_null_market _ _ _).
  - vm_compute. reflexivity.
  - left. reflexivity.
  - reflexivity.
Defined.

Lemma for_each_cons {A S} (x : A) xs (body : A -> S -> M S) acc s :
  for_each (gen_of_list (x :: xs)) body acc s =
  match body x acc s with
  | (Ok acc', s') => for_each (gen_of_list xs) body acc' s'
  | (Raise e, s') => (Raise e, s')
  | (Diverge, s') => (Diverge, s')
  end.
Proof.
  unfold for_each, block_result, gen_of_list. cbn [gen_items run_loop].
  destruct (body x acc s) as [[acc'|e|] s']; reflexivity.
Qed.

Section ExtrasLoop.
Variable E : Env.
Variable bdl : BallDontLieNFLClient.

(** One game under [try ... except Exception]. *)
Lemma guarded_game gid acc s :
  (exists n s',
      block_result
        (try_block (Extras.best_props_of_game E bdl gid acc)
           (fun e => Some (warning "Props error game %s: %s" [VInt gid] e)))
        s = (Ok n, s')) \/
  (exists s',
      block_result
        (try_block (Extras.best_props_of_game E bdl gid acc)
           (fun e => Some (warning "Props error game %s: %s" [VInt gid] e)))
        s = (Diverge, s')).
Proof.
  unfold block_result, try_block.
  destruct (Extras.best_props_of_game E bdl gid acc s)
    as [[v [[]|e|]] s1].
  - left. eauto.
  - left. unfold warning, emit. eauto.
  - right. eauto.
Qed.

End ExtrasLoop.

(** X15.  The props loop of [ingest_extras] catches [Exception]: whatever a game
    meets (a failed request, a malformed record, a failed store write) the
    loop itself never raises; it returns its count, unless the model's page
    budget cuts a fetch short. *)
Theorem extras_props_loop_never_raises :
  forall (E : Env) (bdl : BallDontLieNFLClient) (game_ids : list Z)
         (props_upserted : Z) (s : State),
    (exists n,
        fst (Extras.props_loop E bdl game_ids props_upserted s) = Ok n) \/
    fst (Extras.props_loop E bdl game_ids props_upserted s) = Diverge.
Proof.
  intros E bdl game_ids. unfold Extras.props_loop.
  induction game_ids as [|gid rest IH]; intros acc s.
  - left. exists acc. reflexivity.
  - rewrite for_each_cons.
    destruct (guarded_game E bdl gid acc s) as [(n & s' & H)|(s' & H)];
      rewrite H.
    + apply IH.
    + right. reflexivity.
Qed.

(** Where [ingest_player_props_filtered] gives up, the loop of
    [ingest_extras] goes on: with the first store write failing, game 2 is
    still asked for and its prop stored. *)
Example extras_props_loop_survives_store_failure :
  fst (Extras.props_loop failing_store_env sample_client [1; 2] 0
         (fresh_state 1700000000 0.11)) = Ok 1 /\
  games_requested
    (trace (snd (Extras.props_loop failing_store_env sample_client [1; 2] 0
                   (fresh_state 1700000000 0.11))))
  = [VInt 1; VInt 2].
Proof. vm_compute. split; reflexivity. Qed.

End PropFacts.

(* ================================================================== *)
(** * Deduplication by key *)
(* ================================================================== *)

Module KeyFacts.
Import Py Runtime Spec StoreFacts.

Lemma tuple_eqb_spec a b : reflect (a = b) (tuple_eqb a b).
Proof.
  apply iff_reflect. split.
  - intros <-. induction a as [|x a IH]; cbn; [reflexivity|].
    now rewrite Value_eqb_refl, IH.
  - revert b. induction a as [|x a IH]; intros [|y b]; cbn;
      try discriminate; [reflexivity|].
    intros H. apply andb_true_iff in H. destruct H as [H1 H2].
    f_equal; [now apply Value_eqb_eq | auto].
Qed.

Section Tdict.
Context {V : Type}.
Implicit Types (t : list (list Value * V)) (k : list Value) (v : V).

Lemma tdict_find_some_in t k v : tdict_find t k = Some v -> In (k, v) t.
Proof.
  induction t as [|[k0 v0] t IH]; cbn; [discriminate|].
  destruct (tuple_eqb_spec k k0) as [->|Hne].
  - intros H; inversion H; auto.
  - auto.
Qed.

Lemma tdict_find_none t k : tdict_find t k = None -> ~ In k (map fst t).
Proof.
  induction t as [|[k0 v0] t IH]; cbn; [tauto|].
  destruct (tuple_eqb_spec k k0) as [->|Hne]; [discriminate|].
  intros H [Heq|Hin]; [congruence | now apply IH].
Qed.

Lemma tdict_set_absent t k v :
  tdict_find t k = None -> tdict_set t k v = (t ++ [(k, v)])%list.
Proof.
  induction t as [|[k0 v0] t IH]; cbn; [reflexivity|].
  destruct (tuple_eqb_spec k k0) as [->|Hne]; [discriminate|].
  intros H. now rewrite IH.
Qed.

Lemma tdict_set_present_keys t k v v0 :
  tdict_find t k = Some v0 -> map fst (tdict_set t k v) = map fst t.
Proof.
  induction t as [|[k1 v1] t IH]; cbn; [discriminate|].
  destruct (tuple_eqb_spec k k1) as [->|Hne]; cbn; [reflexivity|].
  intros H. now rewrite IH.
Qed.

Lemma in_tdict_set_same t k v : In (k, v) (tdict_set t k v).
Proof.
  induction t as [|[k0 v0] t IH]; cbn; [auto|].
  destruct (tuple_eqb_spec k k0) as [->|Hne]; cbn; auto.
Qed.

Lemma in_tdict_set_other t k v k' v' :
  k' <> k -> In (k', v') t -> In (k', v') (tdict_set t k v).
Proof.
  intros Hne. induction t as [|[k0 v0] t IH]; cbn; [tauto|].
  intros [Heq|Hin].
  - inversion Heq; subst.
    destruct (tuple_eqb_spec k k') as [->|_]; [congruence|]. now left.
  - destruct (tuple_eqb_spec k k0) as [->|_]; cbn; auto.
Qed.

Lemma in_tdict_set t k v k' v' :
  NoDup (map fst t) ->
  In (k', v') (tdict_set t k v) ->
  (k' = k /\ v' = v) \/ (k' <> k /\ In (k', v') t).
Proof.
  induction t as [|[k0 v0] t IH]; cbn.
  - intros _ [Heq|[]]. inversion Heq; auto.
  - intros Hnd. inversion Hnd as [|? ? Hnotin Hnd']; subst.
    destruct (tuple_eqb_spec k k0) as [->|Hne]; cbn.
    + intros [Heq|Hin]; [inversion Heq; auto|].
      right. split; [|auto].
      intros ->. apply Hnotin. apply (in_map fst) in Hin. exact Hin.
    + intros [Heq|Hin].
      * inversion Heq; subst. right. split; [congruence | auto].
      * destruct (IH Hnd' Hin) as [?|[? ?]]; auto.
Qed.

Lemma nodup_snoc {A} (l : list A) (a : A) :
  NoDup l -> ~ In a l -> NoDup (l ++ [a]).
Proof.
  induction l as [|x l IH]; cbn; intros Hnd Hnot.
  - constructor; [tauto | constructor].
  - inversion Hnd; subst. constructor.
    + rewrite in_app_iff. cbn. intros [Hin|[Heq|[]]]; [auto|].
      apply Hnot. left. auto.
    + apply IH; auto.
Qed.

Lemma tdict_set_nodup t k v :
  NoDup (map fst t) -> NoDup (map fst (tdict_set t k v)).
Proof.
  intros Hnd. destruct (tdict_find t k) as [v0|] eqn:Hf.
  - now rewrite (tdict_set_present_keys t k v v0 Hf).
  - rewrite (tdict_set_absent t k v Hf), map_app. cbn.
    apply nodup_snoc; [exact Hnd|]. now apply tdict_find_none.
Qed.

End Tdict.

Lemma nodup_map_ok {A} (l : list A) :
  NoDup l -> NoDup (map (@Ok A) l).
Proof.
  induction 1 as [|a l Hnot Hnd IH]; cbn; constructor; auto.
  rewrite in_map_iff. intros (b & Hb & Hin). inversion Hb; subst. auto.
Qed.

(** The keys of the values of a dict whose every entry sits under the key
    of its value. *)
Lemma keys_of_values (key : Dict -> Result (list Value))
      (seen : list (list Value * Dict)) :
  (forall k m, In (k, m) seen -> key m = Ok k) ->
  map key (map snd seen) = map (@Ok _) (map fst seen).
Proof.
  intros H. rewrite !map_map. apply map_ext_in.
  intros [k m] Hin. cbn. now apply H.
Qed.

Section Dedupe.
Variable keys : list string.

Lemma dedupe_inv_step done seen r k :
  dedupe_inv keys done seen -> dedupe_key keys r = Ok k ->
  dedupe_inv keys (done ++ [r]) (tdict_set seen k r).
Proof.
  intros (Hnd & Hent & Hcov) Hk. split; [|split].
  - now apply tdict_set_nodup.
  - intros k' m Hin.
    destruct (in_tdict_set seen k r k' m Hnd Hin) as [[-> ->]|[Hne Hold]].
    + split; [exact Hk|]. exists done, []. split; [reflexivity|].
      intros x [].
    + destruct (Hent k' m Hold) as (Hkm & pre & post & -> & Hlast).
      split; [exact Hkm|].
      exists pre, (post ++ [r])%list. split.
      * now rewrite <- app_assoc.
      * intros x Hx. apply in_app_iff in Hx. destruct Hx as [Hx|[<-|[]]].
        -- now apply Hlast.
        -- rewrite Hk, Hkm. congruence.
  - intros x Hx. apply in_app_iff in Hx. destruct Hx as [Hx|[<-|[]]].
    + destruct (Hcov x Hx) as (k' & m & Hk' & Hin).
      exists k'. destruct (tuple_eqb_spec k' k) as [->|Hne].
      * exists r. split; [exact Hk'|apply in_tdict_set_same].
      * exists m. split; [exact Hk'|now apply in_tdict_set_other].
    + exists k, r. split; [exact Hk|apply in_tdict_set_same].
Qed.

Lemma dedupe_inv_loop rows : forall done seen seen',
  dedupe_inv keys done seen ->
  Extras._dedupe_loop rows keys seen = Ok seen' ->
  dedupe_inv keys (done ++ rows) seen'.
Proof.
  induction rows as [|r rows IH]; intros done seen seen' Hinv Hrun.
  - cbn in Hrun. inversion Hrun; subst. now rewrite app_nil_r.
  - cbn [Extras._dedupe_loop] in Hrun.
    destruct (tuple_key (map (get r) keys)) as [k| |] eqn:Hk;
      cbn [rbind] in Hrun; try discriminate.
    replace (done ++ r :: rows)%list with ((done ++ [r]) ++ rows)%list
      by (now rewrite <- app_assoc).
    eapply IH; [|exact Hrun]. now apply dedupe_inv_step.
Qed.

End Dedupe.

(** X16.  [_dedupe] keeps, for every key, the last of the rows that carry it:
    what it returns holds no two rows of one key, each returned row is the
    last input row of its key, and every input row finds the row of its key
    in the output. *)
Theorem dedupe_last_wins :
  forall (rows : list Dict) (keys : list string) (out : list Dict),
    Extras._dedupe rows keys = Ok out ->
    NoDup (map (dedupe_key keys) out) /\
    (forall m, In m out -> last_of_key keys rows m) /\
    (forall r, In r rows ->
               exists m, In m out /\ dedupe_key keys m = dedupe_key keys r).
Proof.
  intros rows keys out Hrun.
  unfold Extras._dedupe in Hrun.
  destruct (Extras._dedupe_loop rows keys []) as [seen| |] eqn:Hloop;
    cbn [rbind] in Hrun; try discriminate.
  inversion Hrun; subst out.
  destruct (dedupe_inv_loop keys rows [] [] seen) as (Hnd & Hent & Hcov).
  { split; [constructor|]. split; intros; contradiction. }
  { exact Hloop. }
  cbn [app] in Hent, Hcov.
  split; [|split].
  - rewrite (keys_of_values (dedupe_key keys) seen).
    + now apply nodup_map_ok.
    + intros k m Hin. now destruct (Hent k m Hin).
  - intros m Hin. apply in_map_iff in Hin.
    destruct Hin as ([k m0] & <- & Hin). now destruct (Hent k m0 Hin).
  - intros r Hin. destruct (Hcov r Hin) as (k & m & Hk & Hm).
    exists m. split; [now apply (in_map snd) in Hm|].
    destruct (Hent k m Hm) as [Hkm _]. congruence.
Qed.

Lemma dedupe_last_wins_witness :
  NoDup (map (dedupe_key ["team_id"; "season"; "postseason"])
             [team_row 1 310; team_row 2 280]) /\
  (forall m, In m [team_row 1 310; team_row 2 280] ->
             last_of_key ["team_id"; "season"; "postseason"]
                         [team_row 1 300; team_row 2 280; team_row 1 310] m) /\
  (forall r, In r [team_row 1 300; team_row 2 280; team_row 1 310] ->
             exists m, In m [team_row 1 310; team_row 2 280] /\
                       dedupe_key ["team_id"; "season"; "postseason"] m
                       = dedupe_key ["team_id"; "season"; "postseason"] r).
Proof.
  apply (dedupe_last_wins [team_row 1 300; team_row 2 280; team_row 1 310]
           ["team_id"; "season"; "postseason"]
           [team_row 1 310; team_row 2 280]).
  reflexivity.
Defined.

(** X17.  A key that cannot be hashed makes [_dedupe] raise: a row whose key
    field holds a list or an object ends the call with a [TypeError]. *)
Theorem dedupe_unhashable :
  forall (rows : list Dict) (keys : list string) (r : Dict) (e : Exc),
    In r rows ->
    dedupe_key keys r = Raise e ->
    Extras._dedupe rows keys = Raise (TypeError "unhashable type").
Proof.
  intros rows keys r e Hin Hkey.
  assert (Hraise : forall vs e', tuple_key vs = Raise e' ->
                                 e' = TypeError "unhashable type").
  { induction vs as [|v vs IH]; cbn; [discriminate|].
    intros e'. destruct v; cbn [hash_key rbind];
      try (intros H; inversion H; reflexivity);
      destruct (tuple_key vs) as [ks|e0|] eqn:Hvs; cbn [rbind];
      try discriminate; intros H; inversion H; subst; now apply IH. }
  assert (Hloop : forall seen,
             Extras._dedupe_loop rows keys seen
             = Raise (TypeError "unhashable type")).
  { induction rows as [|x rows IH]; [contradiction|].
    intros seen. cbn [Extras._dedupe_loop].
    destruct (tuple_key (map (get x) keys)) as [k|e'|] eqn:Hk; cbn [rbind].
    - destruct Hin as [->|Hin].
      + unfold dedupe_key in Hkey. congruence.
      + now apply IH.
    - now rewrite (Hraise _ e' Hk).
    - exfalso. clear - Hk.
      revert Hk. generalize (map (get x) keys). intros vs.
      induction vs as [|v vs IH]; cbn; [discriminate|].
      destruct v; cbn [hash_key rbind]; try discriminate;
        destruct (tuple_key vs); cbn [rbind]; try discriminate; auto. }
  unfold Extras._dedupe. now rewrite Hloop.
Qed.

Lemma dedupe_unhashable_witness :
  Extras._dedupe [team_row 1 300; [("team_id", VList [VInt 1])]]
                 ["team_id"; "season"; "postseason"]
  = Raise (TypeError "unhashable type").
Proof.
  apply (dedupe_unhashable
           [team_row 1 300; [("team_id", VList [VInt 1])]]
           ["team_id"; "season"; "postseason"]
           [("team_id", VList [VInt 1])]
           (TypeError "unhashable type")).
  - right. left. reflexivity.
  - reflexivity.
Defined.

Section Roster.

(** The assignment [seen_keys[key] = row]. *)
Lemma roster_inv_set done seen row key :
  roster_inv done seen -> roster_key row = Ok key ->
  (forall m0, tdict_find seen key = Some m0 -> preferred row) ->
  roster_inv (done ++ [row]) (tdict_set seen key row).
Proof.
  intros (Hnd & Hent & Hcov & Hpref) Hkey Hover.
  split; [|split; [|split]].
  - now apply tdict_set_nodup.
  - intros k m Hin.
    destruct (in_tdict_set seen key row k m Hnd Hin) as [[-> ->]|[Hne Hold]].
    + split; [exact Hkey|]. apply in_app_iff. right. now left.
    + destruct (Hent k m Hold) as [Hk Hm].
      split; [exact Hk|]. apply in_app_iff. now left.
  - intros r Hr. apply in_app_iff in Hr. destruct Hr as [Hr|[<-|[]]].
    + destruct (Hcov r Hr) as (k & m & Hk & Hin).
      exists k. destruct (tuple_eqb_spec k key) as [->|Hne].
      * exists row. split; [exact Hk|apply in_tdict_set_same].
      * exists m. split; [exact Hk|now apply in_tdict_set_other].
    + exists key, row. split; [exact Hkey|apply in_tdict_set_same].
  - intros k m r Hin Hr Hk Hp.
    destruct (in_tdict_set seen key row k m Hnd Hin) as [[-> ->]|[Hne Hold]].
    + apply in_app_iff in Hr. destruct Hr as [Hr|[<-|[]]]; [|exact Hp].
      destruct (Hcov r Hr) as (k & m & Hk' & Hin').
      assert (k = key) by congruence. subst k.
      destruct (tdict_find seen key) as [m0|] eqn:Hfind.
      * now apply (Hover m0).
      * exfalso. apply tdict_find_none in Hfind. apply Hfind.
        apply (in_map fst) in Hin'. exact Hin'.
    + apply in_app_iff in Hr. destruct Hr as [Hr|[<-|[]]].
      * eapply Hpref; eauto.
      * congruence.
Qed.

(** A special-teams row whose key was seen: skipped. *)
Lemma roster_inv_skip done seen row key m0 :
  roster_inv done seen -> roster_key row = Ok key ->
  tdict_find seen key = Some m0 -> ~ preferred row ->
  roster_inv (done ++ [row]) seen.
Proof.
  intros (Hnd & Hent & Hcov & Hpref) Hkey Hfind Hst.
  split; [exact Hnd|]. split; [|split].
  - intros k m Hin. destruct (Hent k m Hin) as [Hk Hm].
    split; [exact Hk|]. apply in_app_iff. now left.
  - intros r Hr. apply in_app_iff in Hr. destruct Hr as [Hr|[<-|[]]].
    + now apply Hcov.
    + exists key, m0. split; [exact Hkey|now apply tdict_find_some_in].
  - intros k m r Hin Hr Hk Hp.
    apply in_app_iff in Hr. destruct Hr as [Hr|[<-|[]]].
    + eapply Hpref; eauto.
    + contradiction.
Qed.

Lemma roster_inv_step done seen row seen' :
  roster_inv done seen ->
  Ingestor.roster_step seen row = Ok seen' ->
  roster_inv (done ++ [row]) seen'.
Proof.
  intros Hinv Hstep.
  unfold Ingestor.roster_step in Hstep.
  fold (roster_key row) in Hstep.
  destruct (roster_key row) as [key| |] eqn:Hkey; cbn [rbind] in Hstep;
    try discriminate.
  destruct (tdict_find seen key) as [m0|] eqn:Hfind.
  - destruct (Ingestor.not_in_ST_POSITIONS (get row "position"))
      as [[|]| |] eqn:Hpos; cbn [rbind] in Hstep; try discriminate;
      inversion Hstep; subst seen'.
    + apply roster_inv_set; auto.
    + apply (roster_inv_skip done seen row key m0); auto.
      unfold preferred. congruence.
  - inversion Hstep; subst seen'.
    apply roster_inv_set; auto.
    intros m0 Hm0. congruence.
Qed.

Lemma roster_inv_loop rows : forall done seen seen',
  roster_inv done seen ->
  Ingestor.roster_loop rows seen = Ok seen' ->
  roster_inv (done ++ rows) seen'.
Proof.
  induction rows as [|r rows IH]; intros done seen seen' Hinv Hrun.
  - cbn in Hrun. inversion Hrun; subst. now rewrite app_nil_r.
  - cbn [Ingestor.roster_loop] in Hrun.
    destruct (Ingestor.roster_step seen r) as [seen1| |] eqn:Hstep;
      cbn [rbind] in Hrun; try discriminate.
    replace (done ++ r :: rows)%list with ((done ++ [r]) ++ rows)%list
      by (now rewrite <- app_assoc).
    eapply IH; [|exact Hrun]. eapply roster_inv_step; eauto.
Qed.

End Roster.

(** X18.  The roster deduplication of [ingest_rosters] keeps one row for every
    key [(team_id, player_id, season)]: what it hands to the store holds no
    two rows of one key, every row of it is an input row, every input row
    finds the row of its key there, and when an input row of a key has a
    position outside the special teams (KR, PR, LS, P, PK, H), so has the
    row kept for that key. *)
Theorem roster_dedupe_prefers :
  forall (roster_rows out : list Dict),
    Ingestor.dedupe_rows roster_rows = Ok out ->
    NoDup (map roster_key out) /\
    (forall m, In m out -> In m roster_rows) /\
    (forall r, In r roster_rows ->
               exists m, In m out /\ roster_key m = roster_key r /\
                         (preferred r -> preferred m)).
Proof.
  intros rows out Hrun.
  unfold Ingestor.dedupe_rows in Hrun.
  destruct (Ingestor.roster_loop rows []) as [seen| |] eqn:Hloop;
    cbn [rbind] in Hrun; try discriminate.
  inversion Hrun; subst out.
  destruct (roster_inv_loop rows [] [] seen) as (Hnd & Hent & Hcov & Hpref).
  { split; [constructor|]. repeat split; intros; contradiction. }
  { exact Hloop. }
  cbn [app] in Hent, Hcov, Hpref.
  split; [|split].
  - rewrite (keys_of_values roster_key seen).
    + now apply nodup_map_ok.
    + intros k m Hin. now destruct (Hent k m Hin).
  - intros m Hin. apply in_map_iff in Hin.
    destruct Hin as ([k m0] & <- & Hin). now destruct (Hent k m0 Hin).
  - intros r Hin. destruct (Hcov r Hin) as (k & m & Hk & Hm).
    exists m. split; [now apply (in_map snd) in Hm|].
    destruct (Hent k m Hm) as [Hkm _].
    split; [congruence|]. intros Hp. eapply Hpref; eauto.
Qed.

Lemma roster_dedupe_prefers_witness :
  NoDup (map roster_key [roster_row "WR" 1]) /\
  (forall m, In m [roster_row "WR" 1] ->
             In m [roster_row "PR" 1; roster_row "WR" 1; roster_row "KR" 2]) /\
  (forall r, In r [roster_row "PR" 1; roster_row "WR" 1; roster_row "KR" 2] ->
             exists m, In m [roster_row "WR" 1] /\
                       roster_key m = roster_key r /\
                       (preferred r -> preferred m)).
Proof.
  apply (roster_dedupe_prefers
           [roster_row "PR" 1; roster_row "WR" 1; roster_row "KR" 2]
           [roster_row "WR" 1]).
  reflexivity.
Defined.

End KeyFacts.

(* ================================================================== *)
(** * What reaches the store *)
(* ================================================================== *)

Module WriteFacts.
Import Py Runtime Client Supabase Ingestor Spec ClientFacts RequestFacts.
Import FilterFacts DedupFacts PropFacts.

Lemma written_app a b : written (a ++ b) = (written a ++ written b)%list.
Proof. unfold written. apply flat_map_app. Qed.

Lemma written_visible tr : written (visible tr) = written tr.
Proof.
  unfold written, visible.
  induction tr as [|ev tr IH]; [reflexivity|].
  destruct ev as [[|] q|req|t rows cols|fmt args e];
    cbn [filter flat_map app]; now rewrite IH.
Qed.

Lemma writes_only_refl R s : writes_only R s s.
Proof. exists []. split; [now rewrite app_nil_r | constructor]. Qed.

Lemma writes_only_trans R s1 s2 s3 :
  writes_only R s1 s2 -> writes_only R s2 s3 -> writes_only R s1 s3.
Proof.
  intros (r1 & H1 & F1) (r2 & H2 & F2).
  exists (r1 ++ r2)%list. split.
  - now rewrite H2, H1, app_assoc.
  - apply Forall_app. now split.
Qed.

Lemma writes_only_silent R s s' :
  written (trace s') = written (trace s) -> writes_only R s s'.
Proof.
  intros H. exists []. split; [now rewrite app_nil_r | constructor].
Qed.

Lemma writes_only_weaken (R R' : string -> Dict -> Prop) s s' :
  (forall t r, R t r -> R' t r) -> writes_only R s s' -> writes_only R' s s'.
Proof.
  intros Himp (rows & H & F). exists rows. split; [exact H|].
  eapply Forall_impl; [|exact F]. intros [t r]; cbn. apply Himp.
Qed.

(** ** The monad *)

Lemma hands_only_ret R {A} (a : A) : hands_only R (ret a).
Proof. intros s. apply writes_only_refl. Qed.

Lemma hands_only_bind R {A B} (c : M A) (k : A -> M B) :
  hands_only R c -> (forall a, hands_only R (k a)) ->
  hands_only R (bind c k).
Proof.
  intros Hc Hk s. unfold bind.
  specialize (Hc s). destruct (c s) as [[a|e|] s1]; cbn [snd] in *.
  - eapply writes_only_trans; [exact Hc|apply Hk].
  - exact Hc.
  - exact Hc.
Qed.

Lemma hands_only_weaken (R R' : string -> Dict -> Prop) {A} (c : M A) :
  (forall t r, R t r -> R' t r) -> hands_only R c -> hands_only R' c.
Proof. intros Himp H s. eapply writes_only_weaken; eauto. Qed.

Lemma block_result_state {S} (b : Block S) s :
  snd (block_result b s) = snd (b s).
Proof.
  unfold block_result. destruct (b s) as [[v [[]|e|]] s']; reflexivity.
Qed.

(** ** The client *)

Section Fetch.
Variable E : Env.
Variable self : BallDontLieNFLClient.

Lemma request_silent method path params s :
  written (trace (snd (_request E self method path params s)))
  = written (trace s).
Proof.
  unfold _request.
  destruct (attempts_bounded E self (mk_request self method path params)
              (Z.to_nat (_max_retries self + 1)) 0%Z s)
    as (evs & (_ & _ & _ & _ & Hvis) & _ & _ & Hkind).
  rewrite <- (written_visible (trace (snd _))), Hvis, written_app,
    written_visible.
  assert (Hnone : written evs = []).
  { clear - Hkind. unfold written.
    induction Hkind as [|ev evs Hev _ IH]; [reflexivity|].
    cbn [flat_map]. rewrite IH.
    destruct ev as [[|] q|req|t rows cols|fmt args e];
      try contradiction; reflexivity. }
  now rewrite Hnone, app_nil_r.
Qed.

Lemma yields_items {A} (P : A -> Prop) xs tail :
  Forall P xs -> yields_only P tail -> yields_only P (gen_items xs tail).
Proof.
  induction 1; cbn [gen_items]; intros Ht; [exact Ht|].
  constructor; auto.
Qed.

Lemma forall_true {A} (xs : list A) : Forall (fun _ => True) xs.
Proof. induction xs; constructor; auto. Qed.

Lemma paginate_yields path params : forall fuel cursor,
  yields_only (fun _ : Value => True)
              (paginate_from E self fuel path params cursor).
Proof.
  induction fuel as [|fuel IH]; intros cursor; cbn [paginate_from].
  - constructor.
  - unfold gen_do, bind, lift, ret.
    constructor; intros s;
      pose proof (request_silent "GET" path (page_params self params cursor) s)
        as Hsil;
      destruct (_request E self "GET" path (page_params self params cursor) s)
        as [[payload|e|] s1]; cbn [snd] in Hsil; cbn [fst snd];
      try (constructor; fail); try exact Hsil.
    + destruct (py_get payload "data" (VList [])) as [data|e|];
        try (constructor; fail).
      destruct (py_iter data) as [rows|e|]; try (constructor; fail).
      cbn [fst]. apply yields_items; [apply forall_true|].
      destruct (next_cursor_of payload) as [[c|]|e|]; try constructor.
      apply IH.
    + destruct (py_get payload "data" (VList [])) as [data|e|];
        try exact Hsil.
      destruct (py_iter data) as [rows|e|]; exact Hsil.
Qed.

End Fetch.

(** ** Generators *)

Section Generators.
Context {A B : Type}.

Lemma gen_map_yields (P : A -> Prop) (Q : B -> Prop) (f : A -> M B) g :
  (forall a s, trace (snd (f a s)) = trace s) ->
  (forall a s b s', P a -> f a s = (Ok b, s') -> Q b) ->
  yields_only P g -> yields_only Q (gen_map f g).
Proof.
  intros Hsil Hq Hg.
  induction Hg as [|e| |a rest Ha Hrest IH|k Hk IH Hw]; cbn [gen_map];
    try (constructor; fail).
  - constructor; intros s.
    + destruct (f a s) as [[b|e|] s'] eqn:Hf; cbn [fst];
        try (constructor; fail).
      constructor; [eapply Hq; eauto|exact IH].
    + pose proof (Hsil a s) as Ht.
      destruct (f a s) as [[b|e|] s']; cbn [snd] in *; now rewrite Ht.
  - constructor; intros s.
    + specialize (IH s). destruct (k s) as [g' s']. exact IH.
    + specialize (Hw s). destruct (k s) as [g' s']. exact Hw.
Qed.

End Generators.

Lemma valid_rows_yields (P : Dict -> Prop) mapper required_fields
      abort_threshold g :
  yields_only P g ->
  forall invalid,
    yields_only (fun m => missing_required required_fields m = false)
                (_valid_rows_from g mapper required_fields abort_threshold
                                  invalid).
Proof.
  intros Hg.
  induction Hg as [|e| |a rest Ha Hrest IH|k Hk IH Hw]; intros invalid;
    cbn [_valid_rows_from]; try (constructor; fail).
  - destruct (missing_required required_fields (mapper a)) eqn:Hm.
    + cbn zeta. destruct (invalid + 1 >? abort_threshold);
        [constructor|apply IH].
    + constructor; [exact Hm|apply IH].
  - constructor; intros s.
    + specialize (IH s). destruct (k s) as [g' s']. apply IH.
    + specialize (Hw s). destruct (k s) as [g' s']. exact Hw.
Qed.

Lemma chunked_yields {A} (P : A -> Prop) size g :
  yields_only P g ->
  forall buf, Forall P buf ->
              yields_only (Forall P) (_chunked_from g size buf).
Proof.
  intros Hg.
  induction Hg as [|e| |a rest Ha Hrest IH|k Hk IH Hw]; intros buf Hbuf;
    cbn [_chunked_from]; try (constructor; fail).
  - destruct buf; constructor; auto. constructor.
  - cbn zeta.
    assert (Hnew : Forall P (buf ++ [a])).
    { apply Forall_app. split; [exact Hbuf|]. constructor; auto. }
    destruct (len (buf ++ [a]) >=? size).
    + constructor; [exact Hnew|]. apply IH. constructor.
    + now apply IH.
  - constructor; intros s.
    + specialize (IH s). destruct (k s) as [g' s']. now apply IH.
    + specialize (Hw s). destruct (k s) as [g' s']. exact Hw.
Qed.

Lemma yields_of_list {A} (P : A -> Prop) xs :
  Forall P xs -> yields_only P (gen_of_list xs).
Proof. intros H. apply yields_items; [exact H|constructor]. Qed.

(** ** Loops *)

Lemma run_loop_writes R {A S} (P : A -> Prop) (body : A -> S -> M S) g :
  yields_only P g ->
  (forall a acc, P a -> hands_only R (body a acc)) ->
  forall acc s, writes_only R s (snd (run_loop g body acc s)).
Proof.
  intros Hg Hbody.
  induction Hg as [|e| |a rest Ha Hrest IH|k Hk IH Hw]; intros acc s;
    cbn [run_loop snd]; try apply writes_only_refl.
  - pose proof (Hbody a acc Ha s) as Hb.
    destruct (body a acc s) as [[acc'|e|] s']; cbn [snd] in *.
    + eapply writes_only_trans; [exact Hb|apply IH].
    + exact Hb.
    + exact Hb.
  - specialize (IH s). specialize (Hw s). destruct (k s) as [g' s'].
    cbn [fst snd] in *.
    eapply writes_only_trans; [apply writes_only_silent; exact Hw|apply IH].
Qed.

Lemma for_each_writes R {A S} (P : A -> Prop) (body : A -> S -> M S) g acc :
  yields_only P g ->
  (forall a acc, P a -> hands_only R (body a acc)) ->
  hands_only R (for_each g body acc).
Proof.
  intros Hg Hbody s. unfold for_each. rewrite block_result_state.
  eapply run_loop_writes; eauto.
Qed.

Lemma to_list_writes {A} (P : A -> Prop) g :
  yields_only P g ->
  forall s,
    written (trace (snd (to_list g s))) = written (trace s) /\
    (forall xs s', to_list g s = (Ok xs, s') -> Forall P xs).
Proof.
  intros Hg.
  induction Hg as [|e| |a rest Ha Hrest IH|k Hk IH Hw]; intros s;
    cbn [to_list].
  - split; [reflexivity|]. intros xs s' H. inversion H. constructor.
  - split; [reflexivity|]. discriminate.
  - split; [reflexivity|]. discriminate.
  - unfold bind, ret. destruct (IH s) as [Hsil Hall].
    destruct (to_list rest s) as [[xs|e|] s1]; cbn [snd] in *;
      (split; [exact Hsil|]); try discriminate.
    intros ys s' H. inversion H; subst. constructor; eauto.
  - specialize (IH s). specialize (Hw s). destruct (k s) as [g' s1].
    cbn [fst snd] in *. destruct (IH s1) as [Hsil Hall].
    split; [congruence|exact Hall].
Qed.

(** ** The sink *)

Section Sink.
Variable E : Env.

Lemma upsert_writes (R : string -> Dict -> Prop) table rows on_conflict :
  Forall (R table) rows -> hands_only R (upsert E table rows on_conflict).
Proof.
  intros Hrows s. unfold upsert.
  exists (map (pair table) rows). split.
  - destruct (store_fault E (writes s)); cbn [snd trace];
      rewrite written_app; cbn [written flat_map]; now rewrite app_nil_r.
  - clear - Hrows. induction Hrows; constructor; auto.
Qed.

Lemma add_upsert_writes (R : string -> Dict -> Prop) table on_conflict chunk
      acc :
  Forall (R table) chunk ->
  hands_only R (add_upsert E table on_conflict chunk acc).
Proof.
  intros Hrows. unfold add_upsert.
  apply hands_only_bind; [now apply upsert_writes|].
  intros n. apply hands_only_ret.
Qed.

Lemma warning_writes R fmt args e : hands_only R (warning fmt args e).
Proof.
  intros s. apply writes_only_silent. unfold warning, emit. cbn [snd trace].
  rewrite written_app. cbn. now rewrite app_nil_r.
Qed.

Lemma time_time_trace s : trace (snd (time_time E s)) = trace s.
Proof. reflexivity. Qed.

End Sink.

Lemma try_block_writes R {S} (b : Block S) (h : Exc -> option (M unit)) :
  (forall s, writes_only R s (snd (b s))) ->
  (forall e m, h e = Some m -> hands_only R m) ->
  forall s, writes_only R s (snd (try_block b h s)).
Proof.
  intros Hb Hh s. unfold try_block.
  specialize (Hb s). destruct (b s) as [[v [[]|e|]] s1]; cbn [snd] in *;
    try exact Hb.
  destruct (h e) as [m|] eqn:He; [|exact Hb].
  pose proof (Hh e m He s1) as Hm.
  destruct (m s1) as [r s2]. cbn [snd] in *.
  eapply writes_only_trans; eauto.
Qed.

Lemma filter_list_true {A} (p : A -> Result bool) xs : forall ys,
  filter_list p xs = Ok ys -> Forall (fun y => p y = Ok true) ys.
Proof.
  induction xs as [|x xs IH]; intros ys; cbn [filter_list].
  - intros H. inversion H. constructor.
  - destruct (p x) as [keep| |] eqn:Hp; cbn [rbind]; try discriminate.
    destruct (filter_list p xs) as [zs| |]; cbn [rbind]; try discriminate.
    intros H. inversion H; subst.
    destruct keep; [constructor|]; auto.
Qed.

Lemma map_list_forall {A B} (P : A -> Prop) (Q : B -> Prop) (f : A -> M B) xs :
  (forall a s, trace (snd (f a s)) = trace s) ->
  (forall a s b s', P a -> f a s = (Ok b, s') -> Q b) ->
  Forall P xs ->
  forall s,
    trace (snd (map_list f xs s)) = trace s /\
    (forall ys s', map_list f xs s = (Ok ys, s') -> Forall Q ys).
Proof.
  intros Hsil Hq Hxs.
  induction Hxs as [|x xs Hx _ IH]; intros s; cbn [map_list].
  - split; [reflexivity|]. intros ys s' H. inversion H. constructor.
  - unfold bind, ret. pose proof (Hsil x s) as Ht.
    destruct (f x s) as [[y|e|] s1] eqn:Hf; cbn [snd] in *;
      try (split; [exact Ht|discriminate]).
    destruct (IH s1) as [Ht1 Hall].
    destruct (map_list f xs s1) as [[ys|e|] s2]; cbn [snd] in *;
      (split; [congruence|]); try discriminate.
    intros zs s' H. inversion H; subst. constructor; eauto.
Qed.

Ltac mapper_silent :=
  let v := fresh "v" in
  let s := fresh "s" in
  intros v s;
  match goal with
  | |- trace (snd (?f _ _ _)) = _ => unfold f
  end;
  unfold bind, lift, _now_iso, bind, time_time, ret;
  destruct (as_dict v); reflexivity.

Section Stats.
Variable E : Env.
Variable bdl : BallDontLieNFLClient.

Lemma map_player_game_stats_trace :
  forall v s, trace (snd (map_player_game_stats E v s)) = trace s.
Proof. mapper_silent. Qed.

Lemma map_adv_receiving_trace :
  forall v s, trace (snd (map_adv_receiving E v s)) = trace s.
Proof. mapper_silent. Qed.

Lemma map_adv_rushing_trace :
  forall v s, trace (snd (map_adv_rushing E v s)) = trace s.
Proof. mapper_silent. Qed.

Lemma map_adv_passing_trace :
  forall v s, trace (snd (map_adv_passing E v s)) = trace s.
Proof. mapper_silent. Qed.

Lemma map_player_prop_trace :
  forall v s, trace (snd (Ingestor.map_player_prop E v s)) = trace s.
Proof.
  intros v s. unfold Ingestor.map_player_prop, bind, lift, _now_iso, bind,
    time_time, ret.
  destruct (as_dict v) as [d| |]; try reflexivity.
  destruct (py_get (VDict d) "market" (VDict [])) as [market| |];
    try reflexivity.
  destruct (py_get market "type" (VStr "")) as [mt| |]; try reflexivity.
  destruct (as_dict market); reflexivity.
Qed.

(** The rows of a validated feed, batch by batch. *)
Lemma validated_batches (records : Gen Value) (f : Value -> M Dict)
      mapper required_fields abort_threshold batch_size :
  yields_only (fun _ => True) records ->
  (forall v s, trace (snd (f v s)) = trace s) ->
  yields_only (Forall (complete required_fields))
    (_chunked (_valid_rows (gen_map f records) mapper required_fields
                           abort_threshold)
              batch_size).
Proof.
  intros Hrec Hf.
  assert (H : yields_only
                (Forall (fun m => missing_required required_fields m = false))
                (_chunked (_valid_rows (gen_map f records) mapper
                                       required_fields abort_threshold)
                          batch_size)).
  { unfold _chunked, _valid_rows.
    apply chunked_yields; [|constructor].
    apply (valid_rows_yields (fun _ => True)).
    apply (gen_map_yields (fun _ => True)); auto. }
  revert H. generalize (_chunked (_valid_rows (gen_map f records) mapper
                                  required_fields abort_threshold) batch_size).
  intros g Hg.
  induction Hg as [|e| |a rest Ha Hrest IH|k Hk IH Hw];
    try (constructor; fail).
  - constructor; [|exact IH].
    eapply Forall_impl; [|exact Ha].
    intros m Hm. unfold complete.
    now apply BatchFacts.missing_required_false.
  - constructor; auto.
Qed.

(** The tables of the advanced statistics. *)
Lemma advanced_block_writes (R : string -> Dict -> Prop) label table records
      mapper season week postseason batch_size invalid_abort_threshold acc :
  yields_only (fun _ => True) records ->
  (forall v s, trace (snd (mapper v s)) = trace s) ->
  (forall r, complete ["player_id"; "season"; "week"; "postseason"] r ->
             R table r) ->
  hands_only R (advanced_block E label table records mapper season week
                               postseason batch_size invalid_abort_threshold
                               acc).
Proof.
  intros Hrec Hmap HR s. unfold advanced_block.
  rewrite block_result_state.
  apply try_block_writes.
  - intros s0. eapply run_loop_writes.
    + apply validated_batches; eauto.
    + intros chunk acc0 Hchunk. apply add_upsert_writes.
      eapply Forall_impl; [|exact Hchunk]. auto.
  - intros e m He. destruct e; inversion He; subst. apply warning_writes.
Qed.

Lemma advanced_week_writes (R : string -> Dict -> Prop) season week postseason
      batch_size invalid_abort_threshold acc :
  (forall t r,
      In t ["nfl_advanced_receiving_stats"; "nfl_advanced_rushing_stats";
            "nfl_advanced_passing_stats"] ->
      complete ["player_id"; "season"; "week"; "postseason"] r -> R t r) ->
  hands_only R (advanced_week E bdl season week postseason batch_size
                              invalid_abort_threshold acc).
Proof.
  intros HR. destruct acc as [[rec rush] pass]. unfold advanced_week.
  apply hands_only_bind.
  { apply advanced_block_writes;
      [apply paginate_yields|apply map_adv_receiving_trace|].
    intros r Hr. apply HR; [cbn; auto|exact Hr]. }
  intros rec'. apply hands_only_bind.
  { apply advanced_block_writes;
      [apply paginate_yields|apply map_adv_rushing_trace|].
    intros r Hr. apply HR; [cbn; auto|exact Hr]. }
  intros rush'. apply hands_only_bind.
  { apply advanced_block_writes;
      [apply paginate_yields|apply map_adv_passing_trace|].
    intros r Hr. apply HR; [cbn; auto|exact Hr]. }
  intros pass'. apply hands_only_ret.
Qed.

(** What [should_ingest_prop] accepted, as [map_player_prop] maps it. *)
Lemma should_ingest_mapped v s row s' :
  should_ingest_prop v = Ok true ->
  Ingestor.map_player_prop E v s = (Ok row, s') ->
  wanted_market row.
Proof.
  unfold should_ingest_prop, Ingestor.map_player_prop, bind, lift, ret.
  destruct v as [| | | | |d]; cbn [py_get as_dict rbind]; try discriminate.
  destruct (get_default d "market" (VDict [])) as [| | | | |mk];
    cbn [py_get as_dict rbind]; try discriminate.
  unfold _now_iso, bind, time_time, ret.
  intros Hshould Hmap. inversion Hmap; subst row. clear Hmap.
  unfold wanted_market.
  change (get (_ ++ _)%list "market_type")
    with (get_default mk "type" (VStr "")).
  change (get (_ ++ _)%list "prop_type") with (get d "prop_type").
  destruct (eq_str (get_default mk "type" (VStr "")) "over_under") eqn:Hou.
  - left. now apply eq_str_true.
  - right.
    destruct (eq_str (get_default mk "type" (VStr "")) "milestone") eqn:Hms;
      cbn [andb] in Hshould; [|discriminate].
    destruct (eq_str (get_default d "prop_type" (VStr "")) "anytime_td")
      eqn:Htd; [|discriminate].
    split; [now apply eq_str_true|].
    apply eq_str_true in Htd. unfold get_default in Htd. unfold get.
    destruct (dict_find d "prop_type"); [exact Htd|discriminate].
Qed.

Lemma upsert_valid_props_writes chunk acc :
  Forall wanted_market chunk ->
  hands_only (fun t r => t = "nfl_player_props" /\
                         truthy (get r "player_id") = true /\
                         truthy (get r "game_id") = true /\
                         wanted_market r)
             (upsert_valid_props E chunk acc).
Proof.
  intros Hchunk. unfold upsert_valid_props.
  set (valid := filter _ chunk).
  assert (Hvalid : Forall (fun r => "nfl_player_props" = "nfl_player_props" /\
                                    truthy (get r "player_id") = true /\
                                    truthy (get r "game_id") = true /\
                                    wanted_market r) valid).
  { apply Forall_forall. intros r Hr. subst valid.
    apply filter_In in Hr. destruct Hr as [Hin Hb].
    apply andb_true_iff in Hb. destruct Hb as [Hp Hg].
    rewrite Forall_forall in Hchunk. auto. }
  destruct valid as [|r valid]; [apply hands_only_ret|].
  now apply add_upsert_writes.
Qed.

Lemma props_of_game_writes game_id vendors batch_size acc s :
  writes_only (fun t r => t = "nfl_player_props" /\
                          truthy (get r "player_id") = true /\
                          truthy (get r "game_id") = true /\
                          wanted_market r)
              s (snd (props_of_game E bdl game_id vendors batch_size acc s)).
Proof.
  unfold props_of_game, bind, lift.
  destruct (to_list_writes (fun _ => True)
              (iter_player_props E bdl game_id vendors)
              ltac:(apply paginate_yields) s) as [Hsil _].
  destruct (to_list (iter_player_props E bdl game_id vendors) s)
    as [[raw_props|e|] s1]; cbn [snd] in *;
    try (now apply writes_only_silent).
  destruct (filter_list should_ingest_prop raw_props) as [filtered|e|] eqn:Hf;
    try (now apply writes_only_silent).
  destruct (map_list_forall (fun v => should_ingest_prop v = Ok true)
              wanted_market (Ingestor.map_player_prop E) filtered
              map_player_prop_trace
              ltac:(intros a s0 b s0' Ha Hm;
                    exact (should_ingest_mapped a s0 b s0' Ha Hm))
              (filter_list_true _ _ _ Hf) s1) as [Ht Hall].
  destruct (map_list (Ingestor.map_player_prop E) filtered s1)
    as [[mapped|e|] s2] eqn:Hm; cbn [snd] in *;
    try (apply writes_only_silent; congruence).
  eapply writes_only_trans;
    [apply writes_only_silent; rewrite Ht; exact Hsil|].
  eapply run_loop_writes.
  - unfold _chunked. apply chunked_yields; [|constructor].
    apply yields_of_list. exact (Hall mapped s2 eq_refl).
  - intros chunk acc0 Hchunk. now apply upsert_valid_props_writes.
Qed.

End Stats.

(** X19.  Whatever the upstream sends, the game-statistics statements of
    [ingest_stats_and_advanced] hand to the store only rows for
    [nfl_player_game_stats] whose [player_id] and [game_id] are not
    [None]. *)
Theorem game_stats_rows_complete :
  forall (E : Env) (bdl : BallDontLieNFLClient) (seasons : list Z)
         (batch_size invalid_abort_threshold : Z) (s : State),
    writes_only (fun t r => t = "nfl_player_game_stats" /\
                            complete ["player_id"; "game_id"] r)
                s
                (snd (game_stats_section E bdl seasons batch_size
                                         invalid_abort_threshold s)).
Proof.
  intros E bdl seasons batch_size invalid_abort_threshold.
  unfold game_stats_section.
  eapply for_each_writes.
  - apply validated_batches;
      [apply paginate_yields|apply map_player_game_stats_trace].
  - intros chunk acc Hchunk. apply add_upsert_writes.
    eapply Forall_impl; [|exact Hchunk]. intros m Hm. now split.
Qed.

(** X20.  Whatever the upstream sends and however the run ends, the
    advanced-statistics statements hand to the store only rows for the
    three advanced tables, each with [player_id], [season], [week] and
    [postseason] other than [None]. *)
Theorem advanced_rows_complete :
  forall (E : Env) (bdl : BallDontLieNFLClient) (seasons : list Z)
         (batch_size : Z) (advanced_weeks : option (list Z))
         (advanced_include_postseason : bool) (invalid_abort_threshold : Z)
         (s : State),
    writes_only
      (fun t r =>
         In t ["nfl_advanced_receiving_stats"; "nfl_advanced_rushing_stats";
               "nfl_advanced_passing_stats"] /\
         complete ["player_id"; "season"; "week"; "postseason"] r)
      s
      (snd (advanced_section E bdl seasons batch_size advanced_weeks
                             advanced_include_postseason
                             invalid_abort_threshold s)).
Proof.
  intros E bdl seasons batch_size advanced_weeks advanced_include_postseason
         invalid_abort_threshold.
  unfold advanced_section.
  apply (for_each_writes _ (fun _ => True)).
  - apply yields_of_list, forall_true.
  - intros season acc _. apply hands_only_bind.
    + apply (for_each_writes _ (fun _ => True)).
      * apply yields_of_list, forall_true.
      * intros week acc0 _. apply advanced_week_writes. auto.
    + intros acc'. destruct advanced_include_postseason.
      * apply advanced_week_writes. auto.
      * apply hands_only_ret.
Qed.

(** X21.  Whatever the upstream sends, [ingest_player_props_filtered] hands to
    the store only rows for [nfl_player_props] whose [player_id] and
    [game_id] count as true and whose market is over/under, or a milestone
    on [anytime_td]. *)
Theorem props_filtered_rows :
  forall (E : Env) (bdl : BallDontLieNFLClient) (game_ids : list Z)
         (vendors : option (list string)) (batch_size : Z) (s : State),
    writes_only (fun t r => t = "nfl_player_props" /\
                            truthy (get r "player_id") = true /\
                            truthy (get r "game_id") = true /\
                            wanted_market r)
                s
                (snd (ingest_player_props_filtered E bdl game_ids vendors
                                                   batch_size s)).
Proof.
  intros E bdl game_ids vendors batch_size.
  unfold ingest_player_props_filtered.
  apply (for_each_writes _ (fun _ => True)).
  - apply yields_of_list, forall_true.
  - intros game_id acc _ s. rewrite block_result_state.
    apply try_block_writes.
    + intros s0. apply props_of_game_writes.
    + intros e m He. destruct e; inversion He; subst. apply warning_writes.
Qed.

Lemma hands_only_bind_post R {A B} (Post : A -> Prop) (c : M A)
      (k : A -> M B) :
  hands_only R c ->
  (forall s a s', c s = (Ok a, s') -> Post a) ->
  (forall a, Post a -> hands_only R (k a)) ->
  hands_only R (bind c k).
Proof.
  intros Hc Hpost Hk s. unfold bind.
  pose proof (Hc s) as Hs. pose proof (Hpost s) as Hp.
  destruct (c s) as [[a|e|] s1]; cbn [snd] in *; try exact Hs.
  eapply writes_only_trans; [exact Hs|].
  apply Hk. eapply Hp. reflexivity.
Qed.

Section BestProps.
Variable E : Env.
Variable bdl : BallDontLieNFLClient.

Lemma extras_map_player_prop_trace row s :
  trace (snd (Extras.map_player_prop E row s)) = trace s.
Proof.
  unfold Extras.map_player_prop, bind, lift, ret.
  destruct (Extras.prop_map_get (get row "prop_type")) as [[db|]| |];
    try reflexivity.
  destruct (negb (truthy (get row "player_id"))); [reflexivity|].
  destruct (Extras.vendor_of row) as [vendor| |]; try reflexivity.
  destruct (as_dict (py_or (get row "market") (VDict []))) as [market| |];
    try reflexivity.
  destruct (truthy (get row "updated_at")); reflexivity.
Qed.

Lemma best_step_trace best_map row s :
  trace (snd (Extras.best_step E best_map row s)) = trace s.
Proof.
  unfold Extras.best_step, bind, lift.
  destruct (Extras.is_valid_prop row) as [[|]| |]; try reflexivity.
  cbn [negb].
  pose proof (extras_map_player_prop_trace row s) as Ht.
  destruct (Extras.map_player_prop E row s) as [[[m|]|e|] s1];
    cbn [snd] in *; try exact Ht.
  destruct (assoc_find best_map (Extras.best_key m)) as [existing|];
    [|exact Ht].
  destruct (_ <? _); exact Ht.
Qed.

(** The loop over the raw records is the loop over rows, as long as every
    record is an object. *)
Lemma best_loop_raw_rows raw : forall best_map s,
  trace (snd (Extras.best_loop_raw E raw best_map s)) = trace s /\
  (forall best_map' s',
      Extras.best_loop_raw E raw best_map s = (Ok best_map', s') ->
      exists rows,
        raw = map VDict rows /\
        Extras.best_loop E rows best_map s = (Ok best_map', s')).
Proof.
  induction raw as [|v raw IH]; intros bm s.
  - split; [reflexivity|]. intros bm' s' H. exists []. auto.
  - destruct v as [| | | | |row];
      try (split; [reflexivity|discriminate]).
    assert (Heq : Extras.best_loop_raw E (VDict row :: raw) bm s =
                  match Extras.best_step E bm row s with
                  | (Ok bm1, s1) => Extras.best_loop_raw E raw bm1 s1
                  | (Raise e, s1) => (Raise e, s1)
                  | (Diverge, s1) => (Diverge, s1)
                  end) by reflexivity.
    rewrite Heq. clear Heq.
    pose proof (best_step_trace bm row s) as Ht.
    destruct (Extras.best_step E bm row s) as [[bm1|e|] s1] eqn:Hstep;
      cbn [snd] in *; try (split; [exact Ht|discriminate]).
    destruct (IH bm1 s1) as [Ht1 Hrows].
    split; [congruence|].
    intros bm' s' Hrun. destruct (Hrows bm' s' Hrun) as (rows & -> & Hloop).
    exists (row :: rows). split; [reflexivity|].
    cbn [Extras.best_loop]. unfold bind. now rewrite Hstep.
Qed.

Lemma best_props_of_game_writes gid acc s :
  writes_only (fun t r => t = "nfl_player_props" /\
                          1 <= priority r <= 5 /\
                          get r "market_type" = VStr "over_under" /\
                          truthy (get r "player_id") = true)
              s (snd (Extras.best_props_of_game E bdl gid acc s)).
Proof.
  unfold Extras.best_props_of_game.
  match goal with
  | |- writes_only ?R s (snd (match ?c s with _ => _ end)) =>
      assert (H : hands_only R c); [|specialize (H s);
        destruct (c s) as [[n|e|] s1]; exact H]
  end.
  apply (hands_only_bind_post _ (fun _ => True)).
  - intros s0. apply writes_only_silent.
    apply (to_list_writes (fun _ => True)). apply paginate_yields.
  - auto.
  - intros raw_props _.
    apply (hands_only_bind_post _
             (fun bm => forall k m, In (k, m) bm ->
                                    exists r, candidate E r m)).
    + intros s0. apply writes_only_silent.
      now rewrite (proj1 (best_loop_raw_rows raw_props [] s0)).
    + intros s0 bm s' Hrun k m Hin.
      destruct (proj2 (best_loop_raw_rows raw_props [] s0) bm s' Hrun)
        as (rows & _ & Hloop).
      destruct (best_inv_loop E rows [] [] s0 bm s' (best_inv_start E) Hloop)
        as (_ & Hent & _).
      destruct (Hent k m Hin) as (_ & pre & r & post & _ & Hc & _).
      eauto.
    + intros bm Hbm.
      assert (Hrows : Forall (fun r => "nfl_player_props" = "nfl_player_props"
                                       /\ 1 <= priority r <= 5
                                       /\ get r "market_type"
                                          = VStr "over_under"
                                       /\ truthy (get r "player_id") = true)
                             (map snd bm)).
      { apply Forall_forall. intros m Hin. apply in_map_iff in Hin.
        destruct Hin as ([k m0] & <- & Hin). cbn [snd].
        destruct (Hbm k m0 Hin) as (r & Hc).
        destruct (candidate_row E r m0 Hc) as (Hp & Hmt & _ & _ & Hpid).
        auto. }
      destruct (map snd bm) as [|m best_props]; [apply hands_only_ret|].
      apply hands_only_bind; [now apply upsert_writes|].
      intros n. apply hands_only_ret.
Qed.

End BestProps.

(** X22.  Whatever the upstream sends, the props loop of [ingest_extras] hands
    to the store only rows for [nfl_player_props] of a ranked vendor
    (priority 1 to 5) that quote an over/under market and carry a player id
    that counts as true. *)
Theorem extras_props_rows :
  forall (E : Env) (bdl : BallDontLieNFLClient) (game_ids : list Z)
         (props_upserted : Z) (s : State),
    writes_only (fun t r => t = "nfl_player_props" /\
                            1 <= priority r <= 5 /\
                            get r "market_type" = VStr "over_under" /\
                            truthy (get r "player_id") = true)
                s
                (snd (Extras.props_loop E bdl game_ids props_upserted s)).
Proof.
  intros E bdl game_ids props_upserted.
  unfold Extras.props_loop.
  apply (for_each_writes _ (fun _ => True)).
  - apply yields_of_list, forall_true.
  - intros gid acc0 _ s. rewrite block_result_state.
    apply try_block_writes.
    + intros s0. apply best_props_of_game_writes.
    + intros e m He. inversion He; subst. apply warning_writes.
Qed.

Section Standings.
Variable E : Env.
Variable bdl : BallDontLieNFLClient.

Lemma map_standing_trace :
  forall v s, trace (snd (map_standing E v s)) = trace s.
Proof. mapper_silent. Qed.

Lemma upsert_valid_standings_writes chunk acc :
  hands_only (fun t r => t = "nfl_team_standings" /\
                         truthy (get r "team_id") = true)
             (upsert_valid_standings E chunk acc).
Proof.
  unfold upsert_valid_standings.
  set (valid := filter _ chunk).
  assert (Hvalid : Forall (fun r => "nfl_team_standings" = "nfl_team_standings"
                                    /\ truthy (get r "team_id") = true)
                          valid).
  { apply Forall_forall. intros r Hr. subst valid.
    apply filter_In in Hr. destruct Hr as [_ Hb]. auto. }
  destruct valid as [|r valid]; [apply hands_only_ret|].
  now apply add_upsert_writes.
Qed.

End Standings.

(** X23.  Whatever the upstream sends and however the run ends,
    [ingest_standings] hands to the store only rows for
    [nfl_team_standings] whose [team_id] counts as true: a standing that
    comes without its team is dropped, not written. *)
Theorem standings_rows :
  forall (E : Env) (bdl : BallDontLieNFLClient) (seasons : list Z)
         (batch_size : Z) (s : State),
    writes_only (fun t r => t = "nfl_team_standings" /\
                            truthy (get r "team_id") = true)
                s
                (snd (ingest_standings E bdl seasons batch_size s)).
Proof.
  intros E bdl seasons batch_size.
  unfold ingest_standings.
  apply (for_each_writes _ (fun _ => True)).
  - apply yields_of_list, forall_true.
  - intros season acc _.
    apply (for_each_writes _ (Forall (fun _ : Dict => True))).
    + unfold _chunked.
      apply (chunked_yields (fun _ => True)); [|constructor].
      apply (gen_map_yields (fun _ => True)); auto.
      * apply map_standing_trace.
      * apply paginate_yields.
    + intros chunk acc0 _. apply upsert_valid_standings_writes.
Qed.

End WriteFacts.
